(** * A statistics web application: the computation engine and its callers

    The development embeds three source files of the application:

    - [src/server.js]: the distribution library, the special functions
      ([erf], [comb], [factorial], [gamma]), the descriptive statistics
      ([calculateStats]), the samplers and the two POST handlers that
      dispatch on a distribution name;
    - [src/client/components/PairedMeanCI.tsx]: [handleCalculate], the
      paired-sample confidence interval;
    - [src/client/components/AIDataGenerator.tsx]: [calculate] of
      [TwoSampleCIComponent], the two-sample confidence interval.

    Numbers.  A JavaScript number is a binary64 number, and the code is
    embedded twice.  Where a statement is about the control flow, about the
    order of the numbers of an array or about the formula a result is
    computed by, a number is modelled by a real number: sums, products,
    quotients, [Math.sqrt], [Math.exp], [Math.log], [Math.sin], [Math.cos]
    and [Math.PI] are the exact ones of the real line, and the statement is
    one that the rounding of these operations leaves as it is.  [Infinity]
    and [-Infinity], which the interval code stores in a bound, are added by
    the type [bound]; [undefined] and [NaN], which an array read out of
    range produces, are the [None] of an [option].  Where JavaScript
    computes [NaN] or an infinite value from finite operands (a division by
    zero, [Math.pow] of a negative base and a fractional exponent), the
    real-valued operation here is total and its value at that point is
    arbitrary; no statement below depends on it.

    Where the rounding decides (the integers [factorial] and [comb] return,
    the threshold the Poisson sampler compares with, a tolerance of
    [normalCDF]), the code is embedded on the binary64 numbers themselves,
    in the modules [Binary64] and [Binary64Arrays]: sums, products,
    quotients and comparisons are those of IEEE 754, and [Math.exp], which
    the language leaves to the engine, is a parameter.

    Effects.  Arrays live in a heap and are passed by reference, and
    [Math.random] reads a tape of draws; both are threaded by the monad [JS]. *)

From Stdlib Require Import Floats.
From Stdlib Require Import Reals Lra Lia ZArith List.
From stdpp Require Import base gmap list strings sorting.

Open Scope string_scope.
Open Scope R_scope.

Set Warnings "-inexact-float".

(** ** Part I: the embedding *)

(** *** Numbers *)

(** The relational operators of the source, [<], [<=], [>], [>=] and [===]
    on numbers, are decided through [decide]. *)

#[global] Instance Rlt_decision : RelDecision Rlt := Rlt_dec.
#[global] Instance Rle_decision : RelDecision Rle := Rle_dec.
#[global] Instance Rgt_decision : RelDecision Rgt := Rgt_dec.
#[global] Instance Rge_decision : RelDecision Rge := Rge_dec.
#[global] Instance Req_decision : EqDecision R := Req_dec_T.

(** [<=] is a total order. *)
#[global] Instance Rle_transitive : Transitive Rle := Rle_trans.

#[global] Instance Rle_antisymm : AntiSymm eq Rle := Rle_antisym.

#[global] Instance Rle_total : Total Rle.
Proof. intros x y. destruct (Rle_lt_dec x y); [left | right]; lra. Qed.

(** [Math.floor], as a number again. *)
Definition Math_floor (x : R) : R := IZR (Zfloor x).

(** [Number.isInteger]. *)
Definition Number_isInteger (x : R) : bool := bool_decide (Math_floor x = x).

(** A comparison one of whose operands is [undefined] is false. *)
Definition num_gt (a b : option R) : bool :=
  match a, b with Some u, Some v => bool_decide (u > v) | _, _ => false end.

Definition num_ge (a b : option R) : bool :=
  match a, b with Some u, Some v => bool_decide (u >= v) | _, _ => false end.

Definition num_le (a b : option R) : bool :=
  match a, b with Some u, Some v => bool_decide (u <= v) | _, _ => false end.

(** [Math.pow]: the integer power when the exponent is an integer;
    otherwise [0] on the base [0] and [exp (exponent * ln base)] on a
    positive base. *)
Definition Math_pow (base exponent : R) : R :=
  if decide (Math_floor exponent = exponent)
  then powerRZ base (Zfloor exponent)
  else if decide (base = 0) then 0
  else Rpower base exponent.

(** *** Counting loops

    [for (let i = i0; test(i); i++) acc = body(i, acc)].  The counter only
    takes integer values, so it is a [Z]; it is converted with [IZR] where the
    source uses it as a number.  [fuel] bounds the number of rounds, and
    [rounds bound] is enough fuel for a loop that starts at [0] or above and
    runs while [i < bound] or [i <= bound] (lemmas [rounds_enough_lt],
    [rounds_enough_le] and [rounds_enough_effects] below). *)

Fixpoint for_loop {A : Type} (fuel : nat) (test : Z -> bool)
    (body : Z -> A -> A) (i : Z) (acc : A) : A :=
  match fuel with
  | O => acc
  | S fuel' =>
      if test i then for_loop fuel' test body (i + 1) (body i acc) else acc
  end.

Definition rounds (bound : R) : nat := S (Z.to_nat (Zfloor bound)).

(** *** Special functions ([src/server.js]) *)

(** [erf], lines 523-542. *)
Definition erf (x : R) : R :=
  let a1 := 0.254829592 in
  let a2 := -0.284496736 in
  let a3 := 1.421413741 in
  let a4 := -1.453152027 in
  let a5 := 1.061405429 in
  let p := 0.3275911 in
  let sign := if decide (x >= 0) then 1 else -1 in
  let x := Rabs x in
  let t := 1.0 / (1.0 + p * x) in
  let y := 1.0 - (((((a5 * t + a4) * t) + a3) * t + a2) * t + a1) * t
                 * exp (- x * x) in
  sign * y.

(** [comb], lines 544-554. *)
Definition comb (n k : R) : R :=
  if decide (k < 0 \/ k > n) then 0
  else if decide (k = 0 \/ k = n) then 1
  else
    let k := Rmin k (n - k) in
    for_loop (rounds k) (fun i => bool_decide (IZR i < k))
      (fun i c => c * (n - IZR i) / (IZR i + 1)) 0 1.

(** [factorial], lines 556-565. *)
Definition factorial (n : R) : R :=
  if decide (n < 0) then 0
  else if decide (n = 0 \/ n = 1) then 1
  else
    for_loop (rounds n) (fun i => bool_decide (IZR i <= n))
      (fun i result => result * IZR i) 2 1.

(** *** The distribution library ([src/server.js], lines 335-463, 567-592)

    The default values some of these functions declare for their parameters
    are left out: every call of the source passes all the arguments. *)

Definition normalPDF (x mu sigma : R) : R :=
  let coefficient := 1 / (sigma * sqrt (2 * PI)) in
  let exponent := -0.5 * Math_pow ((x - mu) / sigma) 2 in
  coefficient * exp exponent.

Definition normalCDF (x mu sigma : R) : R :=
  let z := (x - mu) / sigma in
  0.5 * (1 + erf (z / sqrt 2)).

Definition uniformPDF (x a b : R) : R :=
  if decide (x < a \/ x > b) then 0 else 1 / (b - a).

Definition uniformCDF (x a b : R) : R :=
  if decide (x < a) then 0
  else if decide (x > b) then 1
  else (x - a) / (b - a).

Definition binomialPMF (k n p : R) : R :=
  if decide (k < 0 \/ k > n) then 0
  else comb n k * Math_pow p k * Math_pow (1 - p) (n - k).

Definition binomialCDF (k n p : R) : R :=
  for_loop (rounds k) (fun i => bool_decide (IZR i <= k))
    (fun i sum => sum + binomialPMF (IZR i) n p) 0 0.

Definition poissonPMF (k lambda : R) : R :=
  if decide (k < 0) then 0
  else (Math_pow lambda k * exp (- lambda)) / factorial k.

Definition poissonCDF (k lambda : R) : R :=
  for_loop (rounds k) (fun i => bool_decide (IZR i <= k))
    (fun i sum => sum + poissonPMF (IZR i) lambda) 0 0.

Definition exponentialPDF (x lambda : R) : R :=
  if decide (x < 0) then 0 else lambda * exp (- lambda * x).

Definition exponentialCDF (x lambda : R) : R :=
  if decide (x < 0) then 0 else 1 - exp (- lambda * x).

(** The Lanczos coefficients of [gamma]. *)
Definition lanczos : list R :=
  [ 0.99999999999980993; 676.5203681218851; -1259.1392167224028;
    771.32342877765313; -176.61502916214059; 12.507343278686905;
    -0.13857109526572012; 9.9843695780195716e-6; 1.5056327351493116e-7 ].

(** [gamma] calls itself once, on [1 - z], when [z < 0.5]; [fuel] counts the
    nested calls and [gamma] gives it two (lemma [gamma_rec_fuel]). *)
Fixpoint gamma_rec (fuel : nat) (z : R) : R :=
  match fuel with
  | O => 0
  | S fuel' =>
      if decide (z < 0.5)
      then PI / (sin (PI * z) * gamma_rec fuel' (1 - z))
      else
        let p := lanczos in
        let z := z - 1 in
        let x :=
          for_loop (length p) (fun i => bool_decide (IZR i < INR (length p)))
            (fun i x => x + nth (Z.to_nat i) p 0 / (z + IZR i)) 1 (nth 0 p 0) in
        let t := z + INR (length p) - 0.5 in
        sqrt (2 * PI) * Math_pow t (z + 0.5) * exp (- t) * x
  end.

Definition gamma (z : R) : R := gamma_rec 2 z.

Definition gammaPDF (x shape rate : R) : R :=
  if decide (x < 0) then 0
  else (Math_pow rate shape * Math_pow x (shape - 1) * exp (- rate * x))
       / gamma shape.

(** *** Binary64: [erf], [normalCDF], [factorial] and [comb]

    The same functions on the numbers JavaScript computes with, the
    binary64 floating-point numbers, whose sum, product, quotient and square
    root are correctly rounded.  [Math.exp] is implementation-defined up to
    an approximation and is a parameter; ECMAScript fixes [Math.exp(-0)] to
    [1].  A decimal constant denotes the nearest binary64 number, as it does
    in the source. *)

Module Binary64.

Definition erf (Math_exp : float -> float) (x : float) : float :=
  (let a1 := 0.254829592 in
   let a2 := -0.284496736 in
   let a3 := 1.421413741 in
   let a4 := -1.453152027 in
   let a5 := 1.061405429 in
   let p := 0.3275911 in
   let sign := if 0 <=? x then 1 else -1 in
   let x := PrimFloat.abs x in
   let t := 1.0 / (1.0 + p * x) in
   let y := 1.0 - (((((a5 * t + a4) * t) + a3) * t + a2) * t + a1) * t
                  * Math_exp (- x * x) in
   sign * y)%float.

Definition normalCDF (Math_exp : float -> float) (x mu sigma : float)
    : float :=
  (let z := (x - mu) / sigma in
   0.5 * (1 + erf Math_exp (z / PrimFloat.sqrt 2)))%float.

(** The integer a binary64 number is, when it is finite and has no
    fractional part. *)
Definition integer (x : float) : option Z :=
  match Prim2SF x with
  | S754_zero _ => Some 0%Z
  | S754_finite s m e =>
      if (0 <=? e)%Z
      then Some (if s then (- (Z.pos m * 2 ^ e))%Z else (Z.pos m * 2 ^ e)%Z)
      else if (Z.pos m mod 2 ^ (- e) =? 0)%Z
      then Some (if s then (- (Z.pos m / 2 ^ (- e)))%Z
                 else (Z.pos m / 2 ^ (- e))%Z)
      else None
  | _ => None
  end.

(** The binary64 number nearest to an integer of magnitude below [2 ^ 63];
    it is the integer itself up to [2 ^ 53]. *)
Definition of_Z (z : Z) : float :=
  if (z <? 0)%Z then (- PrimFloat.of_uint63 (Uint63.of_Z (- z)))%float
  else PrimFloat.of_uint63 (Uint63.of_Z z).

(** [for (let i = i0; test(i); i++) acc = body(i, acc)] on binary64
    numbers, the counter one of them: [i++] is [i + 1], rounded, and leaves
    [2 ^ 53] where it is.  The loop is [None] when the fuel is used up before
    the test fails, so that a result is never the work of the fuel.
    [rounds bound] is two more than the integer part of a positive finite
    [bound], which is enough for a counter that starts at [0] or above and
    reaches the bound; where it does not, on an infinite bound or one beyond
    [2 ^ 53], the loop does not end in the source and is [None] here. *)
Fixpoint for_loop {A : Type} (fuel : nat) (test : float -> bool)
    (body : float -> A -> A) (i : float) (acc : A) : option A :=
  match fuel with
  | O => None
  | S fuel' =>
      if test i then for_loop fuel' test body (i + 1)%float (body i acc)
      else Some acc
  end.

Definition rounds (bound : float) : nat :=
  match Prim2SF bound with
  | S754_finite false m e =>
      S (S (Z.to_nat (if (0 <=? e)%Z then Z.pos m * 2 ^ e
                      else Z.pos m / 2 ^ (- e))))
  | _ => 2%nat
  end.

(** [factorial], lines 556-565. *)
Definition factorial (n : float) : option float :=
  (if n <? 0 then Some 0
   else if (n =? 0) || (n =? 1) then Some 1
   else for_loop (rounds n) (fun i => i <=? n)
          (fun i result => result * i) 2 1)%float.

(** [Math.min]: [NaN] when an operand is, and [-0] below [+0]. *)
Definition Math_min (a b : float) : float :=
  if is_nan a || is_nan b then nan
  else if (a <? b)%float then a
  else if (b <? a)%float then b
  else if get_sign a then a else b.

(** [comb], lines 544-554; [k > n] is [n < k]. *)
Definition comb (n k : float) : option float :=
  (if (k <? 0) || (n <? k) then Some 0
   else if (k =? 0) || (k =? n) then Some 1
   else
     let k := Math_min k (n - k) in
     for_loop (rounds k) (fun i => i <? k)
       (fun i c => c * (n - i) / (i + 1)) 0 1)%float.

(** [x] is a result, and it is the integer [z]. *)
Definition exactly (x : option float) (z : Z) : bool :=
  match x with
  | Some r => match integer r with
              | Some v => (v =? z)%Z
              | None => false
              end
  | None => false
  end.

End Binary64.

(** *** The heap of arrays and the tape of [Math.random]

    An array is a location of the heap; a function that receives an array
    receives the location.  [None] is a computation that cannot go on: a
    location that was never allocated, or a draw from an exhausted tape. *)

Definition loc := nat.

Record state := State { heap : gmap loc (list R); tape : list R }.

Definition JS (A : Type) : Type := state -> option (A * state).

#[global] Instance JS_ret : MRet JS := fun A a s => Some (a, s).

#[global] Instance JS_bind : MBind JS := fun A B f m s =>
  match m s with Some (a, s') => f a s' | None => None end.

#[global] Instance JS_fmap : FMap JS := fun A B f m s =>
  match m s with Some (a, s') => Some (f a, s') | None => None end.

Definition stuck {A : Type} : JS A := fun _ => None.

(** The array literal [[...]]: a new array, at a location not in use. *)
Definition new_array (l : list R) : JS loc := fun s =>
  let a := fresh (dom (heap s)) in
  Some (a, State (<[a := l]> (heap s)) (tape s)).

Definition get_array (a : loc) : JS (list R) := fun s =>
  match heap s !! a with Some l => Some (l, s) | None => None end.

Definition set_array (a : loc) (l : list R) : JS unit := fun s =>
  match heap s !! a with
  | Some _ => Some (tt, State (<[a := l]> (heap s)) (tape s))
  | None => None
  end.

(** [Math.random()]: the next draw of the tape.  The draws of the source
    lie in [[0, 1)]; the tape may hold any numbers. *)
Definition Math_random : JS R := fun s =>
  match tape s with
  | u :: t => Some (u, State (heap s) t)
  | [] => None
  end.

(** [a.length]. *)
Definition array_length (a : loc) : JS nat :=
  l ← get_array a; mret (length l).

(** [a.push(v)]. *)
Definition push (a : loc) (v : R) : JS unit :=
  l ← get_array a; set_array a (l ++ [v]).

(** [a.reduce(f, init)], for a callback [f] without effects. *)
Definition reduce (f : R -> R -> R) (init : R) (a : loc) : JS R :=
  l ← get_array a; mret (fold_left f l init).

(** [[...a]]: a new array with the elements of [a]. *)
Definition spread (a : loc) : JS loc :=
  l ← get_array a; new_array l.

(** [l[i]] for a number [i]: [undefined] unless [i] is a non-negative
    integer below the length. *)
Definition elem (l : list R) (i : R) : option R :=
  if decide (0 <= i /\ Math_floor i = i) then l !! Z.to_nat (Zfloor i)
  else None.

(** [a[i]]. *)
Definition read (a : loc) (i : R) : JS (option R) :=
  l ← get_array a; mret (elem l i).

(** [a.sort(cmp)] orders the array in place and returns it.  The order is
    the one of a stable sort: [x] goes behind [y] when [cmp(x, y) > 0]. *)
Fixpoint insert_by (cmp : R -> R -> R) (x : R) (l : list R) : list R :=
  match l with
  | [] => [x]
  | y :: l' => if decide (cmp x y > 0) then y :: insert_by cmp x l' else x :: l
  end.

Fixpoint sort_by (cmp : R -> R -> R) (l : list R) : list R :=
  match l with
  | [] => []
  | x :: l' => insert_by cmp x (sort_by cmp l')
  end.

Definition sort (cmp : R -> R -> R) (a : loc) : JS loc :=
  l ← get_array a; _ ← set_array a (sort_by cmp l); mret a.

(** Loops with effects.  [for_loopM] is [for_loop] with a body in [JS].
    [while] runs [body] as long as [test] holds; every [while] of the source
    draws from [Math.random] once a round, so with one round more than the
    tape has draws the loop is stuck on the tape before it is on the fuel
    (lemma [while_loop_fuel]). *)
Fixpoint for_loopM {A : Type} (fuel : nat) (test : Z -> bool)
    (body : Z -> A -> JS A) (i : Z) (acc : A) : JS A :=
  match fuel with
  | O => mret acc
  | S fuel' =>
      if test i
      then acc' ← body i acc; for_loopM fuel' test body (i + 1) acc'
      else mret acc
  end.

Fixpoint while_loop {A : Type} (fuel : nat) (test : A -> bool)
    (body : A -> JS A) (a : A) : JS A :=
  match fuel with
  | O => stuck
  | S fuel' =>
      if test a then a' ← body a; while_loop fuel' test body a' else mret a
  end.

Definition while {A : Type} (test : A -> bool) (body : A -> JS A) (a : A)
    : JS A :=
  fun s => while_loop (S (length (tape s))) test body a s.

(** *** Descriptive statistics ([src/server.js], lines 496-521) *)

Record stats := Stats {
  mean : R;
  median : option R;
  variance : R;
  stdDev : R;
  min : option R;
  max : option R;
  q1 : option R;
  q3 : option R;
  count : nat
}.

Definition calculateStats (data : loc) : JS stats :=
  n ← array_length data;
  sum ← reduce (fun a b => a + b) 0 data;
  let mean := sum / INR n in
  copy ← spread data;
  sortedData ← sort (fun a b => a - b) copy;
  median ←
    (if decide (Z.rem (Z.of_nat n) 2 = 0%Z)
     then lo ← read sortedData (INR n / 2 - 1);
          hi ← read sortedData (INR n / 2);
          mret (u ← lo; v ← hi; Some ((u + v) / 2))
     else read sortedData (Math_floor (INR n / 2)));
  squares ← reduce (fun a b => a + Math_pow (b - mean) 2) 0 data;
  let variance := squares / INR n in
  let stdDev := sqrt variance in
  min ← read sortedData 0;
  max ← read sortedData (INR n - 1);
  q1 ← read sortedData (Math_floor (INR n * 0.25));
  q3 ← read sortedData (Math_floor (INR n * 0.75));
  mret (Stats mean median variance stdDev min max q1 q3 n).

(** The record [calculateStats] returns, as a function of the elements [l]
    of its argument: the array operations of the body are replaced by what
    they compute on [l] (lemma [calculateStats_run]). *)
Definition summary (l : list R) : stats :=
  let n := length l in
  let mean := fold_left (fun a b => a + b) l 0 / INR n in
  let sortedData := sort_by (fun a b => a - b) l in
  let median :=
    if decide (Z.rem (Z.of_nat n) 2 = 0%Z)
    then u ← elem sortedData (INR n / 2 - 1);
         v ← elem sortedData (INR n / 2);
         Some ((u + v) / 2)
    else elem sortedData (Math_floor (INR n / 2)) in
  let variance :=
    fold_left (fun a b => a + Math_pow (b - mean) 2) l 0 / INR n in
  Stats mean median variance (sqrt variance)
    (elem sortedData 0) (elem sortedData (INR n - 1))
    (elem sortedData (Math_floor (INR n * 0.25)))
    (elem sortedData (Math_floor (INR n * 0.75))) n.

(** *** The samplers ([src/server.js], lines 350-457)

    Each sampler fills a new array and returns it. *)

Definition generateNormal (mu sigma count : R) : JS loc :=
  data ← new_array [];
  _ ← for_loopM (rounds count) (fun i => bool_decide (IZR i < count))
        (fun i _ =>
           u1 ← while (fun u1 => bool_decide (u1 = 0)) (fun _ => Math_random) 0;
           u2 ← while (fun u2 => bool_decide (u2 = 0)) (fun _ => Math_random) 0;
           let z1 := sqrt (-2.0 * ln u1) * cos (2.0 * PI * u2) in
           push data (z1 * sigma + mu))
        0 tt;
  mret data.

Definition generateUniform (a b count : R) : JS loc :=
  data ← new_array [];
  _ ← for_loopM (rounds count) (fun i => bool_decide (IZR i < count))
        (fun i _ => u ← Math_random; push data (a + u * (b - a)))
        0 tt;
  mret data.

Definition generateBinomial (n p count : R) : JS loc :=
  data ← new_array [];
  _ ← for_loopM (rounds count) (fun i => bool_decide (IZR i < count))
        (fun i _ =>
           successes ←
             for_loopM (rounds n) (fun j => bool_decide (IZR j < n))
               (fun j successes =>
                  u ← Math_random;
                  mret (if decide (u < p) then (successes + 1)%Z
                        else successes))
               0 0%Z;
           push data (IZR successes))
        0 tt;
  mret data.

Definition generatePoisson (lambda count : R) : JS loc :=
  data ← new_array [];
  _ ← for_loopM (rounds count) (fun i => bool_decide (IZR i < count))
        (fun i _ =>
           let l := exp (- lambda) in
           kp ← while (fun kp : Z * R => bool_decide (kp.2 > l))
                  (fun kp => u ← Math_random; mret ((kp.1 + 1)%Z, kp.2 * u))
                  (0%Z, 1);
           push data (IZR (kp.1 - 1)))
        0 tt;
  mret data.

Definition generateExponential (lambda count : R) : JS loc :=
  data ← new_array [];
  _ ← for_loopM (rounds count) (fun i => bool_decide (IZR i < count))
        (fun i _ => u ← Math_random; push data (- ln (1 - u) / lambda))
        0 tt;
  mret data.

(** *** The Poisson sampler in binary64 ([src/server.js], lines 425-438)

    The sampler on the numbers the source computes with: arrays and draws
    are binary64 numbers, the threshold is what [Math.exp], a parameter,
    returns, and the running product is rounded at every step.  The count is
    only compared with the integer counter of the loop, which is exact, and
    is given by its real value.  The monad is the one of [JS], on a heap and
    a tape of binary64 numbers. *)

Module Binary64Arrays.

Record state := State { heap : gmap loc (list float); tape : list float }.

Definition JS (A : Type) : Type := state -> option (A * state).

Definition ret {A : Type} (a : A) : JS A := fun s => Some (a, s).

Definition bind {A B : Type} (m : JS A) (f : A -> JS B) : JS B := fun s =>
  match m s with Some (a, s') => f a s' | None => None end.

Definition new_array (l : list float) : JS loc := fun s =>
  let a := fresh (dom (heap s)) in
  Some (a, State (<[a := l]> (heap s)) (tape s)).

Definition push (a : loc) (v : float) : JS unit := fun s =>
  match heap s !! a with
  | Some l => Some (tt, State (<[a := (l ++ [v])%list]> (heap s)) (tape s))
  | None => None
  end.

Definition Math_random : JS float := fun s =>
  match tape s with
  | u :: t => Some (u, State (heap s) t)
  | [] => None
  end.

Fixpoint for_loopM {A : Type} (fuel : nat) (test : Z -> bool)
    (body : Z -> A -> JS A) (i : Z) (acc : A) : JS A :=
  match fuel with
  | O => ret acc
  | S fuel' =>
      if test i
      then bind (body i acc) (for_loopM fuel' test body (i + 1))
      else ret acc
  end.

Fixpoint while_loop {A : Type} (fuel : nat) (test : A -> bool)
    (body : A -> JS A) (a : A) : JS A :=
  match fuel with
  | O => fun _ => None
  | S fuel' =>
      if test a then bind (body a) (while_loop fuel' test body) else ret a
  end.

Definition while {A : Type} (test : A -> bool) (body : A -> JS A) (a : A)
    : JS A :=
  fun s => while_loop (S (length (tape s))) test body a s.

(** [p > l] is [l < p]; [k] is a counter and [k - 1] the number pushed. *)
Definition generatePoisson (Math_exp : float -> float) (lambda : float)
    (count : R) : JS loc :=
  bind (new_array []) (fun data =>
  bind (for_loopM (rounds count) (fun i => bool_decide (IZR i < count))
          (fun i _ =>
             let l := Math_exp (- lambda)%float in
             bind (while (fun kp : Z * float => (l <? kp.2)%float)
                     (fun kp =>
                        bind Math_random (fun u =>
                        ret ((kp.1 + 1)%Z, (kp.2 * u)%float)))
                     (0%Z, 1%float))
               (fun kp => push data (Binary64.of_Z (kp.1 - 1))))
          0 tt)
       (fun _ => ret data)).

(** The draws [us] take the running product [p] to the threshold [l] and no
    further: the product exceeds [l] before each draw and no longer does
    after the last. *)
Fixpoint crosses (l p : float) (us : list float) : Prop :=
  match us with
  | [] => (l <? p)%float = false
  | u :: us' => (l <? p)%float = true /\ crosses l (p * u)%float us'
  end.

End Binary64Arrays.

(** *** The catalogue and the two handlers ([src/server.js], lines 105-309,
    466-494)

    A request body is a JSON object; its fields are modelled when they are
    absent ([None]) or numbers, and the [parameters] object, whose keys are
    strings, is a [gmap].  A handler answers with a status and an error
    message ([res.status(s).json({ error })]) or with a payload
    ([res.json(...)]). *)

Module Descriptor.
Record t := Make {
  name : string;
  displayName : string;
  description : string;
  parameters : list string;
  constraints : list (string * string)
}.
End Descriptor.

Definition availableDistributions : list Descriptor.t :=
  [ Descriptor.Make "normal" "Normal Distribution"
      "Gaussian distribution characterized by mean and standard deviation"
      ["mu"; "sigma"] [("mu", "any"); ("sigma", ">0")];
    Descriptor.Make "uniform" "Uniform Distribution"
      "Constant probability over a specified range"
      ["a"; "b"] [("a", "any"); ("b", ">a")];
    Descriptor.Make "binomial" "Binomial Distribution"
      "Discrete probability of successes in a fixed number of trials"
      ["n"; "p"] [("n", "integer>0"); ("p", "0<=p<=1")];
    Descriptor.Make "poisson" "Poisson Distribution"
      "Discrete probability of a given number of events occurring"
      ["lambda"] [("lambda", ">0")];
    Descriptor.Make "exponential" "Exponential Distribution"
      "Continuous probability describing the time between events"
      ["lambda"] [("lambda", ">0")];
    Descriptor.Make "gamma" "Gamma Distribution"
      "Two-parameter family of continuous probability distributions"
      ["shape"; "rate"] [("shape", ">0"); ("rate", ">0")] ].

Definition validateParameters (distribution : Descriptor.t)
    (parameters : gmap string R) : bool :=
  if negb (forallb (fun param => bool_decide (is_Some (parameters !! param)))
             (Descriptor.parameters distribution))
  then false
  else
    let name := Descriptor.name distribution in
    if decide (name = "normal") then num_gt (parameters !! "sigma") (Some 0)
    else if decide (name = "uniform")
    then num_gt (parameters !! "b") (parameters !! "a")
    else if decide (name = "binomial")
    then from_option Number_isInteger false (parameters !! "n")
         && num_gt (parameters !! "n") (Some 0)
         && num_ge (parameters !! "p") (Some 0)
         && num_le (parameters !! "p") (Some 1)
    else if decide (name = "poisson" \/ name = "exponential")
    then num_gt (parameters !! "lambda") (Some 0)
    else if decide (name = "gamma")
    then num_gt (parameters !! "shape") (Some 0)
         && num_gt (parameters !! "rate") (Some 0)
    else true.

Inductive response (A : Type) : Type :=
  | Error (status : nat) (error : string)
  | Json (body : A).

Arguments Error {A} status error.
Arguments Json {A} body.

#[global] Instance R_inhabited : Inhabited R := populate 0.

(** [POST /api/distributions/:name/calculate].  After [validateParameters]
    the keys the switch reads are present (lemma [validateParameters_keys]),
    so the reads [parameters.mu], ... are total lookups. *)

Module Calculation.
Record t := Make {
  distribution : string;
  parameters : gmap string R;
  x : R;
  type : string;
  result : R
}.
End Calculation.

Definition post_calculate (name : string) (parameters : option (gmap string R))
    (x : option R) (type : option string) : response Calculation.t :=
  let type := default "pdf" type in
  match parameters, x with
  | Some parameters, Some x =>
      match find (fun d => bool_decide (Descriptor.name d = name))
              availableDistributions with
      | None => Error 404 "Distribution not found"
      | Some distribution =>
          if negb (validateParameters distribution parameters)
          then Error 400 "Invalid parameters"
          else
            let result : response R :=
              if decide (name = "normal") then
                if decide (type = "pdf")
                then Json (normalPDF x (parameters !!! "mu")
                             (parameters !!! "sigma"))
                else if decide (type = "cdf")
                then Json (normalCDF x (parameters !!! "mu")
                             (parameters !!! "sigma"))
                else Error 400 "Invalid calculation type"
              else if decide (name = "uniform") then
                if decide (type = "pdf")
                then Json (uniformPDF x (parameters !!! "a")
                             (parameters !!! "b"))
                else if decide (type = "cdf")
                then Json (uniformCDF x (parameters !!! "a")
                             (parameters !!! "b"))
                else Error 400 "Invalid calculation type"
              else if decide (name = "binomial") then
                if decide (type = "pmf")
                then Json (binomialPMF x (parameters !!! "n")
                             (parameters !!! "p"))
                else if decide (type = "cdf")
                then Json (binomialCDF x (parameters !!! "n")
                             (parameters !!! "p"))
                else Error 400 "Invalid calculation type"
              else if decide (name = "poisson") then
                if decide (type = "pmf")
                then Json (poissonPMF x (parameters !!! "lambda"))
                else if decide (type = "cdf")
                then Json (poissonCDF x (parameters !!! "lambda"))
                else Error 400 "Invalid calculation type"
              else if decide (name = "exponential") then
                if decide (type = "pdf")
                then Json (exponentialPDF x (parameters !!! "lambda"))
                else if decide (type = "cdf")
                then Json (exponentialCDF x (parameters !!! "lambda"))
                else Error 400 "Invalid calculation type"
              else if decide (name = "gamma") then
                if decide (type = "pdf")
                then Json (gammaPDF x (parameters !!! "shape")
                             (parameters !!! "rate"))
                else Error 400
                       "Only PDF calculation available for gamma distribution"
              else Error 400
                     "Calculation not implemented for this distribution" in
            match result with
            | Error status error => Error status error
            | Json result =>
                Json (Calculation.Make name parameters x type result)
            end
      end
  | _, _ => Error 400 "Missing parameters or x value"
  end.

(** [POST /api/distributions/:name/generate]. *)

Module Generation.
Record t := Make {
  distribution : string;
  parameters : gmap string R;
  count : R;
  data : list R;
  stats : stats
}.
End Generation.

Definition post_generate (name : string) (parameters : option (gmap string R))
    (count : option R) : JS (response Generation.t) :=
  let count := default 1000 count in
  match parameters with
  | Some parameters =>
      if decide (count <= 0)
      then mret (Error 400 "Missing parameters or invalid count")
      else
        match find (fun d => bool_decide (Descriptor.name d = name))
                availableDistributions with
        | None => mret (Error 404 "Distribution not found")
        | Some distribution =>
            if negb (validateParameters distribution parameters)
            then mret (Error 400 "Invalid parameters")
            else
              data ←
                (if decide (name = "normal")
                 then Some <$> generateNormal (parameters !!! "mu")
                                 (parameters !!! "sigma") count
                 else if decide (name = "uniform")
                 then Some <$> generateUniform (parameters !!! "a")
                                 (parameters !!! "b") count
                 else if decide (name = "binomial")
                 then Some <$> generateBinomial (parameters !!! "n")
                                 (parameters !!! "p") count
                 else if decide (name = "poisson")
                 then Some <$> generatePoisson (parameters !!! "lambda") count
                 else if decide (name = "exponential")
                 then Some <$> generateExponential (parameters !!! "lambda")
                                 count
                 else mret None);
              match data with
              | None =>
                  mret (Error 400
                          "Generation not implemented for this distribution")
              | Some data =>
                  stats ← calculateStats data;
                  elements ← get_array data;
                  mret (Json (Generation.Make name parameters count elements
                                stats))
              end
        end
  | None => mret (Error 400 "Missing parameters or invalid count")
  end.

(** [POST /api/stats/describe] ([src/server.js], lines 311-333).  The [data]
    field of the body is modelled when it is absent or not an array ([None])
    and when it is an array of numbers, which the body parser has allocated
    before the handler runs. *)

Module Description.
Record t := Make {
  dataLength : nat;
  statistics : stats
}.
End Description.

Definition post_describe (data : option loc) : JS (response Description.t) :=
  match data with
  | None => mret (Error 400 "Invalid or empty dataset")
  | Some data =>
      n ← array_length data;
      if decide (n = 0%nat)
      then mret (Error 400 "Invalid or empty dataset")
      else
        stats ← calculateStats data;
        n ← array_length data;
        mret (Json (Description.Make n stats))
  end.

(** *** Confidence intervals of the client components

    [src/client/components/PairedMeanCI.tsx] ([handleCalculate]) and the
    [TwoSampleCIComponent] of [src/client/components/AIDataGenerator.tsx]
    ([calculate]).  Both are modelled from the parsed inputs on: the samples
    are the arrays [parseData] returns, and a variance is the number
    [parseFloat] returns, [None] when it is [NaN].  A run ends with
    [setError(message)] or with [setResult(result)]. *)

Inductive bound : Type :=
  | NegInfinity
  | Finite (r : R)
  | Infinity.

Inductive ConfidenceIntervalType : Type :=
  | TwoSided          (* 'two-sided' *)
  | OneSidedLower     (* 'one-sided-lower' *)
  | OneSidedUpper.    (* 'one-sided-upper' *)

Inductive Method : Type :=
  | Pooled            (* 'pooled' *)
  | Welch             (* 'welch' *)
  | Paired.           (* 'paired' *)

Inductive outcome (A : Type) : Type :=
  | Failure (message : string)
  | Success (result : A).

Arguments Failure {A} message.
Arguments Success {A} result.

#[global] Instance ConfidenceIntervalType_eq_dec :
  EqDecision ConfidenceIntervalType.
Proof. solve_decision. Defined.

#[global] Instance Method_eq_dec : EqDecision Method.
Proof. solve_decision. Defined.

(** The object both components build, and the one
    [calculateTwoSampleConfidenceInterval] returns. *)
Module Interval.
Record t := Make {
  lower : bound;
  upper : bound;
  marginOfError : R;
  method : string;
  criticalValue : R;
  meanDiff : R
}.
End Interval.

Module PairedMeanCI.
Record result := Result {
  interval : Interval.t;
  intervalType : ConfidenceIntervalType
}.
End PairedMeanCI.

Module TwoSampleCI.
Record result := Result {
  interval : Interval.t;
  mean1 : R;
  mean2 : R;
  n1 : nat;
  n2 : nat;
  intervalType : ConfidenceIntervalType
}.
End TwoSampleCI.

Section ConfidenceIntervals.

(** The two functions imported from [../utils/statistics], which is not
    among the sources: they are parameters of the components. *)
Variable getZCriticalValue : R -> R.
Variable calculateTwoSampleConfidenceInterval :
  list R -> list R -> R -> Method -> ConfidenceIntervalType ->
  outcome Interval.t.

(** [xs.reduce((sum, val) => sum + val, 0) / xs.length]. *)
Definition average (xs : list R) : R :=
  fold_left (fun sum val => sum + val) xs 0 / INR (length xs).

(** [xs.map((x, i) => x - ys[i])]; both callers have checked that the
    lengths agree, so that [ys[i]] is defined. *)
Definition pairwise_differences (xs ys : list R) : list R :=
  imap (fun i x => x - ys !!! i) xs.

(** [handleCalculate] of [PairedMeanCI], lines 37-114. *)
Definition handleCalculate (before after : list R) (confidence : R)
    (intervalType : ConfidenceIntervalType) (knownVariance : bool)
    (populationVariance : option R) : outcome PairedMeanCI.result :=
  if decide (length before = 0%nat \/ length after = 0%nat)
  then Failure "Data cannot be empty"
  else if decide (length before <> length after)
  then Failure "Before and after datasets must have the same length"
  else if knownVariance then
    match populationVariance with
    | None => Failure "Population variance must be a positive number"
    | Some variance =>
        if decide (variance <= 0)
        then Failure "Population variance must be a positive number"
        else
          let differences := pairwise_differences before after in
          let meanDiff := average differences in
          let standardError :=
            sqrt variance / sqrt (INR (length differences)) in
          let criticalValue :=
            if decide (intervalType = TwoSided)
            then getZCriticalValue confidence
            else getZCriticalValue (2 * confidence - 1) in
          let marginOfError := criticalValue * standardError in
          let '(lower, upper) :=
            if decide (intervalType = TwoSided)
            then (Finite (meanDiff - marginOfError),
                  Finite (meanDiff + marginOfError))
            else if decide (intervalType = OneSidedLower)
            then (NegInfinity, Finite (meanDiff + marginOfError))
            else (Finite (meanDiff - marginOfError), Infinity) in
          Success
            (PairedMeanCI.Result
               (Interval.Make lower upper marginOfError
                  "配对样本Z检验（方差已知）" criticalValue meanDiff)
               intervalType)
    end
  else
    match calculateTwoSampleConfidenceInterval before after confidence Paired
            intervalType with
    | Failure message => Failure message
    | Success ciResult => Success (PairedMeanCI.Result ciResult intervalType)
    end.

(** [calculate] of [TwoSampleCIComponent], lines 668-803. *)
Definition calculate (dataset1 dataset2 : list R) (confidenceLevel : R)
    (method : Method) (intervalType : ConfidenceIntervalType)
    (knownVariance : bool) (populationVariance1 populationVariance2 : option R)
    : outcome TwoSampleCI.result :=
  if decide (length dataset1 = 0%nat \/ length dataset2 = 0%nat)
  then Failure "Dataset cannot be empty"
  else if decide (method = Paired /\ length dataset1 <> length dataset2)
  then Failure "Paired samples must have the same length"
  else if knownVariance then
    match populationVariance1 with
    | None =>
        Failure "Population variance for dataset 1 must be a positive number"
    | Some var1 =>
        if decide (var1 <= 0)
        then Failure
               "Population variance for dataset 1 must be a positive number"
        else
          match populationVariance2 with
          | None =>
              Failure
                "Population variance for dataset 2 must be a positive number"
          | Some var2 =>
              if decide (var2 <= 0)
              then Failure
                "Population variance for dataset 2 must be a positive number"
              else if decide (method = Paired) then
                let differences := pairwise_differences dataset1 dataset2 in
                let meanDiff := average differences in
                let varDiff := var1 + var2 in
                let standardError :=
                  sqrt (varDiff / INR (length differences)) in
                let zCritical :=
                  if decide (intervalType = TwoSided)
                  then getZCriticalValue confidenceLevel
                  else getZCriticalValue (2 * confidenceLevel - 1) in
                let marginOfError := zCritical * standardError in
                let '(lower, upper) :=
                  match intervalType with
                  | TwoSided =>
                      (Finite (meanDiff - marginOfError),
                       Finite (meanDiff + marginOfError))
                  | OneSidedLower =>
                      (Finite (meanDiff - marginOfError), Infinity)
                  | OneSidedUpper =>
                      (NegInfinity, Finite (meanDiff + marginOfError))
                  end in
                let mean1 := average dataset1 in
                let mean2 := average dataset2 in
                Success
                  (TwoSampleCI.Result
                     (Interval.Make lower upper marginOfError
                        "Paired Samples Z-test (Known Variance)" zCritical
                        meanDiff)
                     mean1 mean2 (length dataset1) (length dataset2)
                     intervalType)
              else
                let mean1 := average dataset1 in
                let mean2 := average dataset2 in
                let meanDiff := mean1 - mean2 in
                let standardError :=
                  sqrt (var1 / INR (length dataset1)
                        + var2 / INR (length dataset2)) in
                let zCritical :=
                  if decide (intervalType = TwoSided)
                  then getZCriticalValue confidenceLevel
                  else getZCriticalValue (2 * confidenceLevel - 1) in
                let marginOfError := zCritical * standardError in
                let '(lower, upper) :=
                  match intervalType with
                  | TwoSided =>
                      (Finite (meanDiff - marginOfError),
                       Finite (meanDiff + marginOfError))
                  | OneSidedLower =>
                      (Finite (meanDiff - marginOfError), Infinity)
                  | OneSidedUpper =>
                      (NegInfinity, Finite (meanDiff + marginOfError))
                  end in
                Success
                  (TwoSampleCI.Result
                     (Interval.Make lower upper marginOfError
                        ("Two Sample Z-test ("
                         +:+ (if decide (method = Pooled) then "Pooled"
                              else "Welch")
                         +:+ ") with Known Variance")
                        zCritical meanDiff)
                     mean1 mean2 (length dataset1) (length dataset2)
                     intervalType)
          end
    end
  else
    match calculateTwoSampleConfidenceInterval dataset1 dataset2
            confidenceLevel method intervalType with
    | Failure message => Failure message
    | Success ciResult =>
        let mean1 := average dataset1 in
        let mean2 := average dataset2 in
        Success
          (TwoSampleCI.Result ciResult mean1 mean2 (length dataset1)
             (length dataset2) intervalType)
    end.

End ConfidenceIntervals.

(** *** Reference definitions

    What the statements of Parts II and III compare the code with. *)

(** The product [2 * 3 * ... * n] of the integers from [2] to [n]. *)
Definition product_from_2 (n : Z) : Z := foldr Z.mul 1%Z (seqZ 2 (n - 1)).

(** The binomial coefficient [n! / (k! (n - k)!)], on integers. *)
Definition binomial_coefficient (n k : Z) : Z :=
  (product_from_2 n / (product_from_2 k * product_from_2 (n - k)))%Z.

(** The sum of a sample, its mean, and its population variance: the sum of
    the squared deviations from the mean, divided by the size. *)
Definition total (xs : list R) : R := foldr Rplus 0 xs.

Definition sample_mean (xs : list R) : R := total xs / INR (length xs).

Definition population_variance (xs : list R) : R :=
  total ((fun x => (x - sample_mean xs) * (x - sample_mean xs)) <$> xs)
  / INR (length xs).

(** The order statistics of a sample: its elements in increasing order. *)
Definition order_statistics (xs : list R) : list R := merge_sort Rle xs.

(** The median: the average of the two central order statistics of a sample
    of even size, the central one of a sample of odd size. *)
Definition sample_median (xs : list R) : option R :=
  let n := length xs in
  if Nat.even n
  then u ← order_statistics xs !! (n / 2 - 1)%nat;
       v ← order_statistics xs !! (n / 2)%nat;
       Some ((u + v) / 2)
  else order_statistics xs !! ((n - 1) / 2)%nat.

(** The nearest-rank quartiles: the order statistics of rank [floor (n / 4)]
    and [floor (3 n / 4)], counted from [0]. *)
Definition first_quartile (xs : list R) : option R :=
  order_statistics xs !! (length xs / 4)%nat.

Definition third_quartile (xs : list R) : option R :=
  order_statistics xs !! (3 * length xs / 4)%nat.

(** The evaluation types each distribution supports, and the distributions
    that have a sampler (the table of the distribution library). *)
Definition evaluations : list (string * string) :=
  [ ("normal", "pdf"); ("normal", "cdf");
    ("uniform", "pdf"); ("uniform", "cdf");
    ("binomial", "pmf"); ("binomial", "cdf");
    ("poisson", "pmf"); ("poisson", "cdf");
    ("exponential", "pdf"); ("exponential", "cdf");
    ("gamma", "pdf") ].

Definition samplers : list string :=
  [ "normal"; "uniform"; "binomial"; "poisson"; "exponential" ].

(** The confidence level at which the critical value of an interval is
    looked up: the level itself for a two-sided interval, [2 c - 1] for a
    one-sided interval of level [c]. *)
Definition critical_level (intervalType : ConfidenceIntervalType)
    (confidence : R) : R :=
  match intervalType with
  | TwoSided => confidence
  | OneSidedLower | OneSidedUpper => 2 * confidence - 1
  end.

(** What a constraint of the catalogue asks of the value [v] of a parameter,
    the other parameters being [parameters]; a descriptor's constraints are
    met when each constrained parameter is present and meets its own. *)
Definition meets (parameters : gmap string R) (constraint : string) (v : R)
    : Prop :=
  if decide (constraint = "any") then True
  else if decide (constraint = ">0") then v > 0
  else if decide (constraint = ">a")
  then exists a : R, parameters !! "a" = Some a /\ v > a
  else if decide (constraint = "integer>0")
  then (exists k : Z, v = IZR k) /\ v > 0
  else if decide (constraint = "0<=p<=1") then 0 <= v <= 1
  else False.

Definition admissible (d : Descriptor.t) (parameters : gmap string R) : Prop :=
  Forall (fun kc : string * string =>
            exists v : R, parameters !! kc.1 = Some v
                          /\ meets parameters kc.2 v)
    (Descriptor.constraints d).

(** The number of the [draws] that count as a success of probability [p]. *)
Definition successes (p : R) (draws : list R) : Z :=
  Z.of_nat (length (filter (fun u => u < p) draws)).

(** The Box-Muller value of two draws, and the draws one value takes from
    the tape when [z1] zeros come before the first draw used, [u1], and [z2]
    zeros before the second, [u2]. *)
Definition box_muller (mu sigma : R) (d : nat * R * nat * R) : R :=
  let '(_, u1, _, u2) := d in
  sqrt (-2.0 * ln u1) * cos (2.0 * PI * u2) * sigma + mu.

Definition box_muller_draws (d : nat * R * nat * R) : list R :=
  let '(z1, u1, z2, u2) := d in
  (replicate z1 0 ++ u1 :: replicate z2 0 ++ [u2])%list.

(** ** Part II: properties *)

(** *** Counting loops as folds over an integer range *)

(** A loop whose test holds on [i, i + cnt) and fails at [i + cnt] (or whose
    fuel is exactly [cnt]) folds its body over that range. *)
Lemma for_loop_seqZ {A : Type} (test : Z -> bool) (body : Z -> A -> A)
    (cnt : nat) :
  forall (fuel : nat) (i : Z) (acc : A),
    (forall j : Z, (i <= j < i + Z.of_nat cnt)%Z -> test j = true) ->
    test (i + Z.of_nat cnt)%Z = false \/ fuel = cnt ->
    (cnt <= fuel)%nat ->
    for_loop fuel test body i acc
    = fold_left (fun a j => body j a) (seqZ i (Z.of_nat cnt)) acc.
Proof.
  induction cnt as [|cnt IH]; intros fuel i acc Hin Hout Hfuel.
  - rewrite seqZ_nil by lia. simpl.
    destruct fuel as [|fuel]; [reflexivity|]. simpl.
    destruct Hout as [Hout|Hout]; [|discriminate].
    replace (i + Z.of_nat 0)%Z with i in Hout by lia.
    now rewrite Hout.
  - destruct fuel as [|fuel]; [lia|].
    rewrite seqZ_cons by lia. simpl.
    rewrite Hin by lia.
    replace (Z.pred (Z.of_nat (S cnt))) with (Z.of_nat cnt) by lia.
    replace (Z.succ i) with (i + 1)%Z by lia.
    apply IH.
    + intros j Hj. apply Hin. lia.
    + destruct Hout as [Hout|Hout]; [left|right; lia].
      now replace (i + 1 + Z.of_nat cnt)%Z with (i + Z.of_nat (S cnt))%Z by lia.
    + lia.
Qed.

Lemma rounds_IZR (n : Z) : rounds (IZR n) = S (Z.to_nat n).
Proof. unfold rounds. now rewrite ZfloorZ. Qed.

Lemma rounds_INR (n : nat) : rounds (INR n) = S n.
Proof. rewrite INR_IZR_INZ, rounds_IZR. f_equal. lia. Qed.

(** The loop [for (i = i0; i <= n; i++)] on an integer bound. *)
Lemma for_loop_le {A : Type} (body : Z -> A -> A) (i0 n : Z) (acc : A) :
  (0 <= i0)%Z -> (i0 <= n + 1)%Z ->
  for_loop (rounds (IZR n)) (fun i => bool_decide (IZR i <= IZR n)) body i0 acc
  = fold_left (fun a j => body j a) (seqZ i0 (n + 1 - i0)) acc.
Proof.
  intros H0 Hn. rewrite rounds_IZR.
  replace (n + 1 - i0)%Z with (Z.of_nat (Z.to_nat (n + 1 - i0))) by lia.
  apply for_loop_seqZ.
  - intros j Hj. apply bool_decide_eq_true_2, IZR_le. lia.
  - left. apply bool_decide_eq_false_2. intros H. apply le_IZR in H. lia.
  - lia.
Qed.

(** The loop [for (i = 0; i < n; i++)] on an integer bound. *)
Lemma for_loop_lt {A : Type} (body : Z -> A -> A) (n : nat) (acc : A) :
  for_loop (rounds (INR n)) (fun i => bool_decide (IZR i < INR n)) body 0 acc
  = fold_left (fun a j => body j a) (seqZ 0 (Z.of_nat n)) acc.
Proof.
  rewrite rounds_INR. apply for_loop_seqZ.
  - intros j Hj. apply bool_decide_eq_true_2.
    rewrite INR_IZR_INZ. apply IZR_lt. lia.
  - left. apply bool_decide_eq_false_2. rewrite INR_IZR_INZ.
    intros H. apply lt_IZR in H. lia.
  - lia.
Qed.

(** *** [factorial] and [comb]: exact as far as binary64 goes

    Both loops multiply binary64 numbers.  A product is exact while it is an
    integer below [2 ^ 53] times a power of two; from [23!] on, and from
    [comb 55 26] on, it is rounded.  The two ranges are finite and are
    checked by evaluation. *)

Lemma exactly_spec (x : option float) (z : Z) :
  Binary64.exactly x z = true ->
  exists r : float, x = Some r /\ Binary64.integer r = Some z.
Proof.
  unfold Binary64.exactly. destruct x as [r|]; [|discriminate].
  destruct (Binary64.integer r) as [v|] eqn:Hr; [|discriminate].
  intros H. apply Z.eqb_eq in H as ->. now exists r.
Qed.

Lemma forallb_seqZ (f : Z -> bool) (lo len : Z) :
  forallb f (seqZ lo len) = true ->
  forall n : Z, (lo <= n < lo + len)%Z -> f n = true.
Proof.
  intros H n Hn. rewrite forallb_forall in H. apply H.
  apply list_elem_of_In. apply elem_of_seqZ. lia.
Qed.

Lemma of_Z_exact (n : Z) :
  (0 <= n <= 54)%Z -> Binary64.integer (Binary64.of_Z n) = Some n.
Proof.
  intros Hn.
  assert (Hn' : (0 <= n < 0 + 55)%Z) by lia.
  destruct (exactly_spec (Some (Binary64.of_Z n)) n) as (r & [= <-] & Hr);
    [|exact Hr].
  refine (forallb_seqZ
            (fun n => Binary64.exactly (Some (Binary64.of_Z n)) n) 0 55 _ n
            Hn').
  vm_compute. reflexivity.
Qed.

Lemma factorial_exact (n : Z) :
  (0 <= n <= 22)%Z ->
  exists r : float,
    Binary64.factorial (Binary64.of_Z n) = Some r
    /\ Binary64.integer r = Some (product_from_2 n).
Proof.
  intros Hn. apply exactly_spec.
  assert (Hn' : (0 <= n < 0 + 23)%Z) by lia.
  refine (forallb_seqZ
            (fun n => Binary64.exactly
                        (Binary64.factorial (Binary64.of_Z n))
                        (product_from_2 n)) 0 23 _ n Hn').
  vm_compute. reflexivity.
Qed.

Lemma factorial_negative (n : float) :
  (n <? 0)%float = true -> Binary64.factorial n = Some 0%float.
Proof. intros Hn. unfold Binary64.factorial. now rewrite Hn. Qed.

(** C7, as amended.  In binary64 [factorial n] is [1] at [0] and at [1],
    the product [2 * 3 * ... * n], exactly, at every integer [n] from [2] to
    [22], and the sentinel [0] at every negative [n], in particular at
    [-1]. *)
Theorem factorial_exact_to_22 :
  Binary64.factorial 0 = Some 1%float
  /\ Binary64.factorial 1 = Some 1%float
  /\ (forall n : Z,
        (2 <= n <= 22)%Z ->
        Binary64.integer (Binary64.of_Z n) = Some n
        /\ exists r : float,
             Binary64.factorial (Binary64.of_Z n) = Some r
             /\ Binary64.integer r = Some (product_from_2 n))
  /\ (forall n : float,
        (n <? 0)%float = true -> Binary64.factorial n = Some 0%float)
  /\ Binary64.factorial (-1) = Some 0%float.
Proof.
  split; [reflexivity|]. split; [reflexivity|].
  split; [intros n Hn; split; [apply of_Z_exact | apply factorial_exact]; lia|].
  split; [exact factorial_negative | reflexivity].
Qed.

(** C7, as stated, fails at [n = 23]: the product the code returns is
    [25852016738884978212864], and [23!] is [25852016738884976640000], which
    is no binary64 number. *)
Lemma factorial_23_not_the_product :
  ~ (forall n : Z,
        (2 <= n)%Z ->
        exists r : float,
          Binary64.factorial (Binary64.of_Z n) = Some r
          /\ Binary64.integer r = Some (product_from_2 n)).
Proof.
  intros H. destruct (H 23%Z ltac:(lia)) as (r & Hr & Hproduct).
  vm_compute in Hr. injection Hr as <-.
  vm_compute in Hproduct. discriminate.
Qed.

Lemma comb_exact (n k : Z) :
  (0 <= k <= n)%Z -> (n <= 54)%Z ->
  exists c : float,
    Binary64.comb (Binary64.of_Z n) (Binary64.of_Z k) = Some c
    /\ Binary64.integer c = Some (binomial_coefficient n k).
Proof.
  intros Hk Hn. apply exactly_spec.
  assert (Hall : forallb
                   (fun n =>
                      forallb
                        (fun k =>
                           Binary64.exactly
                             (Binary64.comb (Binary64.of_Z n)
                                (Binary64.of_Z k))
                             (binomial_coefficient n k))
                        (seqZ 0 (n + 1))) (seqZ 0 55) = true)
    by (vm_compute; reflexivity).
  assert (Hn' : (0 <= n < 0 + 55)%Z) by lia.
  assert (Hk' : (0 <= k < 0 + (n + 1))%Z) by lia.
  pose proof (forallb_seqZ _ 0 55 Hall n Hn') as Hrow. cbv beta in Hrow.
  exact (forallb_seqZ _ 0 (n + 1) Hrow k Hk').
Qed.

Lemma comb_outside (n k : float) :
  (k <? 0)%float = true \/ (n <? k)%float = true ->
  Binary64.comb n k = Some 0%float.
Proof.
  intros H. unfold Binary64.comb.
  destruct H as [-> | ->]; [reflexivity | now rewrite orb_true_r].
Qed.

Lemma comb_boundary (n k : float) :
  (k <? 0)%float = false -> (n <? k)%float = false ->
  (k =? 0)%float = true \/ (k =? n)%float = true ->
  Binary64.comb n k = Some 1%float.
Proof.
  intros H0 Hn H. unfold Binary64.comb. rewrite H0, Hn. cbn [orb].
  destruct H as [-> | ->]; [reflexivity | now rewrite orb_true_r].
Qed.

(** C8, as amended.  In binary64 [comb n k] is [0] when [k < 0] and when
    [k > n], [1] at the boundaries [k = 0] and [k = n], and the binomial
    coefficient [C (n, k)], exactly, at all integers [0 <= k <= n <= 54];
    [comb 5 7] is [0]. *)
Theorem comb_exact_to_54 :
  (forall n k : float,
      (k <? 0)%float = true \/ (n <? k)%float = true ->
      Binary64.comb n k = Some 0%float)
  /\ (forall n k : float,
        (k <? 0)%float = false -> (n <? k)%float = false ->
        (k =? 0)%float = true \/ (k =? n)%float = true ->
        Binary64.comb n k = Some 1%float)
  /\ (forall n k : Z,
        (0 <= k <= n)%Z -> (n <= 54)%Z ->
        Binary64.integer (Binary64.of_Z n) = Some n
        /\ Binary64.integer (Binary64.of_Z k) = Some k
        /\ exists c : float,
             Binary64.comb (Binary64.of_Z n) (Binary64.of_Z k) = Some c
             /\ Binary64.integer c = Some (binomial_coefficient n k))
  /\ Binary64.comb 5 7 = Some 0%float.
Proof.
  split; [exact comb_outside|]. split; [exact comb_boundary|].
  split; [|reflexivity].
  intros n k Hk Hn.
  split; [apply of_Z_exact; lia|]. split; [apply of_Z_exact; lia|].
  now apply comb_exact.
Qed.

(** C8, as stated, fails at [n = 55], [k = 27]: the code returns
    [3824345300380219.5], which is no integer; [C (55, 27)] is
    [3824345300380220]. *)
Lemma comb_55_27_not_the_coefficient :
  ~ (forall n k : Z,
        (0 < k < n)%Z ->
        exists c : float,
          Binary64.comb (Binary64.of_Z n) (Binary64.of_Z k) = Some c
          /\ Binary64.integer c = Some (binomial_coefficient n k)).
Proof.
  intros H. destruct (H 55%Z 27%Z ltac:(lia)) as (c & Hc & Hcoefficient).
  vm_compute in Hc. injection Hc as <-.
  vm_compute in Hcoefficient. discriminate.
Qed.

(** *** [erf] and [normalCDF] at the mean *)

(** At [0] the exponential factor is [1] and [t] is [1]: [erf 0] is one minus
    the sum of the five coefficients, which is [1e-9], not [0]. *)
Lemma erf_0 : erf 0 = 1e-9.
Proof.
  unfold erf. rewrite decide_True by lra. rewrite Rabs_R0.
  replace (- 0 * 0) with 0 by lra. rewrite exp_0. lra.
Qed.

Lemma normalCDF_at_mean (mu sigma : R) :
  normalCDF mu mu sigma = 0.5 * (1 + erf 0).
Proof.
  unfold normalCDF. cbv zeta. do 2 f_equal. f_equal.
  unfold Rdiv. rewrite Rminus_diag. lra.
Qed.

(** C6.  For every mean and every positive deviation, [normalCDF] at the
    mean is [0.5 * (1 + erf 0)]; [erf 0] is within [1.5e-7] of [0] and the
    value of [normalCDF] within [1.5e-7] of [0.5]. *)
Theorem normalCDF_mean_half (mu sigma : R) :
  sigma > 0 ->
  normalCDF mu mu sigma = 0.5 * (1 + erf 0)
  /\ Rabs (erf 0 - 0) <= 1.5e-7
  /\ Rabs (normalCDF mu mu sigma - 0.5) <= 1.5e-7.
Proof.
  intros _. rewrite normalCDF_at_mean, erf_0.
  split; [reflexivity|].
  split; apply Rabs_le; lra.
Qed.

Lemma normalCDF_mean_half_witness :
  Rabs (normalCDF 3 3 2 - 0.5) <= 1.5e-7.
Proof. apply (normalCDF_mean_half 3 2). lra. Defined.

(** The same in binary64: for a finite mean and a positive deviation the
    argument of [erf] is [+0], [erf] returns [9.9999997171806854e-10], and
    [normalCDF] the binary64 number [0.50000000050000004]. *)

Lemma binary64_sub_diag (x : float) :
  PrimFloat.is_nan x = false -> PrimFloat.is_infinity x = false ->
  (x - x)%float = 0%float.
Proof.
  unfold PrimFloat.is_nan, PrimFloat.is_infinity.
  rewrite !FloatAxioms.eqb_spec, FloatAxioms.abs_spec. intros Hnan Hinf.
  rewrite <- (SF2Prim_Prim2SF (x - x)%float), FloatAxioms.sub_spec.
  destruct (Prim2SF x) as [s|s| |s m e].
  - destruct s; reflexivity.
  - destruct s; vm_compute in Hinf; discriminate.
  - discriminate.
  - unfold SF64sub, SFsub. rewrite Z.min_id, Z.sub_diag. reflexivity.
Qed.

Lemma binary64_zero_div (y : float) :
  (0 <? y)%float = true -> (0 / y)%float = 0%float.
Proof.
  rewrite FloatAxioms.ltb_spec. intros Hpos.
  rewrite <- (SF2Prim_Prim2SF (0 / y)%float), FloatAxioms.div_spec.
  change (Prim2SF 0) with (S754_zero false) in *.
  destruct (Prim2SF y) as [s|s| |s m e]; try discriminate;
    destruct s; try discriminate; reflexivity.
Qed.

Lemma binary64_erf_0 (Math_exp : float -> float) :
  Math_exp (-0)%float = 1%float ->
  Binary64.erf Math_exp 0 = 9.9999997171806854e-10%float.
Proof.
  intros Hexp. unfold Binary64.erf.
  change (- PrimFloat.abs 0 * PrimFloat.abs 0)%float with (-0)%float.
  rewrite Hexp. reflexivity.
Qed.

Lemma binary64_normalCDF_mean (Math_exp : float -> float) (mu sigma : float) :
  Math_exp (-0)%float = 1%float ->
  PrimFloat.is_nan mu = false -> PrimFloat.is_infinity mu = false ->
  (0 <? sigma)%float = true ->
  Binary64.normalCDF Math_exp mu mu sigma = 0.50000000050000004%float
  /\ (PrimFloat.abs (Binary64.normalCDF Math_exp mu mu sigma - 0.5)
       <? 1.5e-7)%float = true.
Proof.
  intros Hexp Hnan Hinf Hsigma.
  assert (H : Binary64.normalCDF Math_exp mu mu sigma
              = 0.50000000050000004%float).
  { unfold Binary64.normalCDF.
    rewrite binary64_sub_diag, binary64_zero_div by assumption.
    change (0 / PrimFloat.sqrt 2)%float with 0%float.
    rewrite binary64_erf_0 by exact Hexp. reflexivity. }
  rewrite H. split; reflexivity.
Qed.

(** *** Running array operations *)

Lemma run_bind {A B : Type} (m : JS A) (f : A -> JS B) (s : state) :
  (m ≫= f) s = match m s with Some (a, s') => f a s' | None => None end.
Proof. reflexivity. Qed.

Lemma run_ret {A : Type} (a : A) (s : state) :
  (mret a : JS A) s = Some (a, s).
Proof. reflexivity. Qed.

Lemma get_array_run (a : loc) (l : list R) (s : state) :
  heap s !! a = Some l -> get_array a s = Some (l, s).
Proof. intros H. unfold get_array. now rewrite H. Qed.

Lemma array_length_run (a : loc) (l : list R) (s : state) :
  heap s !! a = Some l -> array_length a s = Some (length l, s).
Proof.
  intros H. unfold array_length. now rewrite run_bind, (get_array_run a l).
Qed.

Lemma reduce_run (f : R -> R -> R) (init : R) (a : loc) (l : list R)
    (s : state) :
  heap s !! a = Some l -> reduce f init a s = Some (fold_left f l init, s).
Proof.
  intros H. unfold reduce. now rewrite run_bind, (get_array_run a l).
Qed.

Lemma read_run (a : loc) (i : R) (l : list R) (s : state) :
  heap s !! a = Some l -> read a i s = Some (elem l i, s).
Proof.
  intros H. unfold read. now rewrite run_bind, (get_array_run a l).
Qed.

Lemma spread_run (a : loc) (l : list R) (s : state) :
  heap s !! a = Some l ->
  spread a s
  = Some (fresh (dom (heap s)),
          State (<[fresh (dom (heap s)) := l]> (heap s)) (tape s)).
Proof.
  intros H. unfold spread. now rewrite run_bind, (get_array_run a l).
Qed.

Lemma sort_run (cmp : R -> R -> R) (a : loc) (l : list R) (s : state) :
  heap s !! a = Some l ->
  sort cmp a s
  = Some (a, State (<[a := sort_by cmp l]> (heap s)) (tape s)).
Proof.
  intros H. unfold sort, set_array.
  rewrite run_bind, (get_array_run a l) by done.
  rewrite run_bind. now rewrite H.
Qed.

Lemma push_run (a : loc) (v : R) (l : list R) (s : state) :
  heap s !! a = Some l ->
  push a v s = Some (tt, State (<[a := (l ++ [v])%list]> (heap s)) (tape s)).
Proof.
  intros H. unfold push, set_array.
  rewrite run_bind, (get_array_run a l) by done. now rewrite H.
Qed.

Lemma fresh_loc_unused (h : gmap loc (list R)) : h !! fresh (dom h) = None.
Proof. apply not_elem_of_dom, is_fresh. Qed.

Lemma fresh_loc_other (h : gmap loc (list R)) (a : loc) (l : list R) :
  h !! a = Some l -> fresh (dom h) <> a.
Proof.
  intros H E. pose proof (fresh_loc_unused h) as F. rewrite E in F. congruence.
Qed.

(** [calculateStats] returns [summary] of the elements; it allocates one
    array, the sorted copy, and writes to no other. *)
Lemma calculateStats_run (s : state) (data : loc) (l : list R) :
  heap s !! data = Some l ->
  calculateStats data s
  = Some (summary l,
          State (<[fresh (dom (heap s)) := sort_by (fun a b => a - b) l]>
                   (heap s)) (tape s)).
Proof.
  intros Hdata. pose proof (fresh_loc_other _ _ _ Hdata) as Hne.
  set (copy := fresh (dom (heap s))) in *.
  set (sorted := sort_by (fun a b => a - b) l).
  set (s2 := State (<[copy := sorted]> (heap s)) (tape s)).
  assert (Hsorted : heap s2 !! copy = Some sorted) by apply lookup_insert_eq.
  assert (Hdata2 : heap s2 !! data = Some l).
  { unfold s2. simpl. now rewrite lookup_insert_ne. }
  unfold calculateStats.
  rewrite run_bind, (array_length_run data l) by done.
  rewrite run_bind, (reduce_run _ _ data l) by done.
  rewrite run_bind, (spread_run data l) by done. fold copy.
  rewrite run_bind, (sort_run _ copy l) by apply lookup_insert_eq.
  simpl heap. simpl tape. rewrite insert_insert_eq. fold sorted. fold s2.
  unfold summary. fold sorted. cbv zeta.
  destruct (decide (Z.rem (Z.of_nat (length l)) 2 = 0%Z));
    repeat first [ rewrite run_bind
                 | rewrite (read_run copy _ sorted) by done
                 | rewrite (reduce_run _ _ data l) by done
                 | rewrite run_ret ];
    reflexivity.
Qed.

(** *** The fuel of the loops is enough

    A loop that would stop anyway within its fuel computes the same with
    more; [rounds bound] is such a fuel for the loops of the source, which
    start at a counter of [0] or more and run while [i < bound] or
    [i <= bound], for every real [bound]. *)

Lemma for_loop_fuel {A : Type} (test : Z -> bool) (body : Z -> A -> A) :
  forall (fuel extra : nat) (i : Z) (acc : A),
    (forall j : Z, (i + Z.of_nat fuel <= j)%Z -> test j = false) ->
    for_loop (fuel + extra) test body i acc = for_loop fuel test body i acc.
Proof.
  induction fuel as [|fuel IH]; intros extra i acc Hexit.
  - simpl. destruct extra as [|extra]; [reflexivity|]. simpl.
    now rewrite Hexit by lia.
  - simpl. destruct (test i); [|reflexivity].
    apply IH. intros j Hj. apply Hexit. lia.
Qed.

Lemma for_loopM_fuel {A : Type} (test : Z -> bool) (body : Z -> A -> JS A) :
  forall (fuel extra : nat) (i : Z) (acc : A) (s : state),
    (forall j : Z, (i + Z.of_nat fuel <= j)%Z -> test j = false) ->
    for_loopM (fuel + extra) test body i acc s
    = for_loopM fuel test body i acc s.
Proof.
  induction fuel as [|fuel IH]; intros extra i acc s Hexit.
  - simpl. destruct extra as [|extra]; [reflexivity|]. simpl.
    now rewrite Hexit by lia.
  - simpl. destruct (test i); [|reflexivity].
    rewrite !run_bind. destruct (body i acc s) as [[acc' s']|]; [|reflexivity].
    apply IH. intros j Hj. apply Hexit. lia.
Qed.

Lemma rounds_exit (bound : R) (i j : Z) :
  (0 <= i)%Z -> (i + Z.of_nat (rounds bound) <= j)%Z -> bound < IZR j.
Proof.
  intros Hi Hj. unfold rounds in Hj.
  destruct (Zfloor_bound bound) as [_ Hup].
  apply Rlt_le_trans with (IZR (Zfloor bound) + 1); [exact Hup|].
  rewrite <- plus_IZR. apply IZR_le. lia.
Qed.

Lemma rounds_enough_lt {A : Type} (body : Z -> A -> A) (bound : R)
    (extra : nat) (i : Z) (acc : A) :
  (0 <= i)%Z ->
  for_loop (rounds bound + extra) (fun i => bool_decide (IZR i < bound))
    body i acc
  = for_loop (rounds bound) (fun i => bool_decide (IZR i < bound)) body i acc.
Proof.
  intros Hi. apply for_loop_fuel. intros j Hj.
  apply bool_decide_eq_false_2. pose proof (rounds_exit bound i j Hi Hj). lra.
Qed.

Lemma rounds_enough_le {A : Type} (body : Z -> A -> A) (bound : R)
    (extra : nat) (i : Z) (acc : A) :
  (0 <= i)%Z ->
  for_loop (rounds bound + extra) (fun i => bool_decide (IZR i <= bound))
    body i acc
  = for_loop (rounds bound) (fun i => bool_decide (IZR i <= bound)) body i acc.
Proof.
  intros Hi. apply for_loop_fuel. intros j Hj.
  apply bool_decide_eq_false_2. pose proof (rounds_exit bound i j Hi Hj). lra.
Qed.

Lemma rounds_enough_effects {A : Type} (body : Z -> A -> JS A) (bound : R)
    (extra : nat) (i : Z) (acc : A) (s : state) :
  (0 <= i)%Z ->
  for_loopM (rounds bound + extra) (fun i => bool_decide (IZR i < bound))
    body i acc s
  = for_loopM (rounds bound) (fun i => bool_decide (IZR i < bound))
      body i acc s.
Proof.
  intros Hi. apply for_loopM_fuel. intros j Hj.
  apply bool_decide_eq_false_2. pose proof (rounds_exit bound i j Hi Hj). lra.
Qed.

(** A [while] whose body takes a draw each round ends, or is stuck on the
    tape, within one round more than the tape has draws. *)
Lemma while_loop_fuel {A : Type} (test : A -> bool) (body : A -> JS A) :
  (forall (a a' : A) (s s' : state),
      body a s = Some (a', s') -> (length (tape s') < length (tape s))%nat) ->
  forall (fuel extra : nat) (a : A) (s : state),
    (length (tape s) < fuel)%nat ->
    while_loop (fuel + extra) test body a s = while_loop fuel test body a s.
Proof.
  intros Hdraw. induction fuel as [|fuel IH]; intros extra a s Hfuel; [lia|].
  simpl. destruct (test a); [|reflexivity].
  rewrite !run_bind. destruct (body a s) as [[a' s']|] eqn:Hbody; [|reflexivity].
  apply IH. apply Hdraw in Hbody. lia.
Qed.

Lemma Math_random_draws (u : R) (s s' : state) :
  Math_random s = Some (u, s') -> S (length (tape s')) = length (tape s).
Proof.
  unfold Math_random. destruct (tape s) as [|v t] eqn:Ht; [discriminate|].
  intros [= <- <-]. reflexivity.
Qed.

(** The two [while] loops of the source, the rejection of a zero draw in
    [generateNormal] and the product of draws in [generatePoisson], are
    of that kind. *)
Lemma while_fuel_nonzero_draw (extra : nat) (u : R) (s : state) :
  while_loop (S (length (tape s)) + extra) (fun u => bool_decide (u = 0))
    (fun _ => Math_random) u s
  = while (fun u => bool_decide (u = 0)) (fun _ => Math_random) u s.
Proof.
  unfold while. apply while_loop_fuel; [|lia].
  intros a a' s0 s0' H. apply Math_random_draws in H. lia.
Qed.

Lemma while_fuel_product (extra : nat) (l : R) (kp : Z * R) (s : state) :
  while_loop (S (length (tape s)) + extra)
    (fun kp : Z * R => bool_decide (kp.2 > l))
    (fun kp => u ← Math_random; mret ((kp.1 + 1)%Z, kp.2 * u)) kp s
  = while (fun kp : Z * R => bool_decide (kp.2 > l))
      (fun kp => u ← Math_random; mret ((kp.1 + 1)%Z, kp.2 * u)) kp s.
Proof.
  unfold while. apply while_loop_fuel; [|lia].
  intros a a' s0 s0' H. rewrite run_bind in H.
  destruct (Math_random s0) as [[u s1]|] eqn:Hdraw; [|discriminate].
  rewrite run_ret in H. injection H as _ <-.
  apply Math_random_draws in Hdraw. lia.
Qed.

(** [gamma] needs no more than its two levels. *)
Lemma gamma_rec_fuel (fuel : nat) (z : R) :
  gamma_rec (2 + fuel) z = gamma_rec 2 z.
Proof.
  assert (Hmain : forall (f : nat) (y : R),
             ~ y < 0.5 -> gamma_rec (S f) y = gamma_rec 1 y).
  { intros f y Hy. cbn [gamma_rec]. now rewrite !decide_False by exact Hy. }
  change (2 + fuel)%nat with (S (S fuel)). cbn [gamma_rec].
  destruct (decide (z < 0.5)) as [Hz|Hz]; [|reflexivity].
  assert (Hy : ~ 1 - z < 0.5) by lra.
  pose proof (Hmain fuel (1 - z) Hy) as H1.
  pose proof (Hmain 0%nat (1 - z) Hy) as H0.
  cbn [gamma_rec] in H1, H0.
  rewrite !decide_False in H1, H0 by exact Hy.
  rewrite !decide_False by exact Hy. reflexivity.
Qed.

(** *** The stable sort orders the sample *)

Lemma insert_by_Permutation (cmp : R -> R -> R) (x : R) (l : list R) :
  insert_by cmp x l ≡ₚ x :: l.
Proof.
  induction l as [|y l IH]; simpl; [reflexivity|].
  case_decide; [|reflexivity].
  rewrite IH. apply Permutation_swap.
Qed.

Lemma sort_by_Permutation (cmp : R -> R -> R) (l : list R) :
  sort_by cmp l ≡ₚ l.
Proof.
  induction l as [|x l IH]; simpl; [reflexivity|].
  now rewrite insert_by_Permutation, IH.
Qed.

Lemma insert_by_Sorted (x : R) (l : list R) :
  Sorted Rle l -> Sorted Rle (insert_by (fun a b => a - b) x l).
Proof.
  induction l as [|y l IH]; intros Hl; simpl.
  - repeat constructor.
  - apply Sorted_inv in Hl as [Hl Hy]. case_decide as Hxy.
    + constructor; [now apply IH|].
      destruct l as [|z l]; simpl.
      * constructor. lra.
      * case_decide; constructor; [|lra]. now apply HdRel_inv in Hy.
    + constructor; [now constructor|]. constructor. lra.
Qed.

Lemma sort_by_Sorted (l : list R) : Sorted Rle (sort_by (fun a b => a - b) l).
Proof.
  induction l as [|x l IH]; simpl; [constructor | now apply insert_by_Sorted].
Qed.

Lemma sort_by_order_statistics (l : list R) :
  sort_by (fun a b => a - b) l = order_statistics l.
Proof.
  apply (Sorted_unique Rle).
  - apply sort_by_Sorted.
  - apply (Sorted_merge_sort Rle).
  - unfold order_statistics.
    now rewrite sort_by_Permutation, (merge_sort_Permutation Rle).
Qed.

Lemma order_statistics_sorted (l : list R) :
  Sorted Rle l -> order_statistics l = l.
Proof.
  intros Hl. apply (Sorted_unique Rle).
  - apply (Sorted_merge_sort Rle).
  - exact Hl.
  - apply (merge_sort_Permutation Rle).
Qed.

Lemma length_order_statistics (l : list R) :
  length (order_statistics l) = length l.
Proof. apply Permutation_length, (merge_sort_Permutation Rle). Qed.

(** *** Sums and indices *)

Lemma fold_left_sum (f : R -> R) (l : list R) (acc : R) :
  fold_left (fun a b => a + f b) l acc = acc + total (f <$> l).
Proof.
  unfold total. revert acc. induction l as [|x l IH]; intros acc; simpl.
  - lra.
  - rewrite IH. change (list_fmap R R f l) with (f <$> l). lra.
Qed.

Lemma Math_pow_2 (y : R) : Math_pow y 2 = y * y.
Proof.
  unfold Math_pow, Math_floor. rewrite ZfloorZ.
  rewrite decide_True by reflexivity. simpl. lra.
Qed.

Lemma elem_INR (l : list R) (k : nat) : elem l (INR k) = l !! k.
Proof.
  unfold elem, Math_floor. rewrite INR_IZR_INZ, ZfloorZ.
  rewrite decide_True; [now rewrite Nat2Z.id|].
  split; [apply IZR_le; lia | reflexivity].
Qed.

Lemma Zfloor_quot (a b : Z) :
  (0 < b)%Z -> Zfloor (IZR a / IZR b) = (a / b)%Z.
Proof.
  intros Hb. apply Zfloor_eq.
  assert (0 < IZR b) by now apply IZR_lt.
  pose proof (Z.div_mod a b ltac:(lia)) as Hdiv.
  pose proof (Z.mod_pos_bound a b Hb) as [Hr0 Hr1].
  assert (Ha : IZR a = IZR b * IZR (a / b) + IZR (a mod b)).
  { rewrite <- mult_IZR, <- plus_IZR. now f_equal. }
  apply IZR_le in Hr0. apply IZR_lt in Hr1.
  split.
  - apply Rmult_le_reg_l with (IZR b); [lra|]. field_simplify; lra.
  - apply Rmult_lt_reg_l with (IZR b); [lra|]. field_simplify; lra.
Qed.

Lemma Math_floor_quot (n num den : nat) :
  (0 < den)%nat ->
  Math_floor (INR n * (INR num / INR den)) = INR (num * n / den).
Proof.
  intros Hden. unfold Math_floor.
  replace (INR n * (INR num / INR den))
    with (IZR (Z.of_nat (num * n)) / IZR (Z.of_nat den)).
  - rewrite Zfloor_quot by lia. rewrite INR_IZR_INZ. f_equal.
    now rewrite Nat2Z.inj_div.
  - rewrite <- !INR_IZR_INZ, mult_INR. field.
    apply not_0_INR. lia.
Qed.

(** *** The fields of [summary] *)

Lemma summary_mean (l : list R) : mean (summary l) = sample_mean l.
Proof.
  unfold summary, sample_mean. cbn [mean]. f_equal.
  rewrite (fold_left_sum (fun x => x) l 0), list_fmap_id. lra.
Qed.

Lemma summary_variance (l : list R) :
  variance (summary l) = population_variance l.
Proof.
  unfold summary, population_variance. cbn [variance]. f_equal.
  change (fold_left (fun a b => a + b) l 0 / INR (length l))
    with (mean (summary l)).
  rewrite summary_mean.
  rewrite (fold_left_sum (fun b => Math_pow (b - sample_mean l) 2) l 0).
  rewrite Rplus_0_l. f_equal. apply list_fmap_ext. intros _ x _.
  apply Math_pow_2.
Qed.

Lemma rem_2_even (n : nat) :
  Z.rem (Z.of_nat n) 2 = 0%Z <-> Nat.even n = true.
Proof.
  rewrite Z.rem_mod_nonneg by lia. rewrite Nat.even_spec.
  split.
  - intros H. exists (n / 2)%nat.
    pose proof (Z.div_mod (Z.of_nat n) 2 ltac:(lia)) as Hd.
    rewrite H in Hd. apply Nat2Z.inj. rewrite Hd at 1.
    rewrite Nat2Z.inj_mul, Nat2Z.inj_div. simpl Z.of_nat. lia.
  - intros [m ->]. rewrite Nat2Z.inj_mul. simpl Z.of_nat.
    rewrite Z.mul_comm. apply Z_mod_mult.
Qed.

Lemma summary_median (l : list R) :
  l <> [] -> median (summary l) = sample_median l /\ is_Some (sample_median l).
Proof.
  intros Hl. assert (Hn : (0 < length l)%nat) by (destruct l; simpl; [done|lia]).
  unfold summary, sample_median. cbn [median]. cbv zeta.
  rewrite sort_by_order_statistics.
  pose proof (length_order_statistics l) as Hlen.
  case_decide as Hrem.
  - apply rem_2_even in Hrem as Heven. rewrite Heven.
    apply Nat.even_spec in Heven as [m Hm].
    assert (Hhalf : (length l / 2 = m)%nat).
    { rewrite Hm, Nat.mul_comm. apply Nat.div_mul. lia. }
    rewrite Hhalf.
    replace (INR (length l) / 2 - 1) with (INR (m - 1)).
    2:{ rewrite Hm, mult_INR, minus_INR by lia. simpl. lra. }
    replace (INR (length l) / 2) with (INR m).
    2:{ rewrite Hm, mult_INR. simpl. lra. }
    rewrite !elem_INR. split; [reflexivity|].
    destruct (lookup_lt_is_Some_2 (order_statistics l) (m - 1)) as [u ->];
      [lia|].
    destruct (lookup_lt_is_Some_2 (order_statistics l) m) as [v ->]; [lia|].
    simpl. eauto.
  - assert (Hodd : Nat.even (length l) = false).
    { destruct (Nat.even (length l)) eqn:E; [|reflexivity].
      now apply rem_2_even in E. }
    rewrite Hodd.
    replace (INR (length l) / 2) with (INR (length l) * (INR 1 / INR 2))
      by (simpl; lra).
    rewrite Math_floor_quot by lia. rewrite elem_INR, Nat.mul_1_l.
    assert (Hmid : ((length l - 1) / 2 = length l / 2)%nat).
    { apply negb_true_iff in Hodd. rewrite Nat.negb_even in Hodd.
      apply Nat.odd_spec in Hodd as [m Hm]. rewrite Hm.
      replace (2 * m + 1 - 1)%nat with (m * 2)%nat by lia.
      rewrite Nat.div_mul by lia.
      apply (Nat.div_unique _ 2 m 1); lia. }
    rewrite Hmid. split; [reflexivity|].
    apply lookup_lt_is_Some_2. rewrite Hlen.
    apply Nat.div_lt; lia.
Qed.

Lemma summary_q1 (l : list R) :
  l <> [] -> q1 (summary l) = first_quartile l /\ is_Some (first_quartile l).
Proof.
  intros Hl. assert (Hn : (0 < length l)%nat) by (destruct l; simpl; [done|lia]).
  unfold summary, first_quartile. cbn [q1].
  rewrite sort_by_order_statistics.
  replace 0.25 with (INR 1 / INR 4) by (simpl; lra).
  rewrite Math_floor_quot by lia. rewrite elem_INR, Nat.mul_1_l.
  split; [reflexivity|].
  apply lookup_lt_is_Some_2. rewrite length_order_statistics.
  apply Nat.div_lt; lia.
Qed.

Lemma summary_q3 (l : list R) :
  l <> [] -> q3 (summary l) = third_quartile l /\ is_Some (third_quartile l).
Proof.
  intros Hl. assert (Hn : (0 < length l)%nat) by (destruct l; simpl; [done|lia]).
  unfold summary, third_quartile. cbn [q3].
  rewrite sort_by_order_statistics.
  replace 0.75 with (INR 3 / INR 4) by (simpl; lra).
  rewrite Math_floor_quot by lia. rewrite elem_INR.
  split; [reflexivity|].
  apply lookup_lt_is_Some_2. rewrite length_order_statistics.
  apply Nat.Div0.div_lt_upper_bound. lia.
Qed.

(** C4.  On every non-empty sample [calculateStats] returns the population
    variance, the median of the order statistics and the nearest-rank
    quartiles of ranks [floor (n / 4)] and [floor (3 n / 4)]; on
    [[1; 2; 3; 4; 5]] the mean is [3], the median [3], the variance [2] and
    the quartiles [2] and [4]. *)
Theorem describe_spec (s : state) (data : loc) (sample : list R) :
  heap s !! data = Some sample -> sample <> [] ->
  exists (st : stats) (s' : state),
    calculateStats data s = Some (st, s')
    /\ mean st = sample_mean sample
    /\ variance st = population_variance sample
    /\ median st = sample_median sample /\ is_Some (median st)
    /\ q1 st = first_quartile sample /\ is_Some (q1 st)
    /\ q3 st = third_quartile sample /\ is_Some (q3 st)
    /\ (sample = [1; 2; 3; 4; 5] ->
        mean st = 3 /\ median st = Some 3 /\ variance st = 2
        /\ q1 st = Some 2 /\ q3 st = Some 4).
Proof.
  intros Hdata Hne. eexists _, _.
  split; [apply calculateStats_run; exact Hdata|].
  destruct (summary_median sample Hne) as [Hmed Hmed'].
  destruct (summary_q1 sample Hne) as [Hq1 Hq1'].
  destruct (summary_q3 sample Hne) as [Hq3 Hq3'].
  rewrite summary_mean, summary_variance, Hmed, Hq1, Hq3.
  repeat (split; [done|]).
  intros ->.
  assert (Hos : order_statistics [1; 2; 3; 4; 5] = [1; 2; 3; 4; 5]).
  { apply order_statistics_sorted. repeat constructor; lra. }
  assert (Hmean : sample_mean [1; 2; 3; 4; 5] = 3).
  { unfold sample_mean, total. simpl. lra. }
  unfold population_variance, sample_median, first_quartile, third_quartile.
  rewrite Hos, Hmean.
  split; [reflexivity|]. split; [reflexivity|].
  split; [unfold total; simpl; lra|].
  split; reflexivity.
Qed.

Lemma describe_spec_witness :
  exists (st : stats) (s' : state),
    calculateStats 0%nat (State {[ 0%nat := [1; 2; 3; 4; 5] ]} []) = Some (st, s')
    /\ mean st = 3 /\ median st = Some 3 /\ variance st = 2
    /\ q1 st = Some 2 /\ q3 st = Some 4.
Proof.
  destruct (describe_spec (State {[ 0%nat := [1; 2; 3; 4; 5] ]} []) 0%nat
              [1; 2; 3; 4; 5])
    as (st & s' & Hrun & _ & _ & _ & _ & _ & _ & _ & _ & Hex).
  - apply lookup_singleton_eq.
  - discriminate.
  - exists st, s'. split; [exact Hrun|]. now apply Hex.
Defined.

(** C5.  [calculateStats] leaves the array it is given, and every other
    array of the caller, as it found them, so that a second call on the same
    array returns the same record. *)
Theorem describe_idempotent (s : state) (data : loc) (sample : list R) :
  heap s !! data = Some sample ->
  exists (st : stats) (s1 s2 : state),
    calculateStats data s = Some (st, s1)
    /\ heap s1 !! data = Some sample
    /\ (forall (a : loc) (l : list R),
          heap s !! a = Some l -> heap s1 !! a = Some l)
    /\ calculateStats data s1 = Some (st, s2)
    /\ heap s2 !! data = Some sample.
Proof.
  intros Hdata.
  assert (Hframe : forall (h : gmap loc (list R)) (a : loc) (l l' : list R),
             h !! a = Some l -> <[fresh (dom h) := l']> h !! a = Some l).
  { intros h a l l' Ha. rewrite lookup_insert_ne; [done|].
    now apply fresh_loc_other with l. }
  set (sorted := sort_by (fun a b => a - b) sample).
  set (s1 := State (<[fresh (dom (heap s)) := sorted]> (heap s)) (tape s)).
  assert (Hdata1 : heap s1 !! data = Some sample) by now apply Hframe.
  exists (summary sample), s1,
    (State (<[fresh (dom (heap s1)) := sorted]> (heap s1)) (tape s1)).
  split; [now apply calculateStats_run|].
  split; [exact Hdata1|].
  split; [intros a l Ha; now apply Hframe|].
  split; [now apply calculateStats_run|].
  now apply Hframe.
Qed.

Lemma describe_idempotent_witness :
  exists (st : stats) (s1 s2 : state),
    calculateStats 0%nat (State {[ 0%nat := [3; 1; 2] ]} []) = Some (st, s1)
    /\ heap s1 !! 0%nat = Some [3; 1; 2]
    /\ calculateStats 0%nat s1 = Some (st, s2)
    /\ heap s2 !! 0%nat = Some [3; 1; 2].
Proof.
  destruct (describe_idempotent (State {[ 0%nat := [3; 1; 2] ]} []) 0%nat
              [3; 1; 2])
    as (st & s1 & s2 & H1 & H2 & _ & H3 & H4).
  - apply lookup_singleton_eq.
  - now exists st, s1, s2.
Defined.

(** *** The loops of the samplers *)

(** An invariant of the body of a loop with effects holds when it ends. *)
Lemma for_loopM_invariant {A : Type} (Inv : A -> state -> Prop)
    (test : Z -> bool) (body : Z -> A -> JS A) :
  (forall (j : Z) (a a' : A) (s s' : state),
      Inv a s -> body j a s = Some (a', s') -> Inv a' s') ->
  forall (fuel : nat) (i : Z) (acc acc' : A) (s s' : state),
    Inv acc s ->
    for_loopM fuel test body i acc s = Some (acc', s') ->
    Inv acc' s'.
Proof.
  intros Hbody. induction fuel as [|fuel IH]; intros i acc acc' s s' Hinv Hrun.
  - simpl in Hrun. injection Hrun as <- <-. exact Hinv.
  - simpl in Hrun. destruct (test i).
    + rewrite run_bind in Hrun.
      destruct (body i acc s) as [[a1 s1]|] eqn:Hb; [|discriminate].
      eapply IH; [|exact Hrun]. eapply Hbody; eauto.
    + injection Hrun as <- <-. exact Hinv.
Qed.

(** The [while] of [generatePoisson]: the heap is not touched, the counter
    does not decrease, and it increases when the loop is entered. *)
Lemma poisson_while_loop (l : R) (fuel : nat) :
  forall (k : Z) (p : R) (s : state) (kp : Z * R) (s' : state),
    while_loop fuel (fun kp : Z * R => bool_decide (kp.2 > l))
      (fun kp => u ← Math_random; mret ((kp.1 + 1)%Z, kp.2 * u)) (k, p) s
    = Some (kp, s') ->
    heap s' = heap s /\ (k <= kp.1)%Z /\ (p > l -> (k + 1 <= kp.1)%Z).
Proof.
  induction fuel as [|fuel IH]; intros k p s kp s' Hrun; [discriminate|].
  simpl in Hrun. case_bool_decide as Hp.
  - rewrite !run_bind in Hrun. unfold Math_random in Hrun.
    destruct (tape s) as [|u t]; [discriminate|].
    rewrite run_ret in Hrun. apply IH in Hrun as (Hheap & Hk & _).
    simpl in Hheap. repeat split; [done | lia | lia].
  - injection Hrun as <- <-. simpl. repeat split; [lia | done].
Qed.

(** The loop [for (let i = 0; i < count; i++)] makes [ceil count] rounds,
    none when [count <= 0], and [rounds count] is fuel enough for them. *)
Lemma rounds_test_true (count : R) (k : nat) :
  (k < Z.to_nat (Zceil count))%nat -> IZR (Z.of_nat k) < count.
Proof.
  intros Hk. destruct (Zceil_bound count) as [Hlo _].
  assert (Z.of_nat k <= Zceil count - 1)%Z as Hle by lia.
  apply IZR_le in Hle. rewrite minus_IZR in Hle. lra.
Qed.

Lemma rounds_test_false (count : R) :
  ~ IZR (Z.of_nat (Z.to_nat (Zceil count))) < count.
Proof.
  destruct (Zceil_bound count) as [_ Hhi].
  destruct (Z.le_gt_cases 0 (Zceil count)) as [Hpos|Hneg].
  - rewrite Z2Nat.id by exact Hpos. lra.
  - rewrite Z2Nat.nonpos by lia. change (IZR (Z.of_nat 0)) with 0.
    assert (Zceil count <= 0)%Z as Hle by lia. apply IZR_le in Hle.
    intros Hcount. lra.
Qed.

Lemma rounds_ceil (count : R) : (Z.to_nat (Zceil count) <= rounds count)%nat.
Proof.
  unfold rounds. destruct (Zceil_bound count) as [Hlo _].
  destruct (Zfloor_bound count) as [_ Hhi].
  assert (Zceil count - 1 < Zfloor count + 1)%Z as Hlt.
  { apply lt_IZR. rewrite minus_IZR, plus_IZR. lra. }
  lia.
Qed.

(** *** The Poisson sampler in binary64 *)

Section Binary64Poisson.

Import Binary64Arrays.

Lemma binary64_bind_run {A B : Type} (m : JS A) (f : A -> JS B) (s : state) :
  bind m f s = match m s with Some (a, s') => f a s' | None => None end.
Proof. reflexivity. Qed.

Lemma binary64_push_run (a : loc) (v : float) (l : list float) (s : state) :
  heap s !! a = Some l ->
  push a v s = Some (tt, State (<[a := (l ++ [v])%list]> (heap s)) (tape s)).
Proof. intros H. unfold push. now rewrite H. Qed.


Lemma binary64_for_loopM_rounds {A : Type} (P : nat -> A -> state -> Prop)
    (body : Z -> A -> JS A) (count : R) :
  (forall (k : nat) (a : A) (s : state),
      (k < Z.to_nat (Zceil count))%nat -> P k a s ->
      exists (a' : A) (s' : state),
        body (Z.of_nat k) a s = Some (a', s') /\ P (S k) a' s') ->
  forall (acc : A) (s : state),
    P 0%nat acc s ->
    exists (acc' : A) (s' : state),
      for_loopM (rounds count) (fun i => bool_decide (IZR i < count)) body
        0 acc s = Some (acc', s')
      /\ P (Z.to_nat (Zceil count)) acc' s'.
Proof.
  intros Hbody.
  assert (Hloop : forall (m k fuel : nat) (acc : A) (s : state),
             (k + m = Z.to_nat (Zceil count))%nat -> (m <= fuel)%nat ->
             P k acc s ->
             exists (acc' : A) (s' : state),
               for_loopM fuel (fun i => bool_decide (IZR i < count)) body
                 (Z.of_nat k) acc s = Some (acc', s')
               /\ P (Z.to_nat (Zceil count)) acc' s').
  { induction m as [|m IH]; intros k fuel acc s Hk Hfuel HP.
    - rewrite Nat.add_0_r in Hk. subst k. exists acc, s.
      split; [|exact HP]. destruct fuel as [|fuel]; [reflexivity|].
      cbn [for_loopM].
      now rewrite bool_decide_eq_false_2 by apply rounds_test_false.
    - destruct fuel as [|fuel]; [lia|]. cbn [for_loopM].
      rewrite bool_decide_eq_true_2 by (apply rounds_test_true; lia).
      destruct (Hbody k acc s ltac:(lia) HP) as (a' & s1 & Hrun & HP').
      rewrite binary64_bind_run, Hrun.
      replace (Z.of_nat k + 1)%Z with (Z.of_nat (S k)) by lia.
      apply IH; [lia | lia | exact HP']. }
  intros acc s HP.
  apply (Hloop (Z.to_nat (Zceil count)) 0%nat);
    [reflexivity | apply rounds_ceil | exact HP].
Qed.


(** The same loop on a tape that begins with a run [us] that crosses the
    threshold: it takes the draws of the run, one a round, and no more. *)
Lemma binary64_poisson_crossing (l : float) (h : gmap loc (list float))
    (rest : list float) :
  forall (us : list float) (fuel : nat) (k : Z) (p : float),
    crosses l p us -> (length us + 1 <= fuel)%nat ->
    while_loop fuel (fun kp : Z * float => (l <? kp.2)%float)
      (fun kp =>
         bind Math_random (fun u => ret ((kp.1 + 1)%Z, (kp.2 * u)%float)))
      (k, p) (State h (us ++ rest)%list)
    = Some (((k + Z.of_nat (length us))%Z,
             fold_left PrimFloat.mul us p), State h rest).
Proof.
  induction us as [|u us IH]; intros fuel k p Hcross Hfuel;
    (destruct fuel as [|fuel]; [simpl in Hfuel; lia|]);
    cbn [while_loop crosses fst snd] in *.
  - rewrite Hcross. unfold ret. cbn. now rewrite Z.add_0_r.
  - destruct Hcross as [Hp Hcross]. rewrite Hp.
    rewrite !binary64_bind_run. unfold Math_random at 1.
    cbn [tape heap app]. unfold ret at 1.
    rewrite IH by (try exact Hcross; simpl in Hfuel; lia).
    cbn [length fold_left]. do 3 f_equal. lia.
Qed.

Lemma binary64_generatePoisson_run (Math_exp : float -> float)
    (lambda : float) (count : R) (s : state) (blocks : list (list float))
    (rest : list float) :
  length blocks = Z.to_nat (Zceil count) ->
  Forall (crosses (Math_exp (- lambda)%float) 1%float) blocks ->
  tape s = (concat blocks ++ rest)%list ->
  generatePoisson Math_exp lambda count s
  = Some (fresh (dom (heap s)),
          State (<[fresh (dom (heap s))
                   := (fun us => Binary64.of_Z (Z.of_nat (length us) - 1))
                        <$> blocks]> (heap s)) rest).
Proof.
  intros Hlen Hblocks Htape. destruct s as [h t]. cbn [heap tape] in *.
  subst t. set (data := fresh (dom h)).
  set (value := fun us : list float =>
                  Binary64.of_Z (Z.of_nat (length us) - 1)).
  unfold generatePoisson.
  rewrite binary64_bind_run. unfold new_array. cbn [heap tape]. fold data.
  destruct (binary64_for_loopM_rounds
              (fun k _ s' =>
                 s' = State (<[data := value <$> take k blocks]> h)
                        (concat (drop k blocks) ++ rest)%list)
              (fun i _ =>
                 bind (while (fun kp : Z * float =>
                                (Math_exp (- lambda) <? kp.2)%float)
                         (fun kp =>
                            bind Math_random (fun u =>
                            ret ((kp.1 + 1)%Z, (kp.2 * u)%float)))
                         (0%Z, 1%float))
                   (fun kp => push data (Binary64.of_Z (kp.1 - 1)))) count)
    with (acc := tt) (s := State (<[data := []]> h)
                             (concat blocks ++ rest)%list)
    as ([] & s' & Hrun & ->).
  - rewrite <- Hlen. intros k [] s' Hk ->.
    destruct (lookup_lt_is_Some_2 blocks k Hk) as [us Hus].
    pose proof (Forall_lookup_1 _ _ _ _ Hblocks Hus) as Hcross.
    exists tt. eexists. split; [|reflexivity].
    rewrite (drop_S blocks us k Hus). cbn [concat].
    rewrite <- app_assoc.
    rewrite binary64_bind_run. unfold while at 1.
    rewrite binary64_poisson_crossing;
      [|exact Hcross | cbn [tape]; rewrite length_app; lia].
    cbn [fst].
    rewrite (binary64_push_run data _ (value <$> take k blocks))
      by (cbn [heap]; apply lookup_insert_eq).
    cbn [heap tape]. rewrite insert_insert_eq.
    rewrite (take_S_r blocks k us Hus), fmap_app. reflexivity.
  - reflexivity.
  - cbv zeta. rewrite binary64_bind_run, Hrun, <- Hlen, drop_all, firstn_all.
    cbn [concat app]. reflexivity.
Qed.




End Binary64Poisson.



(** *** The handlers reject what a distribution does not support *)

(** After [validateParameters] the keys of the descriptor are present. *)
Lemma validateParameters_keys (d : Descriptor.t) (parameters : gmap string R) :
  validateParameters d parameters = true ->
  Forall (fun key => is_Some (parameters !! key)) (Descriptor.parameters d).
Proof.
  unfold validateParameters.
  destruct (forallb _ (Descriptor.parameters d)) eqn:Hkeys; [|discriminate].
  intros _. apply Forall_forall. intros key Hkey.
  rewrite forallb_forall in Hkeys. apply list_elem_of_In in Hkey.
  specialize (Hkeys key Hkey).
  now apply bool_decide_eq_true_1 in Hkeys.
Qed.

(** The names of the catalogue are distinct: [find] returns the descriptor
    it is asked for. *)
Lemma find_descriptor (d : Descriptor.t) :
  d ∈ availableDistributions ->
  find (fun d' => bool_decide (Descriptor.name d' = Descriptor.name d))
    availableDistributions = Some d.
Proof.
  unfold availableDistributions. rewrite !elem_of_cons, elem_of_nil.
  intros [->|[->|[->|[->|[->|[->|[]]]]]]]; reflexivity.
Qed.

Lemma catalogue_names (name : string) :
  name ∈ Descriptor.name <$> availableDistributions ->
  exists d : Descriptor.t,
    d ∈ availableDistributions /\ Descriptor.name d = name
    /\ name ∈ ["normal"; "uniform"; "binomial"; "poisson"; "exponential";
               "gamma"].
Proof.
  intros H. apply list_elem_of_fmap in H as (d & -> & Hd).
  exists d. split; [exact Hd|]. split; [reflexivity|].
  revert Hd. unfold availableDistributions.
  rewrite !elem_of_cons, !elem_of_nil.
  intros [->|[->|[->|[->|[->|[->|[]]]]]]]; simpl; tauto.
Qed.

Ltac name_cases :=
  repeat match goal with
    | |- context [decide (?a = ?b)] =>
        destruct (decide (a = b)); try discriminate; try congruence
    | |- context [decide (?P \/ ?Q)] =>
        destruct (decide (P \/ Q)) as [[|]|]; try discriminate; try tauto
    end.

Lemma post_calculate_unsupported (name : string) (type : option string)
    (parameters : option (gmap string R)) (x : option R) :
  name ∈ Descriptor.name <$> availableDistributions ->
  (name, default "pdf" type) ∉ evaluations ->
  exists error : string,
    post_calculate name parameters x type = Error 400 error.
Proof.
  intros Hname Htype.
  apply catalogue_names in Hname as (d & Hd & <- & Hname).
  unfold post_calculate. generalize dependent (default "pdf" type).
  clear type. intros type Htype. cbv zeta.
  destruct parameters as [p|]; [|eauto]. destruct x as [x|]; [|eauto].
  rewrite find_descriptor by exact Hd.
  destruct (validateParameters d p); cbn [negb]; [|eauto].
  revert Htype. unfold evaluations.
  rewrite !not_elem_of_cons. intros Htype.
  repeat match goal with H : _ /\ _ |- _ => destruct H end.
  revert Hname. rewrite !elem_of_cons, elem_of_nil.
  intros [E|[E|[E|[E|[E|[E|[]]]]]]]; rewrite E in *; name_cases; eauto.
Qed.

Lemma post_calculate_supported (name type : string) (d : Descriptor.t)
    (parameters : gmap string R) (x : R) :
  d ∈ availableDistributions -> Descriptor.name d = name ->
  validateParameters d parameters = true ->
  (name, type) ∈ evaluations ->
  exists result : R,
    post_calculate name (Some parameters) (Some x) (Some type)
    = Json (Calculation.Make name parameters x type result).
Proof.
  intros Hd <- Hvalid Htype.
  unfold post_calculate. change (default "pdf" (Some type)) with type.
  cbv zeta. rewrite find_descriptor, Hvalid by exact Hd. cbn [negb].
  revert Htype. unfold evaluations. rewrite !elem_of_cons, elem_of_nil.
  intros [E|[E|[E|[E|[E|[E|[E|[E|[E|[E|[E|[]]]]]]]]]]]];
    injection E as -> ->; name_cases; eauto.
Qed.

Lemma validateParameters_gamma (d : Descriptor.t)
    (parameters : gmap string R) (shape rate : R) :
  d ∈ availableDistributions -> Descriptor.name d = "gamma" ->
  parameters !! "shape" = Some shape -> parameters !! "rate" = Some rate ->
  shape > 0 -> rate > 0 ->
  validateParameters d parameters = true.
Proof.
  unfold availableDistributions. rewrite !elem_of_cons, elem_of_nil.
  intros [->|[->|[->|[->|[->|[->|[]]]]]]]; try discriminate.
  intros _ Hshape Hrate Hs Hr. unfold validateParameters.
  cbn [Descriptor.parameters Descriptor.name forallb].
  rewrite Hshape, Hrate.
  rewrite !bool_decide_eq_true_2 by eauto. cbn [andb negb].
  name_cases. unfold num_gt.
  now rewrite !bool_decide_eq_true_2 by assumption.
Qed.

Lemma post_calculate_gamma (parameters : gmap string R) (shape rate x : R)
    (type : string) :
  parameters !! "shape" = Some shape -> parameters !! "rate" = Some rate ->
  shape > 0 -> rate > 0 -> type <> "pdf" ->
  post_calculate "gamma" (Some parameters) (Some x) (Some type)
  = Error 400 "Only PDF calculation available for gamma distribution".
Proof.
  intros Hshape Hrate Hs Hr Htype.
  unfold post_calculate. change (default "pdf" (Some type)) with type.
  cbv zeta.
  destruct (find _ availableDistributions) as [d|] eqn:Hfind;
    [|discriminate].
  assert (Hd : d ∈ availableDistributions /\ Descriptor.name d = "gamma").
  { vm_compute in Hfind. injection Hfind as <-.
    split; [|reflexivity]. unfold availableDistributions.
    rewrite !elem_of_cons. tauto. }
  destruct Hd as [Hd Hname].
  rewrite (validateParameters_gamma d parameters shape rate) by assumption.
  cbn [negb]. name_cases.
Qed.

Lemma post_generate_gamma (parameters : gmap string R) (shape rate : R)
    (count : option R) (s : state) :
  parameters !! "shape" = Some shape -> parameters !! "rate" = Some rate ->
  shape > 0 -> rate > 0 ->
  exists error : string,
    post_generate "gamma" (Some parameters) count s = Some (Error 400 error, s).
Proof.
  intros Hshape Hrate Hs Hr. unfold post_generate. cbv zeta.
  case_decide; [eexists; reflexivity|].
  destruct (find _ availableDistributions) as [d|] eqn:Hfind;
    [|discriminate].
  assert (Hd : d ∈ availableDistributions /\ Descriptor.name d = "gamma").
  { vm_compute in Hfind. injection Hfind as <-.
    split; [|reflexivity]. unfold availableDistributions.
    rewrite !elem_of_cons. tauto. }
  destruct Hd as [Hd Hname].
  rewrite (validateParameters_gamma d parameters shape rate) by assumption.
  cbn [negb]. name_cases. eexists. reflexivity.
Qed.

Lemma post_generate_unsupported (name : string)
    (parameters : option (gmap string R)) (count : option R) (s : state) :
  name ∈ Descriptor.name <$> availableDistributions ->
  name ∉ samplers ->
  exists error : string,
    post_generate name parameters count s = Some (Error 400 error, s).
Proof.
  intros Hname Hsampler.
  apply catalogue_names in Hname as (d & Hd & <- & Hname).
  unfold post_generate. cbv zeta.
  destruct parameters as [p|]; [|eexists; reflexivity].
  case_decide; [eexists; reflexivity|].
  rewrite find_descriptor by exact Hd.
  destruct (validateParameters d p); cbn [negb]; [|eexists; reflexivity].
  revert Hsampler. unfold samplers. rewrite !not_elem_of_cons.
  intros Hsampler.
  repeat match goal with H : _ /\ _ |- _ => destruct H end.
  revert Hname. rewrite !elem_of_cons, elem_of_nil.
  intros [E|[E|[E|[E|[E|[E|[]]]]]]]; rewrite E in *; try congruence.
  name_cases. eexists. reflexivity.
Qed.

(** C9.  With valid parameters, a request to evaluate anything but the
    density of the gamma distribution, and a request to sample from it, are
    answered with status 400, the state untouched; so is every request for
    an evaluation type (the default [pdf] when the request names none), or
    for a sampler, that a distribution of the catalogue does not have. *)
Theorem unsupported_requests_rejected :
  (forall (parameters : gmap string R) (shape rate x : R) (type : string),
      parameters !! "shape" = Some shape -> parameters !! "rate" = Some rate ->
      shape > 0 -> rate > 0 -> type <> "pdf" ->
      post_calculate "gamma" (Some parameters) (Some x) (Some type)
      = Error 400 "Only PDF calculation available for gamma distribution")
  /\ (forall (parameters : gmap string R) (shape rate : R) (count : option R)
        (s : state),
      parameters !! "shape" = Some shape -> parameters !! "rate" = Some rate ->
      shape > 0 -> rate > 0 ->
      exists error : string,
        post_generate "gamma" (Some parameters) count s
        = Some (Error 400 error, s))
  /\ (forall (name : string) (type : option string)
        (parameters : option (gmap string R)) (x : option R),
      name ∈ Descriptor.name <$> availableDistributions ->
      (name, default "pdf" type) ∉ evaluations ->
      exists error : string,
        post_calculate name parameters x type = Error 400 error)
  /\ (forall (name : string) (parameters : option (gmap string R))
        (count : option R) (s : state),
      name ∈ Descriptor.name <$> availableDistributions ->
      name ∉ samplers ->
      exists error : string,
        post_generate name parameters count s = Some (Error 400 error, s)).
Proof.
  split; [exact post_calculate_gamma|].
  split; [exact post_generate_gamma|].
  split; [exact post_calculate_unsupported | exact post_generate_unsupported].
Qed.

Lemma unsupported_requests_rejected_witness :
  post_calculate "gamma" (Some {[ "shape" := 2; "rate" := 1 ]}) (Some 1)
    (Some "cdf")
  = Error 400 "Only PDF calculation available for gamma distribution"
  /\ (exists error : string,
        post_generate "gamma" (Some {[ "shape" := 2; "rate" := 1 ]}) (Some 10)
          (State ∅ [])
        = Some (Error 400 error, State ∅ []))
  /\ (exists error : string,
        post_calculate "normal" (Some {[ "mu" := 0; "sigma" := 1 ]}) (Some 0)
          (Some "pmf")
        = Error 400 error).
Proof.
  destruct unsupported_requests_rejected as (Hcalc & Hgen & Hany & _).
  split; [|split].
  - apply (Hcalc _ 2 1); [reflexivity | reflexivity | lra | lra | discriminate].
  - apply (Hgen _ 2 1); [reflexivity | reflexivity | lra | lra].
  - apply Hany.
    + cbn. apply elem_of_cons. now left.
    + unfold evaluations. rewrite !not_elem_of_cons.
      repeat split; try discriminate. apply not_elem_of_nil.
Defined.

(** *** Confidence intervals *)

Section ConfidenceIntervalFacts.

Variable getZCriticalValue : R -> R.
Variable calculateTwoSampleConfidenceInterval :
  list R -> list R -> R -> Method -> ConfidenceIntervalType ->
  outcome Interval.t.

Let paired := handleCalculate getZCriticalValue
                calculateTwoSampleConfidenceInterval.
Let two_sample := calculate getZCriticalValue
                    calculateTwoSampleConfidenceInterval.

Lemma length_nonempty (l : list R) : l <> [] -> length l <> 0%nat.
Proof. destruct l; [done | discriminate]. Qed.

(** [handleCalculate] with a known variance. *)
Lemma handleCalculate_known (before after : list R) (confidence variance : R)
    (intervalType : ConfidenceIntervalType) :
  before <> [] -> length before = length after -> variance > 0 ->
  let meanDiff := average (pairwise_differences before after) in
  let criticalValue :=
    getZCriticalValue (critical_level intervalType confidence) in
  let marginOfError :=
    criticalValue
    * (sqrt variance / sqrt (INR (length (pairwise_differences before after))))
  in
  paired before after confidence intervalType true (Some variance)
  = Success
      (PairedMeanCI.Result
         (Interval.Make
            match intervalType with
            | OneSidedLower => NegInfinity
            | _ => Finite (meanDiff - marginOfError)
            end
            match intervalType with
            | OneSidedUpper => Infinity
            | _ => Finite (meanDiff + marginOfError)
            end
            marginOfError "配对样本Z检验（方差已知）" criticalValue meanDiff)
         intervalType).
Proof.
  intros Hne Hlen Hvar. apply length_nonempty in Hne.
  unfold paired, handleCalculate.
  rewrite decide_False by (intros [?|?]; lia).
  rewrite decide_False by (intros ?; lia).
  rewrite decide_False by lra.
  destruct intervalType; reflexivity.
Qed.

(** [calculate] with known variances, paired samples. *)
Lemma calculate_known_paired (dataset1 dataset2 : list R)
    (confidenceLevel var1 var2 : R) (intervalType : ConfidenceIntervalType) :
  dataset1 <> [] -> length dataset1 = length dataset2 ->
  var1 > 0 -> var2 > 0 ->
  let meanDiff := average (pairwise_differences dataset1 dataset2) in
  let zCritical :=
    getZCriticalValue (critical_level intervalType confidenceLevel) in
  let marginOfError :=
    zCritical
    * sqrt ((var1 + var2)
            / INR (length (pairwise_differences dataset1 dataset2))) in
  two_sample dataset1 dataset2 confidenceLevel Paired intervalType true
    (Some var1) (Some var2)
  = Success
      (TwoSampleCI.Result
         (Interval.Make
            match intervalType with
            | OneSidedUpper => NegInfinity
            | _ => Finite (meanDiff - marginOfError)
            end
            match intervalType with
            | OneSidedLower => Infinity
            | _ => Finite (meanDiff + marginOfError)
            end
            marginOfError "Paired Samples Z-test (Known Variance)" zCritical
            meanDiff)
         (average dataset1) (average dataset2) (length dataset1)
         (length dataset2) intervalType).
Proof.
  intros Hne Hlen Hvar1 Hvar2. apply length_nonempty in Hne.
  unfold two_sample, calculate.
  rewrite decide_False by (intros [?|?]; lia).
  rewrite decide_False by (intros [_ ?]; lia).
  rewrite !(decide_False (P := _ <= 0)) by lra.
  rewrite decide_True by reflexivity.
  destruct intervalType; reflexivity.
Qed.

(** [calculate] with known variances, independent samples. *)
Lemma calculate_known_independent (dataset1 dataset2 : list R)
    (confidenceLevel var1 var2 : R) (method : Method)
    (intervalType : ConfidenceIntervalType) :
  dataset1 <> [] -> dataset2 <> [] -> method <> Paired ->
  var1 > 0 -> var2 > 0 ->
  let meanDiff := average dataset1 - average dataset2 in
  let zCritical :=
    getZCriticalValue (critical_level intervalType confidenceLevel) in
  let marginOfError :=
    zCritical
    * sqrt (var1 / INR (length dataset1) + var2 / INR (length dataset2)) in
  two_sample dataset1 dataset2 confidenceLevel method intervalType true
    (Some var1) (Some var2)
  = Success
      (TwoSampleCI.Result
         (Interval.Make
            match intervalType with
            | OneSidedUpper => NegInfinity
            | _ => Finite (meanDiff - marginOfError)
            end
            match intervalType with
            | OneSidedLower => Infinity
            | _ => Finite (meanDiff + marginOfError)
            end
            marginOfError
            ("Two Sample Z-test ("
             +:+ (if decide (method = Pooled) then "Pooled" else "Welch")
             +:+ ") with Known Variance")
            zCritical meanDiff)
         (average dataset1) (average dataset2) (length dataset1)
         (length dataset2) intervalType).
Proof.
  intros Hne1 Hne2 Hmethod Hvar1 Hvar2.
  apply length_nonempty in Hne1, Hne2.
  unfold two_sample, calculate.
  rewrite decide_False by (intros [?|?]; lia).
  rewrite decide_False by (intros [? _]; done).
  rewrite !(decide_False (P := _ <= 0)) by lra.
  rewrite decide_False by exact Hmethod.
  destruct intervalType; reflexivity.
Qed.

(** The example of the paired interval. *)
Lemma example_differences :
  pairwise_differences [10; 12; 14] [8; 11; 12] = [10 - 8; 12 - 11; 14 - 12].
Proof. reflexivity. Qed.

Lemma example_mean_difference :
  average (pairwise_differences [10; 12; 14] [8; 11; 12]) = 5 / 3.
Proof. rewrite example_differences. unfold average. simpl. lra. Qed.

(** The two-sample component puts the infinite bound of a one-sided interval
    on the side its type names. *)
Lemma calculate_known_one_sided (dataset1 dataset2 : list R)
    (confidenceLevel var1 var2 : R) (method : Method) :
  dataset1 <> [] -> dataset2 <> [] ->
  (method = Paired -> length dataset1 = length dataset2) ->
  var1 > 0 -> var2 > 0 ->
  exists lo up : TwoSampleCI.result,
    two_sample dataset1 dataset2 confidenceLevel method OneSidedLower true
      (Some var1) (Some var2) = Success lo
    /\ two_sample dataset1 dataset2 confidenceLevel method OneSidedUpper true
         (Some var1) (Some var2) = Success up
    /\ Interval.lower (TwoSampleCI.interval lo)
       = Finite (Interval.meanDiff (TwoSampleCI.interval lo)
                 - Interval.marginOfError (TwoSampleCI.interval lo))
    /\ Interval.upper (TwoSampleCI.interval lo) = Infinity
    /\ Interval.lower (TwoSampleCI.interval up) = NegInfinity
    /\ Interval.upper (TwoSampleCI.interval up)
       = Finite (Interval.meanDiff (TwoSampleCI.interval up)
                 + Interval.marginOfError (TwoSampleCI.interval up)).
Proof.
  intros Hne1 Hne2 Hlen Hvar1 Hvar2. destruct (decide (method = Paired)) as [->|Hm].
  - eexists _, _.
    split; [now apply calculate_known_paired; auto|].
    split; [now apply calculate_known_paired; auto|].
    repeat split.
  - eexists _, _.
    split; [now apply calculate_known_independent|].
    split; [now apply calculate_known_independent|].
    repeat split.
Qed.

(** C1.  In [PairedMeanCI] with a known variance the bounds of the two
    one-sided types are exchanged: for [one-sided-lower] the lower bound is
    [-Infinity] and the upper bound is [meanDiff + marginOfError], and for
    [one-sided-upper] the lower bound is [meanDiff - marginOfError] and the
    upper bound [Infinity]; evaluated on the samples [[10; 12; 14]] and
    [[8; 11; 12]] at level [0.95] and variance [1]. *)
Theorem paired_one_sided_bounds_exchanged :
  exists lo up : PairedMeanCI.result,
    paired [10; 12; 14] [8; 11; 12] 0.95 OneSidedLower true (Some 1)
    = Success lo
    /\ paired [10; 12; 14] [8; 11; 12] 0.95 OneSidedUpper true (Some 1)
       = Success up
    /\ Interval.lower (PairedMeanCI.interval lo) = NegInfinity
    /\ Interval.upper (PairedMeanCI.interval lo)
       = Finite (Interval.meanDiff (PairedMeanCI.interval lo)
                 + Interval.marginOfError (PairedMeanCI.interval lo))
    /\ Interval.lower (PairedMeanCI.interval up)
       = Finite (Interval.meanDiff (PairedMeanCI.interval up)
                 - Interval.marginOfError (PairedMeanCI.interval up))
    /\ Interval.upper (PairedMeanCI.interval up) = Infinity.
Proof.
  eexists _, _.
  split; [apply handleCalculate_known; [discriminate | reflexivity | lra]|].
  split; [apply handleCalculate_known; [discriminate | reflexivity | lra]|].
  repeat split.
Qed.

(** The runs of the example: both components succeed, with mean difference
    [5 / 3] and bounds at the margin on either side of it. *)
Lemma example_two_sample :
  exists r : TwoSampleCI.result,
    two_sample [10; 12; 14] [8; 11; 12] 0.95 Paired TwoSided true (Some 1)
      (Some 1) = Success r
    /\ Interval.meanDiff (TwoSampleCI.interval r) = 5 / 3
    /\ Interval.lower (TwoSampleCI.interval r)
       = Finite (Interval.meanDiff (TwoSampleCI.interval r)
                 - Interval.marginOfError (TwoSampleCI.interval r))
    /\ Interval.upper (TwoSampleCI.interval r)
       = Finite (Interval.meanDiff (TwoSampleCI.interval r)
                 + Interval.marginOfError (TwoSampleCI.interval r)).
Proof.
  eexists.
  split; [apply calculate_known_paired;
          [discriminate | reflexivity | lra | lra]|].
  cbn [TwoSampleCI.interval Interval.meanDiff Interval.lower Interval.upper
       Interval.marginOfError].
  split; [exact example_mean_difference|]. split; reflexivity.
Qed.

Lemma example_paired :
  exists r : PairedMeanCI.result,
    paired [10; 12; 14] [8; 11; 12] 0.95 TwoSided true (Some 1) = Success r
    /\ Interval.meanDiff (PairedMeanCI.interval r) = 5 / 3
    /\ Interval.lower (PairedMeanCI.interval r)
       = Finite (Interval.meanDiff (PairedMeanCI.interval r)
                 - Interval.marginOfError (PairedMeanCI.interval r))
    /\ Interval.upper (PairedMeanCI.interval r)
       = Finite (Interval.meanDiff (PairedMeanCI.interval r)
                 + Interval.marginOfError (PairedMeanCI.interval r)).
Proof.
  eexists.
  split; [apply handleCalculate_known; [discriminate | reflexivity | lra]|].
  cbn [PairedMeanCI.interval Interval.meanDiff Interval.lower Interval.upper
       Interval.marginOfError].
  split; [exact example_mean_difference|]. split; reflexivity.
Qed.

(** C2, as amended.  For [before = [10; 12; 14]], [after = [8; 11; 12]],
    level [0.95] and known variances [1], the mean of the differences is
    [5 / 3], that is [1.667] to three decimals, and the two-sided interval
    of either component is [meanDiff - marginOfError,
    meanDiff + marginOfError]. *)
Theorem paired_example_interval :
  (exists r : TwoSampleCI.result,
      two_sample [10; 12; 14] [8; 11; 12] 0.95 Paired TwoSided true (Some 1)
        (Some 1) = Success r
      /\ Interval.meanDiff (TwoSampleCI.interval r) = 5 / 3
      /\ Rabs (Interval.meanDiff (TwoSampleCI.interval r) - 1.667) <= 0.0005
      /\ Interval.lower (TwoSampleCI.interval r)
         = Finite (Interval.meanDiff (TwoSampleCI.interval r)
                   - Interval.marginOfError (TwoSampleCI.interval r))
      /\ Interval.upper (TwoSampleCI.interval r)
         = Finite (Interval.meanDiff (TwoSampleCI.interval r)
                   + Interval.marginOfError (TwoSampleCI.interval r)))
  /\ (exists r : PairedMeanCI.result,
        paired [10; 12; 14] [8; 11; 12] 0.95 TwoSided true (Some 1) = Success r
        /\ Interval.meanDiff (PairedMeanCI.interval r) = 5 / 3
        /\ Rabs (Interval.meanDiff (PairedMeanCI.interval r) - 1.667) <= 0.0005
        /\ Interval.lower (PairedMeanCI.interval r)
           = Finite (Interval.meanDiff (PairedMeanCI.interval r)
                     - Interval.marginOfError (PairedMeanCI.interval r))
        /\ Interval.upper (PairedMeanCI.interval r)
           = Finite (Interval.meanDiff (PairedMeanCI.interval r)
                     + Interval.marginOfError (PairedMeanCI.interval r))).
Proof.
  split.
  - destruct example_two_sample as (r & Hrun & Hm & Hlo & Hup).
    exists r. split; [exact Hrun|]. split; [exact Hm|].
    split; [rewrite Hm; apply Rabs_le; lra|]. split; assumption.
  - destruct example_paired as (r & Hrun & Hm & Hlo & Hup).
    exists r. split; [exact Hrun|]. split; [exact Hm|].
    split; [rewrite Hm; apply Rabs_le; lra|]. split; assumption.
Qed.


End ConfidenceIntervalFacts.

(** C2, as stated, fails: whatever the two imported functions are, neither
    component computes a mean difference that is [2.333] to three decimals
    on the samples of the example. *)
Lemma paired_example_mean_difference_not_2333 :
  ~ (exists (getZCriticalValue : R -> R)
       (calculateTwoSampleConfidenceInterval :
          list R -> list R -> R -> Method -> ConfidenceIntervalType ->
          outcome Interval.t),
        (exists r : TwoSampleCI.result,
            calculate getZCriticalValue calculateTwoSampleConfidenceInterval
              [10; 12; 14] [8; 11; 12] 0.95 Paired TwoSided true (Some 1)
              (Some 1) = Success r
            /\ Rabs (Interval.meanDiff (TwoSampleCI.interval r) - 2.333)
               <= 0.0005)
        \/ (exists r : PairedMeanCI.result,
              handleCalculate getZCriticalValue
                calculateTwoSampleConfidenceInterval
                [10; 12; 14] [8; 11; 12] 0.95 TwoSided true (Some 1)
              = Success r
              /\ Rabs (Interval.meanDiff (PairedMeanCI.interval r) - 2.333)
                 <= 0.0005)).
Proof.
  intros (getZ & calc & [(r & Hrun & Hmean) | (r & Hrun & Hmean)]).
  - destruct (example_two_sample getZ calc) as (r' & Hrun' & Hm & _).
    rewrite Hrun in Hrun'. injection Hrun' as ->.
    rewrite Hm in Hmean. unfold Rabs in Hmean.
    destruct (Rcase_abs _); lra.
  - destruct (example_paired getZ calc) as (r' & Hrun' & Hm & _).
    rewrite Hrun in Hrun'. injection Hrun' as ->.
    rewrite Hm in Hmean. unfold Rabs in Hmean.
    destruct (Rcase_abs _); lra.
Qed.


(** ** Part III: further properties of the code *)

(** *** [erf] and [normalCDF] *)

(** The polynomial of [erf] stays between [0] and [1] on [[0, 1]]. *)
Lemma erf_polynomial_bounds (t : R) :
  0 <= t <= 1 ->
  0 <= ((((1.061405429 * t + -1.453152027) * t + 1.421413741) * t
         + -0.284496736) * t + 0.254829592) * t <= 1.
Proof.
  intros [H0 H1]. split.
  - apply Rmult_le_pos; [|exact H0].
    pose proof (pow2_ge_0 (1.03 * (t * t) - 0.7055 * t + 0.448)).
    assert (0 <= t * t) by nra.
    assert (0 <= t * t * t) by nra.
    assert (0 <= t * t * t * t) by nra.
    nra.
  - assert (Hq : 0 <= 1.061405429 * (t * t * t * t)
                      - 0.391746598 * (t * t * t)
                      + 1.029667143 * (t * t) + 0.745170407 * t
                      + 0.999999999).
    { pose proof (pow2_ge_0 (t * t - t)).
      assert (0 <= t * t) by nra. assert (0 <= t * t * t * t) by nra. nra. }
    assert (Hprod : 0 <= (1 - t)
                         * (1.061405429 * (t * t * t * t)
                            - 0.391746598 * (t * t * t)
                            + 1.029667143 * (t * t) + 0.745170407 * t
                            + 0.999999999)).
    { apply Rmult_le_pos; [lra | exact Hq]. }
    nra.
Qed.

Lemma erf_nonneg_arg (x : R) : 0 <= x -> 0 <= erf x <= 1.
Proof.
  intros Hx. unfold erf. rewrite decide_True by lra. rewrite Rabs_pos_eq by exact Hx.
  set (t := 1.0 / (1.0 + 0.3275911 * x)).
  assert (Ht : 0 <= t <= 1).
  { unfold t. assert (0 < 1.0 + 0.3275911 * x) by nra. split.
    - apply Rlt_le, Rdiv_lt_0_compat; lra.
    - apply Rmult_le_reg_r with (1.0 + 0.3275911 * x); [lra|].
      field_simplify; nra. }
  pose proof (erf_polynomial_bounds t Ht) as [Hp0 Hp1].
  assert (He : 0 < exp (- x * x) <= 1).
  { split; [apply exp_pos|]. rewrite <- exp_0.
    destruct (Req_dec (- x * x) 0) as [->|Hne]; [lra|].
    apply Rlt_le, exp_increasing. nra. }
  nra.
Qed.

Lemma erf_opp (x : R) : x <> 0 -> erf (- x) = - erf x.
Proof.
  intros Hx. unfold erf. rewrite Rabs_Ropp.
  destruct (Rlt_le_dec x 0) as [Hneg|Hpos].
  - rewrite (decide_True (P := - x >= 0)) by lra.
    rewrite (decide_False (P := x >= 0)) by lra. lra.
  - rewrite (decide_False (P := - x >= 0)) by lra.
    rewrite (decide_True (P := x >= 0)) by lra. lra.
Qed.

Lemma erf_range (x : R) : -1 <= erf x <= 1.
Proof.
  destruct (Rle_lt_dec 0 x) as [Hx|Hx].
  - pose proof (erf_nonneg_arg x Hx). lra.
  - pose proof (erf_nonneg_arg (- x) ltac:(lra)) as H.
    rewrite erf_opp in H by lra. lra.
Qed.

(** X1.  [erf] is odd away from [0]: [erf (- x) = - erf x] for [x <> 0];
    at [0] it is not, since [erf 0] is [1e-9] on either sign of zero. *)
Theorem erf_odd_away_from_zero :
  (forall x : R, x <> 0 -> erf (- x) = - erf x) /\ erf (- 0) <> - erf 0.
Proof.
  split; [exact erf_opp|]. rewrite Ropp_0, erf_0. lra.
Qed.

Lemma erf_odd_away_from_zero_witness : erf (- 2) = - erf 2.
Proof. apply erf_odd_away_from_zero. lra. Defined.

(** X2.  [erf] takes its values in [[-1, 1]], in [[0, 1]] on a non-negative
    argument, and [normalCDF] takes its values in [[0, 1]], whatever the
    mean and the deviation, zero apart. *)
Theorem normalCDF_range (x mu sigma : R) :
  -1 <= erf x <= 1 /\ (0 <= x -> 0 <= erf x) /\
  (sigma <> 0 -> 0 <= normalCDF x mu sigma <= 1).
Proof.
  split; [apply erf_range|]. split; [intros Hx; now apply erf_nonneg_arg|].
  intros _. unfold normalCDF. cbv zeta.
  pose proof (erf_range ((x - mu) / sigma / sqrt 2)). lra.
Qed.

Lemma normalCDF_range_witness : 0 <= erf 1.
Proof. destruct (normalCDF_range 1 0 1) as (_ & H & _). apply H. lra. Defined.




(** *** The uniform and the exponential distribution *)

Lemma uniformCDF_cases (x a b : R) :
  a < b ->
  (x < a /\ uniformCDF x a b = 0)
  \/ (a <= x <= b /\ uniformCDF x a b = (x - a) / (b - a))
  \/ (b < x /\ uniformCDF x a b = 1).
Proof.
  intros Hab. unfold uniformCDF.
  destruct (decide (x < a)); [left; split; [lra | reflexivity]|].
  destruct (decide (x > b)); [right; right; split; [lra | reflexivity]|].
  right; left. split; [lra | reflexivity].
Qed.

Lemma quotient_unit_interval (x a b : R) :
  a < b -> a <= x <= b -> 0 <= (x - a) / (b - a) <= 1.
Proof.
  intros Hab Hx. split.
  - apply Rmult_le_pos; [lra|]. apply Rlt_le, Rinv_0_lt_compat. lra.
  - apply Rmult_le_reg_r with (b - a); [lra|]. field_simplify; lra.
Qed.

(** X5.  For [a < b], [uniformCDF] is a distribution function: its values
    lie in [[0, 1]], it does not decrease, it is [0] at [a] and [1] at [b]. *)
Theorem uniformCDF_distribution (a b : R) :
  a < b ->
  (forall x : R, 0 <= uniformCDF x a b <= 1)
  /\ (forall x y : R, x <= y -> uniformCDF x a b <= uniformCDF y a b)
  /\ uniformCDF a a b = 0 /\ uniformCDF b a b = 1.
Proof.
  intros Hab.
  assert (Hrange : forall x : R, 0 <= uniformCDF x a b <= 1).
  { intros x.
    destruct (uniformCDF_cases x a b Hab) as [[_ ->]|[[Hx ->]|[_ ->]]];
      [lra | now apply quotient_unit_interval | lra]. }
  split; [exact Hrange|]. split.
  - intros x y Hxy.
    destruct (uniformCDF_cases x a b Hab) as [[Hx Ex]|[[Hx Ex]|[Hx Ex]]];
      destruct (uniformCDF_cases y a b Hab) as [[Hy Ey]|[[Hy Ey]|[Hy Ey]]];
      rewrite Ex, Ey; try lra;
      try (pose proof (quotient_unit_interval x a b Hab Hx));
      try (pose proof (quotient_unit_interval y a b Hab Hy)); try lra.
    apply Rmult_le_compat_r; [|lra].
    apply Rlt_le, Rinv_0_lt_compat. lra.
  - split.
    + destruct (uniformCDF_cases a a b Hab) as [[? _]|[[_ ->]|[? _]]];
        try lra; unfold Rdiv; rewrite Rminus_diag; lra.
    + destruct (uniformCDF_cases b a b Hab) as [[? _]|[[_ ->]|[? _]]];
        try lra; field; lra.
Qed.

Lemma uniformCDF_distribution_witness :
  uniformCDF 0.5 0 1 <= uniformCDF 0.75 0 1.
Proof.
  destruct (uniformCDF_distribution 0 1 ltac:(lra)) as (_ & Hmono & _).
  apply Hmono. lra.
Defined.

Lemma exponentialCDF_cases (x lambda : R) :
  (x < 0 /\ exponentialCDF x lambda = 0 /\ exponentialPDF x lambda = 0)
  \/ (0 <= x /\ exponentialCDF x lambda = 1 - exp (- lambda * x)
      /\ exponentialPDF x lambda = lambda * exp (- lambda * x)).
Proof.
  unfold exponentialCDF, exponentialPDF.
  destruct (decide (x < 0)); [left | right]; repeat split; lra.
Qed.

(** *** Pascal's rule in binary64 *)

(** X9.  In binary64, as long as [comb] is exact, it obeys Pascal's rule and
    is symmetric: for integers [0 <= k < n <= 53] the sum of [comb n k] and
    [comb n (k + 1)], which is not rounded, is [comb (n + 1) (k + 1)], and
    [comb n (n - k)] is [comb n k]. *)
Theorem comb_pascal_binary64 (n k : Z) :
  (0 <= k < n)%Z -> (n <= 53)%Z ->
  exists a b : float,
    Binary64.comb (Binary64.of_Z n) (Binary64.of_Z k) = Some a
    /\ Binary64.comb (Binary64.of_Z n) (Binary64.of_Z (k + 1)) = Some b
    /\ Binary64.comb (Binary64.of_Z (n + 1)) (Binary64.of_Z (k + 1))
       = Some (a + b)%float
    /\ Binary64.comb (Binary64.of_Z n) (Binary64.of_Z (n - k)) = Some a.
Proof.
  intros Hk Hn.
  set (rule := fun n k : Z =>
         match Binary64.comb (Binary64.of_Z n) (Binary64.of_Z k),
               Binary64.comb (Binary64.of_Z n) (Binary64.of_Z (k + 1)),
               Binary64.comb (Binary64.of_Z (n + 1)) (Binary64.of_Z (k + 1)),
               Binary64.comb (Binary64.of_Z n) (Binary64.of_Z (n - k)) with
         | Some a, Some b, Some c, Some a' =>
             match Prim2SF c, Prim2SF (a + b)%float, Prim2SF a, Prim2SF a' with
             | S754_finite false m e, S754_finite false m' e',
               S754_finite false ma ea, S754_finite false ma' ea' =>
                 (m =? m')%positive && (e =? e')%Z
                 && (ma =? ma')%positive && (ea =? ea')%Z
             | _, _, _, _ => false
             end
         | _, _, _, _ => false
         end).
  assert (Hall : forallb (fun n => forallb (rule n) (seqZ 0 n)) (seqZ 0 54)
                 = true) by (vm_compute; reflexivity).
  assert (Hn' : (0 <= n < 0 + 54)%Z) by lia.
  assert (Hk' : (0 <= k < 0 + n)%Z) by lia.
  pose proof (forallb_seqZ _ 0 54 Hall n Hn') as Hrow. cbv beta in Hrow.
  pose proof (forallb_seqZ _ 0 n Hrow k Hk') as Hrule. unfold rule in Hrule.
  clear Hall Hrow rule.
  destruct (Binary64.comb (Binary64.of_Z n) (Binary64.of_Z k)) as [a|];
    [|discriminate Hrule].
  destruct (Binary64.comb (Binary64.of_Z n) (Binary64.of_Z (k + 1))) as [b|];
    [|discriminate Hrule].
  destruct (Binary64.comb (Binary64.of_Z (n + 1)) (Binary64.of_Z (k + 1)))
    as [c|]; [|discriminate Hrule].
  destruct (Binary64.comb (Binary64.of_Z n) (Binary64.of_Z (n - k)))
    as [a'|]; [|discriminate Hrule].
  destruct (Prim2SF c) as [| | |[] m e] eqn:Hc; try discriminate Hrule.
  destruct (Prim2SF (a + b)%float) as [| | |[] m' e'] eqn:Hab;
    try discriminate Hrule.
  destruct (Prim2SF a) as [| | |[] ma ea] eqn:Ha; try discriminate Hrule.
  destruct (Prim2SF a') as [| | |[] ma' ea'] eqn:Ha'; try discriminate Hrule.
  apply andb_prop in Hrule as [Hrule Hea].
  apply andb_prop in Hrule as [Hrule Hma].
  apply andb_prop in Hrule as [Hm He].
  apply Pos.eqb_eq in Hm, Hma. apply Z.eqb_eq in He, Hea. subst.
  exists a, b. repeat split.
  - f_equal. apply Prim2SF_inj. now rewrite Hc, Hab.
  - f_equal. apply Prim2SF_inj. now rewrite Ha, Ha'.
Qed.

Lemma comb_pascal_binary64_witness :
  exists a b : float,
    Binary64.comb (Binary64.of_Z 4) (Binary64.of_Z 1) = Some a
    /\ Binary64.comb (Binary64.of_Z 4) (Binary64.of_Z (1 + 1)) = Some b
    /\ Binary64.comb (Binary64.of_Z (4 + 1)) (Binary64.of_Z (1 + 1))
       = Some (a + b)%float
    /\ Binary64.comb (Binary64.of_Z 4) (Binary64.of_Z (4 - 1)) = Some a.
Proof. apply (comb_pascal_binary64 4 1); lia. Defined.

(** *** The discrete distributions *)

Lemma for_loop_ext {A : Type} (test test' : Z -> bool) (body : Z -> A -> A) :
  (forall j : Z, test j = test' j) ->
  forall (fuel : nat) (i : Z) (acc : A),
    for_loop fuel test body i acc = for_loop fuel test' body i acc.
Proof.
  intros Hext. induction fuel as [|fuel IH]; intros i acc; simpl;
    [reflexivity|]. rewrite Hext. destruct (test' i); [apply IH | reflexivity].
Qed.

Lemma le_floor (j : Z) (n : R) : IZR j <= n <-> IZR j <= IZR (Zfloor n).
Proof.
  destruct (Zfloor_bound n) as [Hlo Hhi]. split; intros H; [|lra].
  apply IZR_le, Zfloor_lub, H.
Qed.

(** The loop of a cumulative function adds the terms of the integer ranks up
    to the integer part of its bound, none when the bound is negative. *)
Lemma fold_left_seqZ_sum (f : R -> R) (k : nat) :
  fold_left (fun sum j => sum + f (IZR j)) (seqZ 0 (Z.of_nat (S k))) 0
  = sum_f_R0 (fun i => f (INR i)) k.
Proof.
  induction k as [|k IH].
  - simpl. rewrite Rplus_0_l. reflexivity.
  - rewrite seqZ_S, fold_left_app, IH. simpl fold_left.
    rewrite Z.add_0_l, <- INR_IZR_INZ. reflexivity.
Qed.

Lemma cumulative_loop (f : R -> R) (x : R) :
  for_loop (rounds x) (fun i => bool_decide (IZR i <= x))
    (fun i sum => sum + f (IZR i)) 0 0
  = if decide (x < 0) then 0
    else sum_f_R0 (fun i => f (INR i)) (Z.to_nat (Zfloor x)).
Proof.
  destruct (Zfloor_bound x) as [Hlo Hhi]. case_decide as Hx.
  - unfold rounds. simpl. rewrite bool_decide_eq_false_2 by lra. reflexivity.
  - assert (Hm : (0 <= Zfloor x)%Z) by (apply Zfloor_lub; lra).
    rewrite (for_loop_ext _ (fun i => bool_decide (IZR i <= IZR (Zfloor x))))
      by (intros j; apply bool_decide_ext, le_floor).
    replace (rounds x) with (rounds (IZR (Zfloor x)))
      by (unfold rounds; now rewrite ZfloorZ).
    rewrite for_loop_le by lia.
    replace (Zfloor x + 1 - 0)%Z with (Z.of_nat (S (Z.to_nat (Zfloor x))))
      by lia.
    apply fold_left_seqZ_sum.
Qed.

Lemma binomialCDF_sum (x n p : R) :
  binomialCDF x n p
  = if decide (x < 0) then 0
    else sum_f_R0 (fun i => binomialPMF (INR i) n p) (Z.to_nat (Zfloor x)).
Proof.
  unfold binomialCDF. apply (cumulative_loop (fun k => binomialPMF k n p)).
Qed.

Lemma binomialPMF_above (k n p : R) : k > n -> binomialPMF k n p = 0.
Proof. intros Hk. unfold binomialPMF. rewrite decide_True; [reflexivity|]. now right. Qed.

(** X11.  [binomialCDF x n p] adds the values of [binomialPMF] at the ranks
    [0], [1], ... up to the integer part of [x], in this order: it is [0]
    for a negative [x], and the value of [binomialPMF] at the rank [0] for
    [0 <= x < 1].  The ranks above [n] add [0], the value of [binomialPMF]
    there. *)
Theorem binomialCDF_partial_sums (x n p : R) :
  (x < 0 -> binomialCDF x n p = 0)
  /\ (0 <= x ->
      binomialCDF x n p
      = sum_f_R0 (fun i => binomialPMF (INR i) n p) (Z.to_nat (Zfloor x)))
  /\ (0 <= x < 1 -> binomialCDF x n p = binomialPMF 0 n p)
  /\ (forall k : R, k > n -> binomialPMF k n p = 0).
Proof.
  split; [intros Hx; rewrite binomialCDF_sum; now rewrite decide_True|].
  split; [intros Hx; rewrite binomialCDF_sum; now rewrite decide_False by lra|].
  split; [|intros k; apply binomialPMF_above].
  intros Hx. rewrite binomialCDF_sum, decide_False by lra.
  replace (Zfloor x) with 0%Z by (symmetry; apply Zfloor_eq; simpl; lra).
  reflexivity.
Qed.

Lemma poissonCDF_sum (x lambda : R) :
  poissonCDF x lambda
  = if decide (x < 0) then 0
    else sum_f_R0 (fun i => poissonPMF (INR i) lambda) (Z.to_nat (Zfloor x)).
Proof.
  unfold poissonCDF. apply (cumulative_loop (fun k => poissonPMF k lambda)).
Qed.

(** X12.  [poissonCDF x lambda] adds the values of [poissonPMF] at the ranks
    [0], [1], ... up to the integer part of [x], in this order: it is [0]
    for a negative [x], and below [1] it is the value at the rank [0], which
    is [exp (- lambda)]. *)
Theorem poissonCDF_partial_sums (x lambda : R) :
  (x < 0 -> poissonCDF x lambda = 0)
  /\ (0 <= x ->
      poissonCDF x lambda
      = sum_f_R0 (fun i => poissonPMF (INR i) lambda) (Z.to_nat (Zfloor x)))
  /\ poissonPMF 0 lambda = exp (- lambda)
  /\ (0 <= x < 1 -> poissonCDF x lambda = exp (- lambda)).
Proof.
  assert (Hzero : poissonPMF 0 lambda = exp (- lambda)).
  { unfold poissonPMF, factorial. rewrite decide_False by lra.
    rewrite decide_False by lra. rewrite decide_True by now left.
    unfold Math_pow, Math_floor. rewrite (ZfloorZ 0).
    rewrite decide_True by reflexivity. simpl. lra. }
  split; [intros Hx; rewrite poissonCDF_sum; now rewrite decide_True|].
  split; [intros Hx; rewrite poissonCDF_sum; now rewrite decide_False by lra|].
  split; [exact Hzero|].
  intros Hx. rewrite poissonCDF_sum, decide_False by lra.
  replace (Zfloor x) with 0%Z by (symmetry; apply Zfloor_eq; simpl; lra).
  exact Hzero.
Qed.

(** *** Descriptive statistics *)

Lemma Sorted_lookup_le (l : list R) (i j : nat) (a b : R) :
  Sorted Rle l -> l !! i = Some a -> l !! j = Some b -> (i <= j)%nat -> a <= b.
Proof.
  intros Hsorted. apply Sorted_StronglySorted in Hsorted; [|apply _].
  revert i j. induction Hsorted as [|x l Hl IH Hx]; intros i j Hi Hj Hij.
  - now rewrite lookup_nil in Hi.
  - destruct i as [|i], j as [|j]; simpl in Hi, Hj.
    + assert (a = b) by congruence. lra.
    + injection Hi as <-. rewrite Forall_forall in Hx.
      apply Hx, (list_elem_of_lookup_2 _ j), Hj.
    + lia.
    + apply (IH i j); [assumption..|lia].
Qed.

Lemma order_statistics_Sorted (l : list R) : Sorted Rle (order_statistics l).
Proof. rewrite <- sort_by_order_statistics. apply sort_by_Sorted. Qed.

Lemma order_statistics_Permutation (l : list R) : order_statistics l ≡ₚ l.
Proof. rewrite <- sort_by_order_statistics. apply sort_by_Permutation. Qed.

Lemma order_statistics_lookup (l : list R) (i : nat) :
  (i < length l)%nat ->
  exists x : R, order_statistics l !! i = Some x /\ x ∈ l.
Proof.
  intros Hi. rewrite <- length_order_statistics in Hi.
  apply lookup_lt_is_Some in Hi as [x Hx]. exists x. split; [exact Hx|].
  rewrite <- (order_statistics_Permutation l).
  apply (list_elem_of_lookup_2 _ i), Hx.
Qed.

Lemma summary_min (l : list R) : min (summary l) = order_statistics l !! 0%nat.
Proof.
  unfold summary. cbn [min]. rewrite sort_by_order_statistics.
  change 0 with (INR 0). apply elem_INR.
Qed.

Lemma summary_max (l : list R) :
  l <> [] -> max (summary l) = order_statistics l !! (length l - 1)%nat.
Proof.
  intros Hl. unfold summary. cbn [max]. rewrite sort_by_order_statistics.
  change 1 with (INR 1). rewrite <- minus_INR; [apply elem_INR|].
  destruct l; [congruence | simpl; lia].
Qed.

Lemma length_positive (l : list R) : l <> [] -> 0 < INR (length l).
Proof.
  intros Hl. apply lt_0_INR. destruct l; [congruence | simpl; lia].
Qed.

Lemma five_numbers (l : list R) :
  l <> [] ->
  exists a b c d e : R,
    min (summary l) = Some a /\ q1 (summary l) = Some b
    /\ median (summary l) = Some c /\ q3 (summary l) = Some d
    /\ max (summary l) = Some e
    /\ a <= b /\ b <= c /\ c <= d /\ d <= e
    /\ a ∈ l /\ b ∈ l /\ d ∈ l /\ e ∈ l
    /\ (forall x : R, x ∈ l -> a <= x <= e).
Proof.
  intros Hl.
  assert (Hn : (0 < length l)%nat) by (destruct l; [congruence | simpl; lia]).
  pose proof (order_statistics_Sorted l) as Hsorted.
  destruct (order_statistics_lookup l 0%nat) as (a & Ha & Hal); [lia|].
  destruct (order_statistics_lookup l (length l / 4)%nat) as (b & Hb & Hbl).
  { apply Nat.Div0.div_lt_upper_bound. lia. }
  destruct (order_statistics_lookup l (3 * length l / 4)%nat) as (d & Hd & Hdl).
  { apply Nat.Div0.div_lt_upper_bound. lia. }
  destruct (order_statistics_lookup l (length l - 1)%nat) as (e & He & Hel); [lia|].
  assert (Hq1 : (length l / 4 <= (length l - 1) / 2)%nat).
  { apply Nat.div_le_lower_bound; [lia|].
    pose proof (Nat.Div0.mul_div_le (length l) 4).
    destruct (Nat.eq_dec (length l / 4)%nat 0%nat) as [Hq|Hq]; [lia|].
    assert (4 <= length l)%nat by lia. lia. }
  assert (Hq3 : (length l / 2 <= 3 * length l / 4)%nat).
  { apply Nat.div_le_lower_bound; [lia|].
    pose proof (Nat.Div0.mul_div_le (length l) 2). lia. }
  assert (Hmedian : exists c : R,
             sample_median l = Some c /\ b <= c /\ c <= d).
  { unfold sample_median. cbv zeta.
    destruct (Nat.even (length l)) eqn:Heven.
    - apply Nat.even_spec in Heven as [m Hm].
      assert (Hhalf : (length l / 2 = m)%nat)
        by (rewrite Hm, Nat.mul_comm; apply Nat.div_mul; lia).
      destruct (order_statistics_lookup l (length l / 2 - 1)%nat) as (u & Hu & _);
        [lia|].
      destruct (order_statistics_lookup l (length l / 2)%nat) as (v & Hv & _);
        [lia|].
      rewrite Hu, Hv. simpl. exists ((u + v) / 2). split; [reflexivity|].
      assert (b <= u).
      { apply (Sorted_lookup_le _ _ _ _ _ Hsorted Hb Hu).
        assert ((length l - 1) / 2 = m - 1)%nat as Hpred.
        { symmetry. apply (Nat.div_unique _ _ _ 1); lia. }
        lia. }
      assert (u <= v)
        by (apply (Sorted_lookup_le _ _ _ _ _ Hsorted Hu Hv); lia).
      assert (v <= d)
        by (apply (Sorted_lookup_le _ _ _ _ _ Hsorted Hv Hd); lia).
      lra.
    - destruct (order_statistics_lookup l ((length l - 1) / 2)%nat)
        as (c & Hc & _).
      { apply Nat.Div0.div_lt_upper_bound. lia. }
      exists c. split; [exact Hc|]. split.
      + apply (Sorted_lookup_le _ _ _ _ _ Hsorted Hb Hc). exact Hq1.
      + apply (Sorted_lookup_le _ _ _ _ _ Hsorted Hc Hd).
        etransitivity; [|exact Hq3]. apply Nat.Div0.div_le_mono. lia. }
  destruct Hmedian as (c & Hc & Hbc & Hcd).
  assert (Hrange : forall x : R, x ∈ l -> a <= x <= e).
  { intros x Hx. rewrite <- (order_statistics_Permutation l) in Hx.
    apply list_elem_of_lookup_1 in Hx as [i Hi].
    pose proof (lookup_lt_Some _ _ _ Hi) as Hlt.
    rewrite length_order_statistics in Hlt. split.
    - apply (Sorted_lookup_le _ _ _ _ _ Hsorted Ha Hi). lia.
    - apply (Sorted_lookup_le _ _ _ _ _ Hsorted Hi He). lia. }
  exists a, b, c, d, e.
  rewrite summary_min, summary_max by exact Hl.
  destruct (summary_q1 l Hl) as [-> _]. destruct (summary_q3 l Hl) as [-> _].
  destruct (summary_median l Hl) as [-> _].
  unfold first_quartile, third_quartile.
  split; [exact Ha|]. split; [exact Hb|]. split; [exact Hc|].
  split; [exact Hd|]. split; [exact He|].
  split; [apply (Sorted_lookup_le _ _ _ _ _ Hsorted Ha Hb); lia|].
  split; [exact Hbc|]. split; [exact Hcd|]. split.
  { apply (Sorted_lookup_le _ _ _ _ _ Hsorted Hd He).
    assert (3 * length l / 4 < length l)%nat; [|lia].
    apply Nat.Div0.div_lt_upper_bound. lia. }
  auto.
Qed.

(** X13.  On a non-empty array [calculateStats] returns five order
    statistics that are in order, [min <= q1 <= median <= q3 <= max]; [min]
    and [max] are the least and the greatest element of the array and the
    quartiles are elements of it. *)
Theorem calculateStats_five_numbers (s : state) (data : loc) (l : list R) :
  heap s !! data = Some l -> l <> [] ->
  exists (st : stats) (s' : state) (a b c d e : R),
    calculateStats data s = Some (st, s')
    /\ min st = Some a /\ q1 st = Some b /\ median st = Some c
    /\ q3 st = Some d /\ max st = Some e
    /\ a <= b /\ b <= c /\ c <= d /\ d <= e
    /\ a ∈ l /\ b ∈ l /\ d ∈ l /\ e ∈ l
    /\ (forall x : R, x ∈ l -> a <= x <= e).
Proof.
  intros Hdata Hl.
  destruct (five_numbers l Hl) as (a & b & c & d & e & H).
  eexists _, _, a, b, c, d, e.
  split; [apply calculateStats_run, Hdata | exact H].
Qed.

Lemma calculateStats_five_numbers_witness :
  exists (st : stats) (s' : state),
    calculateStats 0%nat (State {[ 0%nat := [4; 1; 3] ]} []) = Some (st, s')
    /\ exists a c e : R,
         min st = Some a /\ median st = Some c /\ max st = Some e
         /\ a <= c <= e.
Proof.
  destruct (calculateStats_five_numbers (State {[ 0%nat := [4; 1; 3] ]} [])
              0%nat [4; 1; 3])
    as (st & s' & a & b & c & d & e & Hrun & Ha & _ & Hc & _ & He & Hab & Hbc
        & Hcd & Hde & _).
  - reflexivity.
  - discriminate.
  - exists st, s'. split; [exact Hrun|]. exists a, c, e.
    repeat split; try assumption; lra.
Defined.

Lemma total_nonneg (l : list R) :
  (forall y : R, y ∈ l -> 0 <= y) -> 0 <= total l.
Proof.
  unfold total. induction l as [|y l IH]; intros Hl; simpl; [lra|].
  pose proof (Hl y ltac:(left)).
  pose proof (IH (fun z Hz => Hl z ltac:(now right))). lra.
Qed.

Lemma total_zeros (l : list R) :
  (forall y : R, y ∈ l -> y = 0) -> total l = 0.
Proof.
  unfold total. induction l as [|y l IH]; intros Hl; simpl; [reflexivity|].
  rewrite (Hl y) by left. rewrite IH; [lra|].
  intros z Hz. apply Hl. now right.
Qed.

Lemma variance_facts (l : list R) :
  l <> [] ->
  0 <= variance (summary l)
  /\ stdDev (summary l) = sqrt (variance (summary l))
  /\ 0 <= stdDev (summary l)
  /\ ((forall x : R, x ∈ l -> x = mean (summary l)) ->
      variance (summary l) = 0 /\ stdDev (summary l) = 0).
Proof.
  intros Hl. pose proof (length_positive l Hl) as Hn.
  assert (Hstd : stdDev (summary l) = sqrt (variance (summary l)))
    by reflexivity.
  rewrite Hstd, summary_variance, summary_mean. unfold population_variance.
  set (m := sample_mean l).
  set (squares := (fun x => (x - m) * (x - m)) <$> l).
  assert (Hsq : forall y : R, y ∈ squares -> 0 <= y).
  { intros y Hy. apply list_elem_of_fmap in Hy as (x & -> & _).
    pose proof (pow2_ge_0 (x - m)). cbv beta. lra. }
  pose proof (total_nonneg squares Hsq) as Hpos.
  assert (Hvar : 0 <= total squares / INR (length l))
    by (apply Rmult_le_pos; [exact Hpos | apply Rlt_le, Rinv_0_lt_compat, Hn]).
  split; [exact Hvar|]. split; [reflexivity|].
  split; [apply sqrt_pos|].
  intros Hall.
  assert (Hzero : total squares / INR (length l) = 0).
  { rewrite total_zeros; [unfold Rdiv; lra|].
    intros y Hy. apply list_elem_of_fmap in Hy as (x & -> & Hx).
    rewrite (Hall x Hx). lra. }
  rewrite Hzero. split; [reflexivity | apply sqrt_0].
Qed.

(** The statistics of an array of one number. *)
Lemma summary_singleton (x : R) :
  summary [x] = Stats x (Some x) 0 0 (Some x) (Some x) (Some x) (Some x) 1.
Proof.
  assert (Hmean : mean (summary [x]) = x)
    by (rewrite summary_mean; unfold sample_mean, total; simpl; field).
  destruct (variance_facts [x] ltac:(discriminate)) as (_ & _ & _ & Hzero).
  destruct Hzero as [Hvar Hstd].
  { intros y Hy. apply list_elem_of_singleton in Hy. now rewrite Hmean. }
  destruct (summary_median [x] ltac:(discriminate)) as [Hmedian _].
  destruct (summary_q1 [x] ltac:(discriminate)) as [Hq1 _].
  destruct (summary_q3 [x] ltac:(discriminate)) as [Hq3 _].
  pose proof (summary_min [x]) as Hmin.
  pose proof (summary_max [x] ltac:(discriminate)) as Hmax.
  assert (Hcount : count (summary [x]) = 1%nat) by reflexivity.
  assert (Horder : order_statistics [x] = [x]).
  { apply (Sorted_unique Rle).
    - apply order_statistics_Sorted.
    - repeat constructor.
    - apply order_statistics_Permutation. }
  destruct (summary [x]) as [m md v sd mn mx qa qc n].
  cbn [mean median variance stdDev min max q1 q3 count] in *.
  unfold sample_median, first_quartile, third_quartile in *.
  rewrite Horder in *. simpl in Hmedian, Hq1, Hq3, Hmin, Hmax.
  now subst.
Qed.

(** X14.  On a non-empty array the variance [calculateStats] returns is not
    negative and the standard deviation is its square root, not negative
    either; both are [0] when every element equals the mean.  On an array
    of one number [x] the mean, the median, the extremes and the quartiles
    are [x], and the variance and the standard deviation are [0]. *)
Theorem calculateStats_variance (s : state) (data : loc) (l : list R) :
  heap s !! data = Some l -> l <> [] ->
  exists (st : stats) (s' : state),
    calculateStats data s = Some (st, s')
    /\ 0 <= variance st
    /\ stdDev st = sqrt (variance st)
    /\ 0 <= stdDev st
    /\ ((forall x : R, x ∈ l -> x = mean st) ->
        variance st = 0 /\ stdDev st = 0)
    /\ (forall x : R,
          l = [x] ->
          st = Stats x (Some x) 0 0 (Some x) (Some x) (Some x) (Some x) 1).
Proof.
  intros Hdata Hl. eexists _, _.
  split; [apply calculateStats_run, Hdata|].
  destruct (variance_facts l Hl) as (Hvar & Hstd & Hpos & Hzero).
  repeat (split; [assumption|]).
  intros x ->. apply summary_singleton.
Qed.

Lemma calculateStats_variance_witness :
  exists (st : stats) (s' : state),
    calculateStats 0%nat (State {[ 0%nat := [2] ]} []) = Some (st, s')
    /\ 0 <= variance st
    /\ st = Stats 2 (Some 2) 0 0 (Some 2) (Some 2) (Some 2) (Some 2) 1.
Proof.
  destruct (calculateStats_variance (State {[ 0%nat := [2] ]} [])
              0%nat [2])
    as (st & s' & Hrun & Hvar & _ & _ & _ & Hone).
  - reflexivity.
  - discriminate.
  - exists st, s'. split; [exact Hrun|]. split; [exact Hvar|].
    now apply Hone.
Defined.

Lemma order_statistics_unique (l l' : list R) :
  l ≡ₚ l' -> order_statistics l = order_statistics l'.
Proof.
  intros Hperm. apply (Sorted_unique Rle).
  - apply order_statistics_Sorted.
  - apply order_statistics_Sorted.
  - now rewrite !order_statistics_Permutation.
Qed.

(** The statistics read in the sorted copy are those of any arrangement of
    the data. *)
Lemma summary_Permutation (l l' : list R) :
  l ≡ₚ l' ->
  median (summary l) = median (summary l')
  /\ min (summary l) = min (summary l')
  /\ max (summary l) = max (summary l')
  /\ q1 (summary l) = q1 (summary l')
  /\ q3 (summary l) = q3 (summary l')
  /\ count (summary l) = count (summary l').
Proof.
  intros Hperm. unfold summary. cbv zeta.
  cbn [median min max q1 q3 count].
  rewrite !sort_by_order_statistics, (order_statistics_unique l l' Hperm).
  rewrite (Permutation_length Hperm). repeat split.
Qed.

(** X15.  The statistics that are read in the sorted copy do not depend on
    the order of the data: on two non-empty arrays that hold the same
    numbers, each as often as the other, [calculateStats] returns the same
    median, minimum, maximum, quartiles and count. *)
Theorem calculateStats_order_independent (s1 s2 : state) (data1 data2 : loc)
    (l1 l2 : list R) :
  heap s1 !! data1 = Some l1 -> heap s2 !! data2 = Some l2 ->
  l1 <> [] -> l1 ≡ₚ l2 ->
  exists (st1 st2 : stats) (s1' s2' : state),
    calculateStats data1 s1 = Some (st1, s1')
    /\ calculateStats data2 s2 = Some (st2, s2')
    /\ median st1 = median st2
    /\ min st1 = min st2 /\ max st1 = max st2
    /\ q1 st1 = q1 st2 /\ q3 st1 = q3 st2
    /\ count st1 = count st2.
Proof.
  intros H1 H2 _ Hperm. eexists _, _, _, _.
  split; [apply calculateStats_run, H1|].
  split; [apply calculateStats_run, H2|].
  apply summary_Permutation, Hperm.
Qed.

Lemma calculateStats_order_independent_witness :
  exists (st1 st2 : stats) (s1' s2' : state),
    calculateStats 0%nat (State {[ 0%nat := [3; 1; 2] ]} []) = Some (st1, s1')
    /\ calculateStats 0%nat (State {[ 0%nat := [1; 2; 3] ]} [])
       = Some (st2, s2')
    /\ median st1 = median st2.
Proof.
  destruct (calculateStats_order_independent
              (State {[ 0%nat := [3; 1; 2] ]} [])
              (State {[ 0%nat := [1; 2; 3] ]} []) 0%nat 0%nat
              [3; 1; 2] [1; 2; 3])
    as (st1 & st2 & s1' & s2' & Hrun1 & Hrun2 & Hmedian & _).
  - reflexivity.
  - reflexivity.
  - discriminate.
  - apply (Permutation_cons_app [1; 2] [] 3 (reflexivity [1; 2])).
  - now exists st1, st2, s1', s2'.
Defined.

(** *** The handlers *)

Lemma catalogue_cases (d : Descriptor.t) :
  d ∈ availableDistributions ->
  Descriptor.name d ∈ ["normal"; "uniform"; "binomial"; "poisson";
                        "exponential"; "gamma"].
Proof.
  intros Hd.
  destruct (catalogue_names (Descriptor.name d)) as (_ & _ & _ & H);
    [|exact H].
  apply list_elem_of_fmap. now exists d.
Qed.

Lemma find_catalogue (name : string) (d : Descriptor.t) :
  find (fun d' => bool_decide (Descriptor.name d' = name))
    availableDistributions = Some d ->
  d ∈ availableDistributions /\ Descriptor.name d = name.
Proof.
  intros Hfind. apply find_some in Hfind as [Hin Hname].
  split; [now apply list_elem_of_In | now apply bool_decide_eq_true_1 in Hname].
Qed.

Lemma find_catalogue_none (name : string) :
  find (fun d' => bool_decide (Descriptor.name d' = name))
    availableDistributions = None ->
  name ∉ Descriptor.name <$> availableDistributions.
Proof.
  intros Hfind Hname. apply list_elem_of_fmap in Hname as (d & -> & Hd).
  now rewrite find_descriptor in Hfind.
Qed.

Lemma num_gt_true (a b : option R) :
  num_gt a b = true <-> exists u v : R, a = Some u /\ b = Some v /\ u > v.
Proof.
  unfold num_gt. destruct a as [u|], b as [v|];
    try (split; [discriminate | intros (? & ? & ? & ? & ?); discriminate]).
  rewrite bool_decide_eq_true. split.
  - intros H. now exists u, v.
  - intros (? & ? & [= ->] & [= ->] & H). exact H.
Qed.

Lemma num_ge_true (a b : option R) :
  num_ge a b = true <-> exists u v : R, a = Some u /\ b = Some v /\ u >= v.
Proof.
  unfold num_ge. destruct a as [u|], b as [v|];
    try (split; [discriminate | intros (? & ? & ? & ? & ?); discriminate]).
  rewrite bool_decide_eq_true. split.
  - intros H. now exists u, v.
  - intros (? & ? & [= ->] & [= ->] & H). exact H.
Qed.

Lemma num_le_true (a b : option R) :
  num_le a b = true <-> exists u v : R, a = Some u /\ b = Some v /\ u <= v.
Proof.
  unfold num_le. destruct a as [u|], b as [v|];
    try (split; [discriminate | intros (? & ? & ? & ? & ?); discriminate]).
  rewrite bool_decide_eq_true. split.
  - intros H. now exists u, v.
  - intros (? & ? & [= ->] & [= ->] & H). exact H.
Qed.

Lemma Number_isInteger_true (v : R) :
  Number_isInteger v = true <-> exists k : Z, v = IZR k.
Proof.
  unfold Number_isInteger, Math_floor. rewrite bool_decide_eq_true. split.
  - intros H. now exists (Zfloor v).
  - intros [k ->]. now rewrite ZfloorZ.
Qed.

Lemma present_true (v : R) : bool_decide (is_Some (Some v)) = true.
Proof. apply bool_decide_eq_true_2. eauto. Qed.

Lemma present_false : bool_decide (is_Some (@None R)) = false.
Proof. apply bool_decide_eq_false_2, is_Some_None. Qed.

#[local] Set Warnings "-clear-no-such-hyp".

Ltac validation :=
  rewrite ?present_true, ?present_false; cbn [negb andb from_option];
  rewrite ?andb_true_iff, ?Number_isInteger_true, ?num_gt_true, ?num_ge_true,
    ?num_le_true.

(** What [validateParameters] has checked when it answers [true], for each
    distribution of the catalogue. *)
Lemma validateParameters_true (d : Descriptor.t) (p : gmap string R) :
  d ∈ availableDistributions ->
  validateParameters d p = true <->
  (Descriptor.name d = "normal"
   /\ exists mu sigma : R,
        p !! "mu" = Some mu /\ p !! "sigma" = Some sigma /\ sigma > 0)
  \/ (Descriptor.name d = "uniform"
      /\ exists a b : R, p !! "a" = Some a /\ p !! "b" = Some b /\ b > a)
  \/ (Descriptor.name d = "binomial"
      /\ exists (n pr : R) (k : Z),
           p !! "n" = Some n /\ p !! "p" = Some pr
           /\ n = IZR k /\ n > 0 /\ 0 <= pr <= 1)
  \/ ((Descriptor.name d = "poisson" \/ Descriptor.name d = "exponential")
      /\ exists lambda : R, p !! "lambda" = Some lambda /\ lambda > 0)
  \/ (Descriptor.name d = "gamma"
      /\ exists shape rate : R,
           p !! "shape" = Some shape /\ p !! "rate" = Some rate
           /\ shape > 0 /\ rate > 0).
Proof.
  unfold availableDistributions. rewrite !elem_of_cons, elem_of_nil.
  intros [->|[->|[->|[->|[->|[->|[]]]]]]];
    unfold validateParameters;
    cbn [Descriptor.parameters Descriptor.name forallb];
    name_cases.
  - destruct (p !! "mu") as [mu|], (p !! "sigma") as [sigma|]; validation;
      naive_solver.
  - destruct (p !! "a") as [a|], (p !! "b") as [b|]; validation;
      naive_solver.
  - destruct (p !! "n") as [trials|], (p !! "p") as [pr|]; validation;
      naive_solver lra.
  - destruct (p !! "lambda") as [lambda|]; validation; naive_solver.
  - destruct (p !! "lambda") as [lambda|]; validation; naive_solver.
  - destruct (p !! "shape") as [shape|], (p !! "rate") as [rate|]; validation;
      naive_solver.
Qed.

(** X16.  [validateParameters] accepts the parameters of a distribution of
    the catalogue exactly when they meet the constraints its descriptor
    lists: every constrained parameter is present, [">0"] is positive,
    [">a"] exceeds the parameter [a], ["integer>0"] is a positive integer
    and ["0<=p<=1"] lies in the unit interval. *)
Theorem validateParameters_constraints (d : Descriptor.t)
    (parameters : gmap string R) :
  d ∈ availableDistributions ->
  validateParameters d parameters = true <-> admissible d parameters.
Proof.
  intros Hd. rewrite (validateParameters_true d parameters Hd).
  revert Hd. unfold availableDistributions.
  rewrite !elem_of_cons, elem_of_nil.
  intros [->|[->|[->|[->|[->|[->|[]]]]]]];
    unfold admissible; cbn [Descriptor.constraints Descriptor.name];
    rewrite !Forall_cons, Forall_nil; cbn [fst snd]; unfold meets;
    name_cases; naive_solver.
Qed.

Lemma validateParameters_constraints_witness :
  validateParameters
    (Descriptor.Make "uniform" "Uniform Distribution"
       "Constant probability over a specified range"
       ["a"; "b"] [("a", "any"); ("b", ">a")])
    {[ "a" := 1; "b" := 3 ]} = true.
Proof.
  apply validateParameters_constraints.
  - unfold availableDistributions. rewrite !elem_of_cons. tauto.
  - unfold admissible. cbn [Descriptor.constraints].
    rewrite !Forall_cons, Forall_nil. cbn [fst snd]. unfold meets.
    split; [|split; [|exact I]].
    + exists 1. split; [reflexivity|]. name_cases. exact I.
    + exists 3. split; [reflexivity|]. name_cases.
      exists 1. split; [reflexivity | lra].
Defined.

(** X17.  The catalogue is consistent: the names of its descriptors are
    distinct, so that the search by name of the two handlers returns the
    descriptor of that name and no other, and each descriptor lists a
    constraint for each of its parameters, in their order. *)
Theorem catalogue_consistent :
  NoDup (Descriptor.name <$> availableDistributions)
  /\ (forall d : Descriptor.t,
        d ∈ availableDistributions ->
        find (fun d' => bool_decide (Descriptor.name d' = Descriptor.name d))
          availableDistributions = Some d
        /\ fst <$> Descriptor.constraints d = Descriptor.parameters d)
  /\ (forall (name : string) (d : Descriptor.t),
        find (fun d' => bool_decide (Descriptor.name d' = name))
          availableDistributions = Some d ->
        d ∈ availableDistributions /\ Descriptor.name d = name).
Proof.
  split; [|split].
  - unfold availableDistributions. cbn [fmap list_fmap Descriptor.name].
    repeat (apply NoDup_cons_2;
            [rewrite ?not_elem_of_cons; repeat split; try discriminate;
             apply not_elem_of_nil|]).
    apply NoDup_nil_2.
  - intros d Hd. split; [now apply find_descriptor|].
    revert Hd. unfold availableDistributions.
    rewrite !elem_of_cons, elem_of_nil.
    intros [->|[->|[->|[->|[->|[->|[]]]]]]]; reflexivity.
  - intros name d. apply find_catalogue.
Qed.

Lemma catalogue_consistent_witness :
  exists d : Descriptor.t,
    find (fun d' => bool_decide (Descriptor.name d' = "poisson"))
      availableDistributions = Some d
    /\ Descriptor.name d = "poisson".
Proof.
  destruct catalogue_consistent as (_ & _ & H).
  eexists. split; [reflexivity|].
  eapply H. reflexivity.
Defined.

Lemma normalCDF_unit (x mu sigma : R) : 0 <= normalCDF x mu sigma <= 1.
Proof.
  unfold normalCDF. cbv zeta.
  pose proof (erf_range ((x - mu) / sigma / sqrt 2)). lra.
Qed.

Lemma uniformCDF_unit (x a b : R) : a < b -> 0 <= uniformCDF x a b <= 1.
Proof.
  intros Hab.
  destruct (uniformCDF_cases x a b Hab) as [[_ ->]|[[Hx ->]|[_ ->]]];
    [lra | now apply quotient_unit_interval | lra].
Qed.

Lemma exponentialCDF_unit (x lambda : R) :
  lambda > 0 -> 0 <= exponentialCDF x lambda <= 1.
Proof.
  intros Hlambda.
  destruct (exponentialCDF_cases x lambda) as [(_ & -> & _)|(Hx & -> & _)];
    [lra|].
  pose proof (exp_pos (- lambda * x)).
  assert (exp (- lambda * x) <= 1); [|lra].
  rewrite <- exp_0. destruct (Req_dec (- lambda * x) 0) as [->|Hne]; [lra|].
  left. apply exp_increasing. nra.
Qed.

Lemma lookup_total_Some (p : gmap string R) (key : string) (v : R) :
  p !! key = Some v -> p !!! key = v.
Proof. intros H. now rewrite lookup_total_alt, H. Qed.

(** X18.  A successful answer of [/calculate] to a request of type ["cdf"]
    for the normal, the uniform or the exponential distribution carries a
    probability: whatever the point, the parameters that
    [validateParameters] lets through make [result] a number of [[0, 1]]. *)
Theorem post_calculate_cdf_probability (name : string)
    (parameters : option (gmap string R)) (x : option R)
    (type : option string) (body : Calculation.t) :
  name ∈ ["normal"; "uniform"; "exponential"] ->
  post_calculate name parameters x type = Json body ->
  Calculation.type body = "cdf" ->
  0 <= Calculation.result body <= 1.
Proof.
  intros Hname. unfold post_calculate. generalize (default "pdf" type). clear type.
  intros type. cbv zeta.
  destruct parameters as [p|]; [|discriminate].
  destruct x as [x|]; [|discriminate].
  destruct (find _ availableDistributions) as [d|] eqn:Hfind; [|discriminate].
  apply find_catalogue in Hfind as [Hd <-].
  destruct (validateParameters d p) eqn:Hvalid; [|discriminate].
  cbn [negb]. revert Hname.
  apply (validateParameters_true d p Hd) in Hvalid
    as [(-> & mu & sigma & Hmu & Hsigma & ?)
       |[(-> & a & b & Ha & Hb & ?)
        |[(-> & n & pr & k & Hn & Hp & Hk & ? & ?)
         |[([->| ->] & lambda & Hlambda & ?)
          |(-> & shape & rate & Hshape & Hrate & ? & ?)]]]];
    intros Hname; name_cases; intros [= <-];
    cbn [Calculation.type Calculation.result]; intros ?; try congruence.
  - apply normalCDF_unit.
  - rewrite (lookup_total_Some p "a" a Ha), (lookup_total_Some p "b" b Hb).
    apply uniformCDF_unit. lra.
  - exfalso. revert Hname. rewrite !elem_of_cons, elem_of_nil.
    intros [E|[E|[E|[]]]]; discriminate E.
  - exfalso. revert Hname. rewrite !elem_of_cons, elem_of_nil.
    intros [E|[E|[E|[]]]]; discriminate E.
  - rewrite (lookup_total_Some p "lambda" lambda Hlambda).
    now apply exponentialCDF_unit.
Qed.

Lemma post_calculate_cdf_probability_witness :
  exists body : Calculation.t,
    post_calculate "uniform" (Some {[ "a" := 0; "b" := 2 ]}) (Some 1)
      (Some "cdf") = Json body
    /\ 0 <= Calculation.result body <= 1.
Proof.
  destruct (post_calculate_supported "uniform" "cdf"
              (Descriptor.Make "uniform" "Uniform Distribution"
                 "Constant probability over a specified range"
                 ["a"; "b"] [("a", "any"); ("b", ">a")])
              {[ "a" := 0; "b" := 2 ]} 1) as [result Hbody].
  - unfold availableDistributions. rewrite !elem_of_cons. tauto.
  - reflexivity.
  - apply validateParameters_true.
    + unfold availableDistributions. rewrite !elem_of_cons. tauto.
    + right. left. split; [reflexivity|]. exists 0, 2.
      split; [reflexivity|]. split; [reflexivity | lra].
  - unfold evaluations. rewrite !elem_of_cons. tauto.
  - eexists. split; [exact Hbody|].
    refine (post_calculate_cdf_probability "uniform" _ _ _ _ _ Hbody eq_refl).
    rewrite !elem_of_cons. tauto.
Defined.

(** X19.  The answers of [/calculate].  A request without parameters or
    without a point is answered 400, whatever its distribution; otherwise an
    unknown distribution is answered 404 and a distribution of the catalogue
    400 or with a payload, never 404.  A payload repeats the request, names
    the evaluation type that was used (["pdf"] when the request names none),
    and that type is one the distribution has. *)
Theorem post_calculate_answers (name : string)
    (parameters : option (gmap string R)) (x : option R)
    (type : option string) :
  match post_calculate name parameters x type with
  | Error status error =>
      (status = 400%nat /\ error = "Missing parameters or x value"
       /\ (parameters = None \/ x = None))
      \/ (status = 404%nat /\ is_Some parameters /\ is_Some x
          /\ name ∉ Descriptor.name <$> availableDistributions)
      \/ (status = 400%nat /\ is_Some parameters /\ is_Some x
          /\ name ∈ Descriptor.name <$> availableDistributions)
  | Json body =>
      parameters = Some (Calculation.parameters body)
      /\ x = Some (Calculation.x body)
      /\ Calculation.distribution body = name
      /\ Calculation.type body = default "pdf" type
      /\ (name, Calculation.type body) ∈ evaluations
      /\ exists d : Descriptor.t,
           d ∈ availableDistributions /\ Descriptor.name d = name
           /\ validateParameters d (Calculation.parameters body) = true
  end.
Proof.
  unfold post_calculate. generalize (default "pdf" type). clear type.
  intros type. cbv zeta.
  destruct parameters as [p|]; [|left; auto].
  destruct x as [x|]; [|left; auto].
  destruct (find _ availableDistributions) as [d|] eqn:Hfind.
  - apply find_catalogue in Hfind as [Hd <-].
    assert (Hname : Descriptor.name d ∈ Descriptor.name <$> availableDistributions)
      by (apply list_elem_of_fmap; now exists d).
    destruct (validateParameters d p) eqn:Hvalid; cbn [negb];
      [|right; right; eauto].
    pose proof (catalogue_cases d Hd) as Hcases. revert Hcases.
    rewrite !elem_of_cons, elem_of_nil.
    intros [E|[E|[E|[E|[E|[E|[]]]]]]]; rewrite E in *; name_cases;
      try (right; right; now eauto);
      cbn [Calculation.parameters Calculation.x Calculation.distribution
             Calculation.type];
      subst type;
      (repeat split; [unfold evaluations; rewrite !elem_of_cons; tauto|]);
      exists d; auto.
  - apply find_catalogue_none in Hfind. right. left. eauto.
Qed.

Lemma heap_frame (h : gmap loc (list R)) (a : loc) (l l' : list R) :
  h !! a = Some l -> <[fresh (dom h) := l']> h !! a = Some l.
Proof.
  intros Ha. rewrite lookup_insert_ne; [done|]. now apply fresh_loc_other with l.
Qed.

Lemma post_describe_run (a : loc) (l : list R) (s : state) :
  heap s !! a = Some l ->
  post_describe (Some a) s
  = if decide (length l = 0%nat)
    then Some (Error 400 "Invalid or empty dataset", s)
    else Some (Json (Description.Make (length l) (summary l)),
               State (<[fresh (dom (heap s))
                        := sort_by (fun a b => a - b) l]> (heap s)) (tape s)).
Proof.
  intros Ha. unfold post_describe.
  rewrite run_bind, (array_length_run a l) by exact Ha.
  case_decide; [reflexivity|].
  rewrite run_bind, (calculateStats_run s a l) by exact Ha.
  rewrite run_bind, (array_length_run a l) by (now apply heap_frame).
  reflexivity.
Qed.

(** X20.  The answers of [/api/stats/describe].  A request without an array
    and a request with an empty one are answered 400 and leave the state as
    it was.  On a non-empty array the handler answers with the statistics of
    [calculateStats] and the length of the array, which is also the [count]
    of the statistics; the arrays of the heap and the tape are as before. *)
Theorem post_describe_answers (data : option loc) (s : state) :
  (forall a : loc, data = Some a -> is_Some (heap s !! a)) ->
  exists (answer : response Description.t) (s' : state),
    post_describe data s = Some (answer, s')
    /\ tape s' = tape s
    /\ (forall (a : loc) (l : list R),
          heap s !! a = Some l -> heap s' !! a = Some l)
    /\ match answer with
       | Error status error =>
           status = 400%nat /\ error = "Invalid or empty dataset" /\ s' = s
           /\ (data = None
               \/ exists a : loc, data = Some a /\ heap s !! a = Some [])
       | Json body =>
           exists (a : loc) (l : list R),
             data = Some a /\ heap s !! a = Some l /\ l <> []
             /\ calculateStats a s = Some (Description.statistics body, s')
             /\ Description.dataLength body = length l
             /\ count (Description.statistics body)
                = Description.dataLength body
       end.
Proof.
  intros Hdata. destruct data as [a|].
  - destruct (Hdata a eq_refl) as [l Hl].
    rewrite (post_describe_run a l s Hl). case_decide as Hlen.
    + eexists _, _. split; [reflexivity|]. split; [reflexivity|].
      split; [auto|]. split; [reflexivity|]. split; [reflexivity|].
      split; [reflexivity|]. right. exists a. split; [reflexivity|].
      apply length_zero_iff_nil in Hlen. now subst l.
    + eexists _, _. split; [reflexivity|]. split; [reflexivity|].
      split; [intros a' l' Ha'; now apply heap_frame|].
      exists a, l. split; [reflexivity|]. split; [exact Hl|].
      split; [intros ->; now apply Hlen|].
      split; [now apply calculateStats_run|]. split; reflexivity.
  - eexists _, _. split; [reflexivity|]. split; [reflexivity|].
    split; [auto|]. split; [reflexivity|]. split; [reflexivity|].
    split; [reflexivity|]. now left.
Qed.

Lemma post_describe_answers_witness :
  exists (answer : response Description.t) (s' : state),
    post_describe (Some 0%nat) (State {[ 0%nat := [3; 1; 2] ]} [])
    = Some (answer, s')
    /\ tape s' = [].
Proof.
  destruct (post_describe_answers (Some 0%nat)
              (State {[ 0%nat := [3; 1; 2] ]} []))
    as (answer & s' & Hrun & Htape & _).
  - intros a [= <-]. exists [3; 1; 2]. apply lookup_singleton_eq.
  - now exists answer, s'.
Defined.

(** *** The samplers *)

(** When each round goes through and takes an invariant [P k] to
    [P (k + 1)], the loop goes through and takes [P 0] to [P (ceil count)]. *)
Lemma for_loopM_rounds {A : Type} (P : nat -> A -> state -> Prop)
    (body : Z -> A -> JS A) (count : R) :
  (forall (k : nat) (a : A) (s : state),
      (k < Z.to_nat (Zceil count))%nat -> P k a s ->
      exists (a' : A) (s' : state),
        body (Z.of_nat k) a s = Some (a', s') /\ P (S k) a' s') ->
  forall (acc : A) (s : state),
    P 0%nat acc s ->
    exists (acc' : A) (s' : state),
      for_loopM (rounds count) (fun i => bool_decide (IZR i < count)) body
        0 acc s = Some (acc', s')
      /\ P (Z.to_nat (Zceil count)) acc' s'.
Proof.
  intros Hbody.
  assert (Hloop : forall (m k fuel : nat) (acc : A) (s : state),
             (k + m = Z.to_nat (Zceil count))%nat -> (m <= fuel)%nat ->
             P k acc s ->
             exists (acc' : A) (s' : state),
               for_loopM fuel (fun i => bool_decide (IZR i < count)) body
                 (Z.of_nat k) acc s = Some (acc', s')
               /\ P (Z.to_nat (Zceil count)) acc' s').
  { induction m as [|m IH]; intros k fuel acc s Hk Hfuel HP.
    - rewrite Nat.add_0_r in Hk. subst k. exists acc, s.
      split; [|exact HP]. destruct fuel as [|fuel]; [reflexivity|].
      cbn [for_loopM].
      now rewrite bool_decide_eq_false_2 by apply rounds_test_false.
    - destruct fuel as [|fuel]; [lia|]. cbn [for_loopM].
      rewrite bool_decide_eq_true_2 by (apply rounds_test_true; lia).
      destruct (Hbody k acc s ltac:(lia) HP) as (a' & s1 & Hrun & HP').
      rewrite run_bind, Hrun.
      replace (Z.of_nat k + 1)%Z with (Z.of_nat (S k)) by lia.
      apply IH; [lia | lia | exact HP']. }
  intros acc s HP.
  apply (Hloop (Z.to_nat (Zceil count)) 0%nat);
    [reflexivity | apply rounds_ceil | exact HP].
Qed.

(** A sampler that makes one draw a value and pushes [f] of it fills a new
    array with [f] of the first [ceil count] draws. *)
Lemma draw_and_push (f : R -> R) (count : R) (s : state) :
  (Z.to_nat (Zceil count) <= length (tape s))%nat ->
  (data ← new_array [];
   _ ← for_loopM (rounds count) (fun i => bool_decide (IZR i < count))
         (fun i _ => u ← Math_random; push data (f u)) 0 tt;
   mret data) s
  = Some (fresh (dom (heap s)),
          State (<[fresh (dom (heap s))
                   := f <$> take (Z.to_nat (Zceil count)) (tape s)]> (heap s))
            (drop (Z.to_nat (Zceil count)) (tape s))).
Proof.
  intros Htape. destruct s as [h t]. cbn [heap tape] in *.
  set (data := fresh (dom h)). set (n := Z.to_nat (Zceil count)) in *.
  rewrite run_bind. unfold new_array. cbn [heap tape]. fold data.
  destruct (for_loopM_rounds
              (fun k _ s' => s' = State (<[data := f <$> take k t]> h)
                                    (drop k t))
              (fun i _ => u ← Math_random; push data (f u)) count)
    with (acc := tt) (s := State (<[data := []]> h) t)
    as ([] & s' & Hrun & ->).
  - fold n. intros k [] s' Hk ->.
    destruct (lookup_lt_is_Some_2 t k ltac:(lia)) as [u Hu].
    exists tt. eexists. split; [|reflexivity].
    rewrite run_bind. unfold Math_random. cbn [tape heap].
    rewrite (drop_S t u k Hu).
    rewrite (push_run data (f u) (f <$> take k t))
      by (cbn [heap]; apply lookup_insert_eq).
    cbn [heap tape]. rewrite insert_insert_eq.
    rewrite (take_S_r t k u Hu), fmap_app. reflexivity.
  - reflexivity.
  - rewrite run_bind, Hrun. reflexivity.
Qed.

Lemma generateUniform_run (a b count : R) (s : state) :
  (Z.to_nat (Zceil count) <= length (tape s))%nat ->
  generateUniform a b count s
  = Some (fresh (dom (heap s)),
          State (<[fresh (dom (heap s))
                   := (fun u => a + u * (b - a))
                        <$> take (Z.to_nat (Zceil count)) (tape s)]> (heap s))
            (drop (Z.to_nat (Zceil count)) (tape s))).
Proof. apply (draw_and_push (fun u => a + u * (b - a))). Qed.

Lemma generateExponential_run (lambda count : R) (s : state) :
  (Z.to_nat (Zceil count) <= length (tape s))%nat ->
  generateExponential lambda count s
  = Some (fresh (dom (heap s)),
          State (<[fresh (dom (heap s))
                   := (fun u => - ln (1 - u) / lambda)
                        <$> take (Z.to_nat (Zceil count)) (tape s)]> (heap s))
            (drop (Z.to_nat (Zceil count)) (tape s))).
Proof. apply (draw_and_push (fun u => - ln (1 - u) / lambda)). Qed.

Lemma Forall_take_fmap (P Q : R -> Prop) (f : R -> R) (n : nat) (t : list R) :
  (forall u : R, P u -> Q (f u)) -> Forall P t -> Forall Q (f <$> take n t).
Proof.
  intros HPQ Ht. apply Forall_fmap, Forall_take.
  eapply Forall_impl; [exact Ht | exact HPQ].
Qed.

(** X21.  [generateUniform] on a tape with at least [ceil count] draws
    returns a new array with [ceil count] values, one for each draw consumed,
    in the order of the draws: the value of the draw [u] is
    [a + u * (b - a)].  With draws in [[0, 1)] and [a < b] no value is below
    [a]. *)
Theorem generateUniform_values (a b count : R) (s : state) :
  (Z.to_nat (Zceil count) <= length (tape s))%nat ->
  exists (data : loc) (s' : state) (l : list R),
    generateUniform a b count s = Some (data, s')
    /\ heap s !! data = None /\ heap s' !! data = Some l
    /\ l = (fun u => a + u * (b - a)) <$> take (Z.to_nat (Zceil count)) (tape s)
    /\ length l = Z.to_nat (Zceil count)
    /\ tape s' = drop (Z.to_nat (Zceil count)) (tape s)
    /\ (a < b -> Forall (fun u => 0 <= u < 1) (tape s) ->
        Forall (fun v => a <= v) l).
Proof.
  intros Htape. eexists _, _, _.
  split; [now apply generateUniform_run|].
  split; [apply fresh_loc_unused|].
  split; [cbn [heap]; apply lookup_insert_eq|].
  split; [reflexivity|].
  split; [rewrite length_fmap, length_take; lia|].
  split; [reflexivity|].
  intros Hab. apply Forall_take_fmap. intros u Hu. nra.
Qed.

Lemma generateUniform_values_witness :
  exists (data : loc) (s' : state),
    generateUniform 2 4 1.5 (State ∅ [0.5; 0.25; 0.75]) = Some (data, s')
    /\ heap s' !! data = Some [3; 2.5] /\ tape s' = [0.75].
Proof.
  assert (Hceil : Zceil 1.5 = 2%Z) by (apply Zceil_eq; simpl; lra).
  destruct (generateUniform_values 2 4 1.5 (State ∅ [0.5; 0.25; 0.75]))
    as (data & s' & l & Hrun & _ & Hdata & Hl & _ & Htape & _).
  - rewrite Hceil. simpl. lia.
  - exists data, s'. split; [exact Hrun|].
    rewrite Hceil in Hl, Htape. simpl in Hl, Htape.
    split; [|exact Htape]. rewrite Hdata, Hl. f_equal.
    f_equal; [lra|]. f_equal. lra.
Defined.

Lemma exponential_value_nonneg (lambda u : R) :
  lambda > 0 -> 0 <= u < 1 -> 0 <= - ln (1 - u) / lambda.
Proof.
  intros Hlambda [Hu0 Hu1].
  assert (Hln : ln (1 - u) <= 0).
  { destruct (Req_dec u 0) as [->|Hne].
    - rewrite Rminus_0_r, ln_1. lra.
    - left. rewrite <- ln_1. apply ln_increasing; lra. }
  apply Rmult_le_pos; [lra|]. apply Rlt_le, Rinv_0_lt_compat, Hlambda.
Qed.

(** X22.  [generateExponential] with [lambda > 0], on a tape with at least
    [ceil count] draws, all in [[0, 1)], returns a new array with the value
    [- ln (1 - u) / lambda] of each of the first [ceil count] draws [u], in
    their order.  No value is negative, and the draw [0] gives the value
    [0]. *)
Theorem generateExponential_values (lambda count : R) (s : state) :
  lambda > 0 -> Forall (fun u => 0 <= u < 1) (tape s) ->
  (Z.to_nat (Zceil count) <= length (tape s))%nat ->
  exists (data : loc) (s' : state) (l : list R),
    generateExponential lambda count s = Some (data, s')
    /\ heap s !! data = None /\ heap s' !! data = Some l
    /\ l = (fun u => - ln (1 - u) / lambda)
             <$> take (Z.to_nat (Zceil count)) (tape s)
    /\ length l = Z.to_nat (Zceil count)
    /\ tape s' = drop (Z.to_nat (Zceil count)) (tape s)
    /\ Forall (fun v => 0 <= v) l
    /\ - ln (1 - 0) / lambda = 0.
Proof.
  intros Hlambda Hdraws Htape. eexists _, _, _.
  split; [now apply generateExponential_run|].
  split; [apply fresh_loc_unused|].
  split; [cbn [heap]; apply lookup_insert_eq|].
  split; [reflexivity|].
  split; [rewrite length_fmap, length_take; lia|].
  split; [reflexivity|].
  split.
  - revert Hdraws. apply Forall_take_fmap. intros u Hu.
    now apply exponential_value_nonneg.
  - rewrite Rminus_0_r, ln_1. unfold Rdiv. lra.
Qed.

Lemma generateExponential_values_witness :
  exists (data : loc) (s' : state),
    generateExponential 2 1 (State ∅ [0; 0.5]) = Some (data, s')
    /\ heap s' !! data = Some [0] /\ tape s' = [0.5].
Proof.
  assert (Hceil : Zceil 1 = 1%Z) by (apply Zceil_eq; simpl; lra).
  destruct (generateExponential_values 2 1 (State ∅ [0; 0.5]))
    as (data & s' & l & Hrun & _ & Hdata & Hl & _ & Htape & _ & Hzero).
  - lra.
  - cbn [tape]. repeat (apply Forall_cons_2; [lra|]). apply Forall_nil_2.
  - rewrite Hceil. simpl. lia.
  - exists data, s'. split; [exact Hrun|].
    rewrite Hceil in Hl, Htape. simpl in Hl, Htape.
    split; [|exact Htape]. rewrite Hdata, Hl. now rewrite Hzero.
Defined.

Lemma successes_snoc (p u : R) (draws : list R) :
  successes p (draws ++ [u])
  = if decide (u < p) then (successes p draws + 1)%Z else successes p draws.
Proof.
  unfold successes. rewrite filter_app, length_app.
  case_decide as Hu.
  - rewrite filter_cons_True by exact Hu. simpl. lia.
  - rewrite filter_cons_False by exact Hu. simpl. lia.
Qed.

Lemma successes_bounds (p : R) (draws : list R) :
  (0 <= successes p draws <= Z.of_nat (length draws))%Z.
Proof.
  unfold successes. pose proof (length_filter (fun u => u < p) draws). lia.
Qed.

(** The trials of one value: [ceil n] draws, counted when below [p]. *)
Lemma binomial_trials (n p : R) (h : gmap loc (list R)) (t : list R) :
  (Z.to_nat (Zceil n) <= length t)%nat ->
  for_loopM (rounds n) (fun j => bool_decide (IZR j < n))
    (fun j successes =>
       u ← Math_random;
       mret (if decide (u < p) then (successes + 1)%Z else successes))
    0 0%Z (State h t)
  = Some (successes p (take (Z.to_nat (Zceil n)) t),
          State h (drop (Z.to_nat (Zceil n)) t)).
Proof.
  intros Htape.
  destruct (for_loopM_rounds
              (fun j k s' => s' = State h (drop j t)
                             /\ k = successes p (take j t))
              (fun j successes =>
                 u ← Math_random;
                 mret (if decide (u < p) then (successes + 1)%Z
                       else successes)) n)
    with (acc := 0%Z) (s := State h t) as (k & s' & Hrun & -> & ->).
  - intros j k s' Hj [-> ->].
    destruct (lookup_lt_is_Some_2 t j ltac:(lia)) as [u Hu].
    eexists _, _. split.
    + rewrite run_bind. unfold Math_random. cbn [tape heap].
      rewrite (drop_S t u j Hu). rewrite run_ret. reflexivity.
    + split; [reflexivity|].
      now rewrite (take_S_r t j u Hu), successes_snoc.
  - split; reflexivity.
  - exact Hrun.
Qed.

Lemma generateBinomial_run (n p count : R) (s : state) :
  let m := Z.to_nat (Zceil n) in
  let N := Z.to_nat (Zceil count) in
  (N * m <= length (tape s))%nat ->
  generateBinomial n p count s
  = Some (fresh (dom (heap s)),
          State (<[fresh (dom (heap s))
                   := (fun i => IZR (successes p
                                       (take m (drop (i * m) (tape s)))))
                        <$> seq 0 N]> (heap s))
            (drop (N * m) (tape s))).
Proof.
  intros m N Htape. destruct s as [h t]. cbn [heap tape] in *.
  set (data := fresh (dom h)).
  set (value := fun i : nat => IZR (successes p (take m (drop (i * m) t)))).
  unfold generateBinomial.
  rewrite run_bind. unfold new_array. cbn [heap tape]. fold data.
  destruct (for_loopM_rounds
              (fun k _ s' => s' = State (<[data := value <$> seq 0 k]> h)
                                    (drop (k * m) t))
              (fun i _ =>
                 successes ←
                   for_loopM (rounds n) (fun j => bool_decide (IZR j < n))
                     (fun j successes =>
                        u ← Math_random;
                        mret (if decide (u < p) then (successes + 1)%Z
                              else successes))
                     0 0%Z;
                 push data (IZR successes)) count)
    with (acc := tt) (s := State (<[data := []]> h) t)
    as ([] & s' & Hrun & ->).
  - fold N. intros k [] s' Hk ->.
    exists tt. eexists. split; [|reflexivity].
    rewrite run_bind, binomial_trials.
    + fold m.
      rewrite (push_run data _ (value <$> seq 0 k))
        by (cbn [heap]; apply lookup_insert_eq).
      cbn [heap tape]. rewrite insert_insert_eq, drop_drop.
      rewrite seq_S, fmap_app. cbn [fmap list_fmap Nat.add].
      replace (k * m + m)%nat with (S k * m)%nat by lia. reflexivity.
    + fold m. rewrite length_drop.
      assert (S k * m <= N * m)%nat by (apply Nat.mul_le_mono_r; lia). lia.
  - reflexivity.
  - rewrite run_bind, Hrun. reflexivity.
Qed.

(** X23.  [generateBinomial] on a tape with at least [ceil count * ceil n]
    draws returns a new array with [ceil count] values and consumes exactly
    that many draws: the value of rank [i] is the number of draws below [p]
    among the [ceil n] draws of its turn, an integer between [0] and
    [ceil n]. *)
Theorem generateBinomial_values (n p count : R) (s : state) :
  let m := Z.to_nat (Zceil n) in
  let N := Z.to_nat (Zceil count) in
  (N * m <= length (tape s))%nat ->
  exists (data : loc) (s' : state) (l : list R),
    generateBinomial n p count s = Some (data, s')
    /\ heap s !! data = None /\ heap s' !! data = Some l
    /\ length l = N
    /\ tape s' = drop (N * m) (tape s)
    /\ (forall i : nat,
          (i < N)%nat ->
          l !! i = Some (IZR (successes p (take m (drop (i * m) (tape s))))))
    /\ Forall (fun v => exists k : Z,
                   v = IZR k /\ (0 <= k <= Z.of_nat m)%Z) l.
Proof.
  intros m N Htape. eexists _, _, _.
  split; [now apply generateBinomial_run|].
  split; [apply fresh_loc_unused|].
  split; [cbn [heap]; apply lookup_insert_eq|].
  split; [now rewrite length_fmap, length_seq|].
  split; [reflexivity|].
  split.
  - intros i Hi. rewrite list_lookup_fmap, lookup_seq_lt by exact Hi.
    reflexivity.
  - apply Forall_fmap, Forall_forall. intros i _. eexists.
    split; [reflexivity|].
    pose proof (successes_bounds p (take m (drop (i * m) (tape s)))) as H.
    rewrite length_take in H. subst m. lia.
Qed.

Lemma generateBinomial_values_witness :
  exists (data : loc) (s' : state),
    generateBinomial 2 0.5 1 (State ∅ [0.25; 0.75; 0.5])
    = Some (data, s')
    /\ tape s' = [0.5].
Proof.
  assert (H1 : Zceil 1 = 1%Z) by (apply Zceil_eq; simpl; lra).
  assert (H2 : Zceil 2 = 2%Z) by (apply Zceil_eq; simpl; lra).
  destruct (generateBinomial_values 2 0.5 1 (State ∅ [0.25; 0.75; 0.5]))
    as (data & s' & l & Hrun & _ & _ & _ & Htape & _).
  - rewrite H1, H2. simpl. lia.
  - exists data, s'. split; [exact Hrun|].
    rewrite H1, H2 in Htape. exact Htape.
Defined.

(** The loop [while (u === 0) u = Math.random()] passes the zeros at the
    head of the tape and returns the first draw that is not zero. *)
Lemma nonzero_draw (h : gmap loc (list R)) (u : R) (rest : list R) :
  u <> 0 ->
  forall (z fuel : nat),
    (z + 2 <= fuel)%nat ->
    while_loop fuel (fun u => bool_decide (u = 0)) (fun _ => Math_random) 0
      (State h (replicate z 0 ++ u :: rest)%list)
    = Some (u, State h rest).
Proof.
  intros Hu. induction z as [|z IH]; intros fuel Hfuel.
  - destruct fuel as [|[|fuel]]; [lia | lia |]. cbn.
    rewrite bool_decide_eq_true_2 by reflexivity.
    rewrite run_bind. unfold Math_random. cbn [tape heap].
    now rewrite bool_decide_eq_false_2 by exact Hu.
  - destruct fuel as [|fuel]; [lia|]. cbn [while_loop replicate].
    rewrite bool_decide_eq_true_2 by reflexivity.
    rewrite run_bind. unfold Math_random at 1. cbn [tape heap app].
    apply IH. lia.
Qed.

Lemma nonzero_draw_while (h : gmap loc (list R)) (u : R) (z : nat)
    (rest : list R) :
  u <> 0 ->
  while (fun u => bool_decide (u = 0)) (fun _ => Math_random) 0
    (State h (replicate z 0 ++ u :: rest)%list)
  = Some (u, State h rest).
Proof.
  intros Hu. unfold while. apply nonzero_draw; [exact Hu|].
  cbn [tape]. rewrite length_app, length_replicate. simpl. lia.
Qed.

Lemma generateNormal_run (mu sigma count : R) (s : state)
    (samples : list (nat * R * nat * R)) (rest : list R) :
  length samples = Z.to_nat (Zceil count) ->
  Forall (fun d : nat * R * nat * R => 0 < d.1.1.2 < 1 /\ 0 < d.2 < 1)
    samples ->
  tape s = (concat (box_muller_draws <$> samples) ++ rest)%list ->
  generateNormal mu sigma count s
  = Some (fresh (dom (heap s)),
          State (<[fresh (dom (heap s)) := box_muller mu sigma <$> samples]>
                   (heap s)) rest).
Proof.
  intros Hlen Hnonzero Htape. destruct s as [h t]. cbn [heap tape] in *.
  subst t. set (data := fresh (dom h)).
  unfold generateNormal.
  rewrite run_bind. unfold new_array. cbn [heap tape]. fold data.
  destruct (for_loopM_rounds
              (fun k _ s' =>
                 s' = State (<[data := box_muller mu sigma <$> take k samples]>
                               h)
                        (concat (box_muller_draws <$> drop k samples) ++ rest)%list)
              (fun i _ =>
                 u1 ← while (fun u1 => bool_decide (u1 = 0))
                        (fun _ => Math_random) 0;
                 u2 ← while (fun u2 => bool_decide (u2 = 0))
                        (fun _ => Math_random) 0;
                 let z1 := sqrt (-2.0 * ln u1) * cos (2.0 * PI * u2) in
                 push data (z1 * sigma + mu)) count)
    with (acc := tt) (s := State (<[data := []]> h)
                             (concat (box_muller_draws <$> samples) ++ rest)%list)
    as ([] & s' & Hrun & ->).
  - rewrite <- Hlen. intros k [] s' Hk ->.
    destruct (lookup_lt_is_Some_2 samples k Hk) as [[[[z1 u1] z2] u2] Hd].
    pose proof (Forall_lookup_1 _ _ _ _ Hnonzero Hd) as [Hu1 Hu2].
    cbn [fst snd] in Hu1, Hu2.
    assert (Hu1' : u1 <> 0) by lra. assert (Hu2' : u2 <> 0) by lra.
    exists tt. eexists. split; [|reflexivity].
    rewrite (drop_S samples _ k Hd), fmap_cons. cbn [concat box_muller_draws].
    rewrite <- !app_assoc. cbn [app]. rewrite <- !app_assoc. cbn [app].
    rewrite run_bind, nonzero_draw_while by exact Hu1'.
    rewrite run_bind, nonzero_draw_while by exact Hu2'.
    cbv zeta.
    rewrite (push_run data _ (box_muller mu sigma <$> take k samples))
      by (cbn [heap]; apply lookup_insert_eq).
    cbn [heap tape]. rewrite insert_insert_eq.
    rewrite (take_S_r samples k _ Hd), fmap_app. reflexivity.
  - reflexivity.
  - cbv zeta in Hrun.
    rewrite run_bind, Hrun, <- Hlen, drop_all, firstn_all.
    cbn [fmap list_fmap concat app]. reflexivity.
Qed.

(** X24.  [generateNormal] passes the draws that are [0]: on a tape that
    holds, for each of the [ceil count] values, some zeros, a draw [u1],
    some zeros and a draw [u2], with [u1] and [u2] in [(0, 1)], it returns a
    new array with the Box-Muller values
    [sqrt (-2 ln u1) * cos (2 PI u2) * sigma + mu] in this order, and leaves
    the rest of the tape. *)
Theorem generateNormal_values (mu sigma count : R) (s : state)
    (samples : list (nat * R * nat * R)) (rest : list R) :
  length samples = Z.to_nat (Zceil count) ->
  Forall (fun d : nat * R * nat * R => 0 < d.1.1.2 < 1 /\ 0 < d.2 < 1)
    samples ->
  tape s = (concat (box_muller_draws <$> samples) ++ rest)%list ->
  exists (data : loc) (s' : state),
    generateNormal mu sigma count s = Some (data, s')
    /\ heap s !! data = None
    /\ heap s' !! data = Some (box_muller mu sigma <$> samples)
    /\ tape s' = rest.
Proof.
  intros Hlen Hnonzero Htape. eexists _, _.
  split; [now apply (generateNormal_run mu sigma count s samples rest)|].
  split; [apply fresh_loc_unused|].
  split; [cbn [heap]; apply lookup_insert_eq | reflexivity].
Qed.

Lemma generateNormal_values_witness :
  exists (data : loc) (s' : state),
    generateNormal 5 2 1 (State ∅ [0; 0; 0.75; 0; 0.5; 0.25]) = Some (data, s')
    /\ heap s' !! data = Some [box_muller 5 2 (2%nat, 0.75, 1%nat, 0.5)]
    /\ tape s' = [0.25].
Proof.
  destruct (generateNormal_values 5 2 1 (State ∅ [0; 0; 0.75; 0; 0.5; 0.25])
              [(2%nat, 0.75, 1%nat, 0.5)] [0.25])
    as (data & s' & Hrun & _ & Hdata & Htape).
  - replace (Zceil 1) with 1%Z by (symmetry; apply Zceil_eq; simpl; lra).
    reflexivity.
  - apply Forall_cons_2; [cbn [fst snd]; split; lra | apply Forall_nil_2].
  - reflexivity.
  - now exists data, s'.
Defined.

(** *** The Poisson sampler, draw by draw *)

(** X25.  In binary64 [generatePoisson] counts the draws it takes to bring
    the running product, rounded at each step, down to the threshold
    [Math.exp (- lambda)].  On a tape that holds, for each of the
    [ceil count] values, the draws that do so and no more, it returns a new
    array whose value of rank [i] is the number of draws of rank [i] less
    one, and leaves the rest of the tape.  Where the threshold is not below
    [1] no draw is taken and every value is [-1]. *)
Theorem generatePoisson_values (Math_exp : float -> float) (lambda : float)
    (count : R) (s : Binary64Arrays.state) (blocks : list (list float))
    (rest : list float) :
  length blocks = Z.to_nat (Zceil count) ->
  Forall (Binary64Arrays.crosses (Math_exp (- lambda)%float) 1%float) blocks ->
  Binary64Arrays.tape s = (concat blocks ++ rest)%list ->
  exists (data : loc) (s' : Binary64Arrays.state),
    Binary64Arrays.generatePoisson Math_exp lambda count s = Some (data, s')
    /\ Binary64Arrays.heap s !! data = None
    /\ Binary64Arrays.heap s' !! data
       = Some ((fun us => Binary64.of_Z (Z.of_nat (length us) - 1))
                 <$> blocks)
    /\ Binary64Arrays.tape s' = rest
    /\ ((Math_exp (- lambda) <? 1)%float = false ->
        Binary64Arrays.heap s' !! data
        = Some (replicate (Z.to_nat (Zceil count)) (-1)%float)
        /\ Binary64Arrays.tape s' = Binary64Arrays.tape s).
Proof.
  intros Hlen Hblocks Htape. eexists _, _.
  split; [now apply (binary64_generatePoisson_run _ _ _ s blocks rest)|].
  split; [apply not_elem_of_dom, is_fresh|].
  cbn [Binary64Arrays.heap Binary64Arrays.tape]. rewrite lookup_insert_eq.
  split; [reflexivity|]. split; [reflexivity|].
  intros Hl.
  assert (Hempty : blocks = replicate (length blocks) []).
  { clear Hlen Htape. induction Hblocks as [|us blocks Hus _ IH];
      [reflexivity|].
    destruct us as [|u us];
      [|cbn [Binary64Arrays.crosses] in Hus; destruct Hus; congruence].
    cbn [length replicate]. now rewrite <- IH. }
  rewrite Htape, Hempty, Hlen. clear. split.
  - f_equal. induction (Z.to_nat (Zceil count)) as [|n IH];
      [reflexivity|].
    cbn [replicate fmap list_fmap]. f_equal. exact IH.
  - induction (Z.to_nat (Zceil count)) as [|n IH]; [reflexivity|].
    cbn [replicate concat app]. exact IH.
Qed.

Lemma generatePoisson_values_witness :
  exists (data : loc) (s' : Binary64Arrays.state),
    Binary64Arrays.generatePoisson (fun _ => 0.6065306597126334%float) 0.5 1
      (Binary64Arrays.State ∅ [0.75; 0.5; 0.25]%float)
    = Some (data, s')
    /\ Binary64Arrays.heap s' !! data = Some [Binary64.of_Z (2 - 1)]
    /\ Binary64Arrays.tape s' = [0.25%float].
Proof.
  destruct (generatePoisson_values (fun _ => 0.6065306597126334%float) 0.5 1
              (Binary64Arrays.State ∅ [0.75; 0.5; 0.25]%float)
              [[0.75; 0.5]%float] [0.25%float])
    as (data & s' & Hrun & _ & Hdata & Htape & _).
  - replace (Zceil 1) with 1%Z by (symmetry; apply Zceil_eq; simpl; lra).
    reflexivity.
  - apply Forall_cons_2; [|apply Forall_nil_2].
    cbn [Binary64Arrays.crosses]. repeat split; reflexivity.
  - reflexivity.
  - now exists data, s'.
Defined.

(** *** The handler of [/generate] *)

Lemma while_loop_heap {A : Type} (test : A -> bool) (body : A -> JS A) :
  (forall (a a' : A) (s s' : state),
      body a s = Some (a', s') -> heap s' = heap s) ->
  forall (fuel : nat) (a a' : A) (s s' : state),
    while_loop fuel test body a s = Some (a', s') -> heap s' = heap s.
Proof.
  intros Hbody. induction fuel as [|fuel IH]; intros a a' s s' Hrun;
    [discriminate|].
  cbn [while_loop] in Hrun. destruct (test a).
  - rewrite run_bind in Hrun.
    destruct (body a s) as [[a1 s1]|] eqn:Hb; [|discriminate].
    apply IH in Hrun. apply Hbody in Hb. congruence.
  - injection Hrun as <- <-. reflexivity.
Qed.

Lemma Math_random_heap (u : R) (s s' : state) :
  Math_random s = Some (u, s') -> heap s' = heap s.
Proof.
  unfold Math_random. destruct (tape s); [discriminate|].
  now intros [= <- <-].
Qed.

(** A sampler whose rounds push on its array returns a new array and
    leaves the arrays of the heap as they were; the array is not empty when
    the loop is entered. *)
Lemma sampler_frame (body : loc -> Z -> unit -> JS unit) (fuel : nat)
    (test : Z -> bool) (s s' : state) (data : loc) :
  (forall (a : loc) (j : Z) (s0 s1 : state) (l : list R),
      heap s0 !! a = Some l -> body a j tt s0 = Some (tt, s1) ->
      exists v : R, heap s1 = <[a := (l ++ [v])%list]> (heap s0)) ->
  (a ← new_array []; _ ← for_loopM fuel test (body a) 0 tt; mret a) s
  = Some (data, s') ->
  data = fresh (dom (heap s))
  /\ exists l : list R,
       heap s' = <[data := l]> (heap s)
       /\ (fuel <> 0%nat -> test 0%Z = true -> l <> []).
Proof.
  intros Hbody Hrun. rewrite run_bind in Hrun.
  unfold new_array at 1 in Hrun. set (a := fresh (dom (heap s))) in *.
  rewrite run_bind in Hrun.
  match type of Hrun with
  | match ?m with _ => _ end = _ => destruct m as [[[] s2]|] eqn:Hloop;
                                    [|discriminate]
  end.
  rewrite run_ret in Hrun. injection Hrun as <- <-.
  split; [reflexivity|].
  assert (Hstep : forall (j : Z) (u u' : unit) (s0 s1 : state),
             (exists l : list R, heap s0 = <[a := l]> (heap s)) ->
             body a j u s0 = Some (u', s1) ->
             exists l : list R, heap s1 = <[a := l]> (heap s) /\ l <> []).
  { intros j [] [] s0 s1 [l Hl] Hb.
    destruct (Hbody a j s0 s1 l) as [v Hv]; [|exact Hb|].
    - rewrite Hl. apply lookup_insert_eq.
    - exists (l ++ [v])%list. rewrite Hv, Hl.
      split; [apply insert_insert_eq|]. now destruct l. }
  destruct fuel as [|fuel].
  { injection Hloop as <-. exists []. split; [reflexivity | congruence]. }
  cbn [for_loopM] in Hloop. destruct (test 0%Z).
  - rewrite run_bind in Hloop.
    destruct (body a 0%Z tt _) as [[[] s1]|] eqn:Hfirst; [|discriminate].
    apply Hstep in Hfirst; [|now exists []].
    assert (Hinv : exists l : list R,
               heap s2 = <[a := l]> (heap s) /\ l <> []).
    { revert Hloop.
      apply (for_loopM_invariant
               (fun _ s0 => exists l : list R,
                    heap s0 = <[a := l]> (heap s) /\ l <> []));
        [|exact Hfirst].
      intros j u u' s0 s3 (l & Hl & _) Hb.
      apply (Hstep j u u' s0 s3); [now exists l | exact Hb]. }
    destruct Hinv as (l & Hl & Hne). exists l. auto.
  - rewrite run_ret in Hloop. injection Hloop as <-.
    exists []. split; [reflexivity | congruence].
Qed.

Lemma push_heap (a : loc) (v : R) (s s' : state) (l : list R)
    (h : gmap loc (list R)) :
  heap s = h -> h !! a = Some l -> push a v s = Some (tt, s') ->
  exists v' : R, heap s' = <[a := (l ++ [v'])%list]> h.
Proof.
  intros <- Ha Hrun. rewrite (push_run a v l s Ha) in Hrun.
  injection Hrun as <-. now exists v.
Qed.

Ltac draw H u s :=
  rewrite run_bind in H;
  match type of H with
  | match ?m with _ => _ end = _ =>
      let E := fresh "Hdraw" in
      destruct m as [[u s]|] eqn:E; [|discriminate]
  end.

Lemma generateUniform_frame (a b count : R) (s s' : state) (data : loc) :
  generateUniform a b count s = Some (data, s') ->
  data = fresh (dom (heap s))
  /\ exists l : list R,
       heap s' = <[data := l]> (heap s) /\ (count > 0 -> l <> []).
Proof.
  intros Hrun.
  assert (Hentered : count > 0 ->
                     rounds count <> 0%nat
                     /\ bool_decide (IZR 0 < count) = true)
    by (intros Hcount; split;
        [discriminate | now apply bool_decide_eq_true_2]).
  cut (data = fresh (dom (heap s))
       /\ exists l : list R,
            heap s' = <[data := l]> (heap s)
            /\ (rounds count <> 0%nat ->
                bool_decide (IZR 0 < count) = true -> l <> []));
    [intros (? & l & ? & Hne); split; [assumption|]; exists l;
     split; [assumption|]; intros Hcount;
     destruct (Hentered Hcount); auto|].
  revert Hrun.
  apply (sampler_frame
           (fun data _ _ => u ← Math_random; push data (a + u * (b - a)))).
  intros d j s0 s1 l Hl Hb. draw Hb u s2.
  apply Math_random_heap in Hdraw.
  exact (push_heap _ _ _ _ l _ Hdraw Hl Hb).
Qed.

Lemma generateExponential_frame (lambda count : R) (s s' : state)
    (data : loc) :
  generateExponential lambda count s = Some (data, s') ->
  data = fresh (dom (heap s))
  /\ exists l : list R,
       heap s' = <[data := l]> (heap s) /\ (count > 0 -> l <> []).
Proof.
  intros Hrun.
  assert (Hentered : count > 0 ->
                     rounds count <> 0%nat
                     /\ bool_decide (IZR 0 < count) = true)
    by (intros Hcount; split;
        [discriminate | now apply bool_decide_eq_true_2]).
  cut (data = fresh (dom (heap s))
       /\ exists l : list R,
            heap s' = <[data := l]> (heap s)
            /\ (rounds count <> 0%nat ->
                bool_decide (IZR 0 < count) = true -> l <> []));
    [intros (? & l & ? & Hne); split; [assumption|]; exists l;
     split; [assumption|]; intros Hcount;
     destruct (Hentered Hcount); auto|].
  revert Hrun.
  apply (sampler_frame
           (fun data _ _ => u ← Math_random; push data (- ln (1 - u) / lambda))).
  intros d j s0 s1 l Hl Hb. draw Hb u s2.
  apply Math_random_heap in Hdraw.
  exact (push_heap _ _ _ _ l _ Hdraw Hl Hb).
Qed.

Lemma generateBinomial_frame (n p count : R) (s s' : state) (data : loc) :
  generateBinomial n p count s = Some (data, s') ->
  data = fresh (dom (heap s))
  /\ exists l : list R,
       heap s' = <[data := l]> (heap s) /\ (count > 0 -> l <> []).
Proof.
  intros Hrun.
  assert (Hentered : count > 0 ->
                     rounds count <> 0%nat
                     /\ bool_decide (IZR 0 < count) = true)
    by (intros Hcount; split;
        [discriminate | now apply bool_decide_eq_true_2]).
  cut (data = fresh (dom (heap s))
       /\ exists l : list R,
            heap s' = <[data := l]> (heap s)
            /\ (rounds count <> 0%nat ->
                bool_decide (IZR 0 < count) = true -> l <> []));
    [intros (? & l & ? & Hne); split; [assumption|]; exists l;
     split; [assumption|]; intros Hcount;
     destruct (Hentered Hcount); auto|].
  revert Hrun.
  apply (sampler_frame
           (fun data _ _ =>
              successes ←
                for_loopM (rounds n) (fun j => bool_decide (IZR j < n))
                  (fun j successes =>
                     u ← Math_random;
                     mret (if decide (u < p) then (successes + 1)%Z
                           else successes))
                  0 0%Z;
              push data (IZR successes))).
  intros d j s0 s1 l Hl Hb. draw Hb k s2.
  assert (Hheap : heap s2 = heap s0).
  { revert Hdraw.
    apply (for_loopM_invariant (fun _ s3 => heap s3 = heap s0));
      [|reflexivity].
    intros i k0 k1 s3 s4 Hinv Hstep. draw Hstep u s5.
    apply Math_random_heap in Hdraw. rewrite run_ret in Hstep.
    injection Hstep as _ <-. congruence. }
  exact (push_heap _ _ _ _ l _ Hheap Hl Hb).
Qed.

Lemma generatePoisson_frame (lambda count : R) (s s' : state) (data : loc) :
  generatePoisson lambda count s = Some (data, s') ->
  data = fresh (dom (heap s))
  /\ exists l : list R,
       heap s' = <[data := l]> (heap s) /\ (count > 0 -> l <> []).
Proof.
  intros Hrun.
  assert (Hentered : count > 0 ->
                     rounds count <> 0%nat
                     /\ bool_decide (IZR 0 < count) = true)
    by (intros Hcount; split;
        [discriminate | now apply bool_decide_eq_true_2]).
  cut (data = fresh (dom (heap s))
       /\ exists l : list R,
            heap s' = <[data := l]> (heap s)
            /\ (rounds count <> 0%nat ->
                bool_decide (IZR 0 < count) = true -> l <> []));
    [intros (? & l & ? & Hne); split; [assumption|]; exists l;
     split; [assumption|]; intros Hcount;
     destruct (Hentered Hcount); auto|].
  revert Hrun.
  apply (sampler_frame
           (fun data _ _ =>
              let l := exp (- lambda) in
              kp ← while (fun kp : Z * R => bool_decide (kp.2 > l))
                     (fun kp => u ← Math_random; mret ((kp.1 + 1)%Z, kp.2 * u))
                     (0%Z, 1);
              push data (IZR (kp.1 - 1)))).
  intros d j s0 s1 l Hl Hb. cbv zeta in Hb. draw Hb kp s2.
  apply poisson_while_loop in Hdraw as (Hheap & _).
  exact (push_heap _ _ _ _ l _ Hheap Hl Hb).
Qed.

Lemma generateNormal_frame (mu sigma count : R) (s s' : state) (data : loc) :
  generateNormal mu sigma count s = Some (data, s') ->
  data = fresh (dom (heap s))
  /\ exists l : list R,
       heap s' = <[data := l]> (heap s) /\ (count > 0 -> l <> []).
Proof.
  intros Hrun.
  assert (Hentered : count > 0 ->
                     rounds count <> 0%nat
                     /\ bool_decide (IZR 0 < count) = true)
    by (intros Hcount; split;
        [discriminate | now apply bool_decide_eq_true_2]).
  cut (data = fresh (dom (heap s))
       /\ exists l : list R,
            heap s' = <[data := l]> (heap s)
            /\ (rounds count <> 0%nat ->
                bool_decide (IZR 0 < count) = true -> l <> []));
    [intros (? & l & ? & Hne); split; [assumption|]; exists l;
     split; [assumption|]; intros Hcount;
     destruct (Hentered Hcount); auto|].
  revert Hrun.
  apply (sampler_frame
           (fun data _ _ =>
              u1 ← while (fun u1 => bool_decide (u1 = 0))
                     (fun _ => Math_random) 0;
              u2 ← while (fun u2 => bool_decide (u2 = 0))
                     (fun _ => Math_random) 0;
              let z1 := sqrt (-2.0 * ln u1) * cos (2.0 * PI * u2) in
              push data (z1 * sigma + mu))).
  intros d j s0 s1 l Hl Hb. draw Hb u1 s2. draw Hb u2 s3. cbv zeta in Hb.
  apply while_loop_heap in Hdraw;
    [|intros ? ? ? ?; apply Math_random_heap].
  apply while_loop_heap in Hdraw0;
    [|intros ? ? ? ?; apply Math_random_heap].
  refine (push_heap _ _ _ _ l _ _ Hl Hb). congruence.
Qed.

Lemma run_fmap {A B : Type} (f : A -> B) (m : JS A) (s : state) :
  (f <$> m) s = match m s with Some (a, s') => Some (f a, s') | None => None end.
Proof. reflexivity. Qed.

(** The end of a successful request: the statistics are those of the array
    the sampler has returned, which is sent as it is. *)
Lemma generation_payload (name : string) (p : gmap string R) (count : R)
    (s s1 : state) (data : loc) (l : list R) :
  data = fresh (dom (heap s)) -> heap s1 = <[data := l]> (heap s) ->
  exists s' : state,
    (stats ← calculateStats data;
     elements ← get_array data;
     mret (Json (Generation.Make name p count elements stats))) s1
    = Some (Json (Generation.Make name p count l (summary l)), s')
    /\ heap s' !! data = Some l
    /\ (forall (a : loc) (l0 : list R),
          heap s !! a = Some l0 -> heap s' !! a = Some l0).
Proof.
  intros Hdata Hheap.
  assert (Hl : heap s1 !! data = Some l)
    by (rewrite Hheap; apply lookup_insert_eq).
  eexists. split; [|split].
  - rewrite run_bind, (calculateStats_run s1 data l Hl).
    rewrite run_bind, (get_array_run data l)
      by (cbn [heap]; now apply heap_frame).
    reflexivity.
  - cbn [heap]. now apply heap_frame.
  - intros a l0 Ha. cbn [heap]. apply heap_frame. rewrite Hheap.
    rewrite lookup_insert_ne; [exact Ha|].
    rewrite Hdata. now apply fresh_loc_other with l0.
Qed.

Ltac sampled H frame :=
  rewrite run_bind, run_fmap in H;
  match type of H with
  | match match ?m with _ => _ end with _ => _ end = _ =>
      let E := fresh "Hsample" in
      let data := fresh "data" in
      let s1 := fresh "s" in
      destruct m as [[data s1]|] eqn:E; [|discriminate];
      apply frame in E as (Hfresh & l & Hheap & Hfilled)
  end.

(** What [/generate] answers, when it answers. *)
Lemma post_generate_classified (name : string)
    (parameters : option (gmap string R)) (count : option R)
    (s s' : state) (answer : response Generation.t) :
  post_generate name parameters count s = Some (answer, s') ->
  match answer with
  | Error status error =>
      s' = s
      /\ ((status = 400%nat /\ error = "Missing parameters or invalid count"
           /\ (parameters = None \/ default 1000 count <= 0))
          \/ (status = 404%nat /\ error = "Distribution not found"
              /\ is_Some parameters /\ default 1000 count > 0
              /\ name ∉ Descriptor.name <$> availableDistributions)
          \/ (status = 400%nat /\ default 1000 count > 0
              /\ exists (d : Descriptor.t) (p : gmap string R),
                   parameters = Some p
                   /\ d ∈ availableDistributions /\ Descriptor.name d = name
                   /\ ((error = "Invalid parameters"
                        /\ validateParameters d p = false)
                       \/ (error
                           = "Generation not implemented for this distribution"
                           /\ validateParameters d p = true
                           /\ name ∉ samplers))))
  | Json body =>
      name ∈ samplers
      /\ Generation.distribution body = name
      /\ parameters = Some (Generation.parameters body)
      /\ Generation.count body = default 1000 count
      /\ Generation.count body > 0
      /\ (exists d : Descriptor.t,
            d ∈ availableDistributions /\ Descriptor.name d = name
            /\ validateParameters d (Generation.parameters body) = true)
      /\ Generation.data body <> []
      /\ Generation.stats body = summary (Generation.data body)
      /\ heap s !! fresh (dom (heap s)) = None
      /\ heap s' !! fresh (dom (heap s)) = Some (Generation.data body)
      /\ (forall (a : loc) (l : list R),
            heap s !! a = Some l -> heap s' !! a = Some l)
  end.
Proof.
  unfold post_generate. generalize (default 1000 count). clear count.
  intros count. cbv zeta.
  destruct parameters as [p|];
    [|rewrite run_ret; intros [= <- <-]; split; [reflexivity | left; auto]].
  case_decide as Hcount;
    [rewrite run_ret; intros [= <- <-]; split; [reflexivity | left; auto]|].
  assert (Hpositive : count > 0) by lra.
  destruct (find _ availableDistributions) as [d|] eqn:Hfind.
  - apply find_catalogue in Hfind as [Hd <-].
    assert (Hname : Descriptor.name d ∈ Descriptor.name <$> availableDistributions)
      by (apply list_elem_of_fmap; now exists d).
    destruct (validateParameters d p) eqn:Hvalid; cbn [negb];
      [|rewrite run_ret; intros [= <- <-]; split; [reflexivity|];
        right; right; split; [reflexivity|]; split; [exact Hpositive|];
        exists d, p; split; [reflexivity|]; split; [exact Hd|];
        split; [reflexivity|]; left; split; [reflexivity | exact Hvalid]].
    pose proof (catalogue_cases d Hd) as Hcases. revert Hcases.
    rewrite !elem_of_cons, elem_of_nil.
    intros [E|[E|[E|[E|[E|[E|[]]]]]]]; rewrite E in *; name_cases;
      intros Hrun.
    + sampled Hrun generateNormal_frame.
      destruct (generation_payload "normal" p count s s0 data l Hfresh Hheap)
        as (s2 & Hpayload & Hdata & Hframe).
      rewrite Hpayload in Hrun. injection Hrun as <- <-.
      cbn [Generation.distribution Generation.parameters Generation.count
             Generation.data Generation.stats].
      rewrite <- Hfresh.
      repeat split; try assumption; try lra;
        [unfold samplers; rewrite !elem_of_cons; tauto | now exists d
        | apply Hfilled; lra | rewrite Hfresh; apply fresh_loc_unused].
    + sampled Hrun generateUniform_frame.
      destruct (generation_payload "uniform" p count s s0 data l Hfresh Hheap)
        as (s2 & Hpayload & Hdata & Hframe).
      rewrite Hpayload in Hrun. injection Hrun as <- <-.
      cbn [Generation.distribution Generation.parameters Generation.count
             Generation.data Generation.stats].
      rewrite <- Hfresh.
      repeat split; try assumption; try lra;
        [unfold samplers; rewrite !elem_of_cons; tauto | now exists d
        | apply Hfilled; lra | rewrite Hfresh; apply fresh_loc_unused].
    + sampled Hrun generateBinomial_frame.
      destruct (generation_payload "binomial" p count s s0 data l Hfresh Hheap)
        as (s2 & Hpayload & Hdata & Hframe).
      rewrite Hpayload in Hrun. injection Hrun as <- <-.
      cbn [Generation.distribution Generation.parameters Generation.count
             Generation.data Generation.stats].
      rewrite <- Hfresh.
      repeat split; try assumption; try lra;
        [unfold samplers; rewrite !elem_of_cons; tauto | now exists d
        | apply Hfilled; lra | rewrite Hfresh; apply fresh_loc_unused].
    + sampled Hrun generatePoisson_frame.
      destruct (generation_payload "poisson" p count s s0 data l Hfresh Hheap)
        as (s2 & Hpayload & Hdata & Hframe).
      rewrite Hpayload in Hrun. injection Hrun as <- <-.
      cbn [Generation.distribution Generation.parameters Generation.count
             Generation.data Generation.stats].
      rewrite <- Hfresh.
      repeat split; try assumption; try lra;
        [unfold samplers; rewrite !elem_of_cons; tauto | now exists d
        | apply Hfilled; lra | rewrite Hfresh; apply fresh_loc_unused].
    + sampled Hrun generateExponential_frame.
      destruct (generation_payload "exponential" p count s s0 data l Hfresh
                  Hheap)
        as (s2 & Hpayload & Hdata & Hframe).
      rewrite Hpayload in Hrun. injection Hrun as <- <-.
      cbn [Generation.distribution Generation.parameters Generation.count
             Generation.data Generation.stats].
      rewrite <- Hfresh.
      repeat split; try assumption; try lra;
        [unfold samplers; rewrite !elem_of_cons; tauto | now exists d
        | apply Hfilled; lra | rewrite Hfresh; apply fresh_loc_unused].
    + rewrite run_bind, !run_ret in Hrun. injection Hrun as <- <-.
      split; [reflexivity|].
      right; right. split; [reflexivity|]. split; [exact Hpositive|].
      exists d, p. split; [reflexivity|]. split; [exact Hd|].
      split; [exact E|]. right. split; [reflexivity|].
      split; [exact Hvalid|]. unfold samplers.
      rewrite !elem_of_cons, elem_of_nil. intros [?|[?|[?|[?|[?|[]]]]]];
        discriminate.
  - apply find_catalogue_none in Hfind.
    rewrite run_ret. intros [= <- <-]. split; [reflexivity|].
    right; left. eauto 6.
Qed.

(** The model has no answer only for a valid request to a sampler, whose
    draws the tape does not cover. *)
Lemma post_generate_stuck (name : string)
    (parameters : option (gmap string R)) (count : option R) (s : state) :
  post_generate name parameters count s = None ->
  default 1000 count > 0 /\ name ∈ samplers
  /\ exists (d : Descriptor.t) (p : gmap string R),
       parameters = Some p
       /\ d ∈ availableDistributions /\ Descriptor.name d = name
       /\ validateParameters d p = true.
Proof.
  unfold post_generate. generalize (default 1000 count). clear count.
  intros count. cbv zeta.
  destruct parameters as [p|]; [|rewrite run_ret; discriminate].
  case_decide as Hcount; [rewrite run_ret; discriminate|].
  destruct (find _ availableDistributions) as [d|] eqn:Hfind;
    [|rewrite run_ret; discriminate].
  apply find_catalogue in Hfind as [Hd <-].
  destruct (validateParameters d p) eqn:Hvalid; cbn [negb];
    [|rewrite run_ret; discriminate].
  intros Hrun. split; [lra|]. split; [|now exists d, p].
  pose proof (catalogue_cases d Hd) as Hcases. revert Hcases Hrun.
  rewrite !elem_of_cons, elem_of_nil.
  intros [E|[E|[E|[E|[E|[E|[]]]]]]]; rewrite E;
    unfold samplers; rewrite !elem_of_cons; try tauto.
  name_cases.
Qed.

(** A request for uniform variates goes through when the tape has the draws
    it takes. *)
Lemma post_generate_uniform (p : gmap string R) (a b count : R) (s : state) :
  p !! "a" = Some a -> p !! "b" = Some b -> b > a -> count > 0 ->
  (Z.to_nat (Zceil count) <= length (tape s))%nat ->
  exists s' : state,
    post_generate "uniform" (Some p) (Some count) s
    = Some (Json (Generation.Make "uniform" p count
                    ((fun u => a + u * (b - a))
                       <$> take (Z.to_nat (Zceil count)) (tape s))
                    (summary ((fun u => a + u * (b - a))
                                <$> take (Z.to_nat (Zceil count)) (tape s)))),
            s').
Proof.
  intros Ha Hb Hab Hcount Htape. unfold post_generate.
  change (default 1000 (Some count)) with count. cbv zeta.
  rewrite decide_False by lra.
  destruct (find _ availableDistributions) as [d|] eqn:Hfind;
    [|discriminate].
  apply find_catalogue in Hfind as [Hd Hname].
  assert (Hvalid : validateParameters d p = true).
  { apply (validateParameters_true d p Hd). right. left.
    split; [exact Hname|]. now exists a, b. }
  rewrite Hvalid. cbn [negb]. name_cases.
  rewrite run_bind, run_fmap.
  rewrite (lookup_total_Some p "a" a Ha), (lookup_total_Some p "b" b Hb).
  rewrite generateUniform_run by exact Htape.
  edestruct (generation_payload "uniform" p count s) as (s' & Hrun & _);
    [reflexivity | | exists s'; exact Hrun].
  reflexivity.
Qed.

(** X26.  The answers of [/generate].  A request without parameters or with
    a count that is not positive is answered 400, whatever the distribution;
    otherwise an unknown distribution is answered 404, and a distribution of
    the catalogue 400 when its parameters are invalid or it has no sampler.
    An error leaves the state as it was, no draw consumed and no array
    allocated.  A payload comes from a distribution that has a sampler,
    with valid parameters and a positive count (1000 when the request names
    none); its data are the new array of the sampler, which is not empty,
    its statistics are those of these data, and the arrays that were in the
    heap are unchanged.  Only a valid request to a sampler can be left
    without an answer, as the model leaves it when the tape of draws runs
    out; a request for uniform variates is answered with a payload on a
    tape of [ceil count] draws. *)
Theorem post_generate_answers (name : string)
    (parameters : option (gmap string R)) (count : option R) (s : state) :
  match post_generate name parameters count s with
  | Some (Error status error, s') =>
      s' = s
      /\ ((status = 400%nat /\ error = "Missing parameters or invalid count"
           /\ (parameters = None \/ default 1000 count <= 0))
          \/ (status = 404%nat /\ error = "Distribution not found"
              /\ is_Some parameters /\ default 1000 count > 0
              /\ name ∉ Descriptor.name <$> availableDistributions)
          \/ (status = 400%nat /\ default 1000 count > 0
              /\ exists (d : Descriptor.t) (p : gmap string R),
                   parameters = Some p
                   /\ d ∈ availableDistributions /\ Descriptor.name d = name
                   /\ ((error = "Invalid parameters"
                        /\ validateParameters d p = false)
                       \/ (error
                           = "Generation not implemented for this distribution"
                           /\ validateParameters d p = true
                           /\ name ∉ samplers))))
  | Some (Json body, s') =>
      name ∈ samplers
      /\ Generation.distribution body = name
      /\ parameters = Some (Generation.parameters body)
      /\ Generation.count body = default 1000 count
      /\ Generation.count body > 0
      /\ (exists d : Descriptor.t,
            d ∈ availableDistributions /\ Descriptor.name d = name
            /\ validateParameters d (Generation.parameters body) = true)
      /\ Generation.data body <> []
      /\ Generation.stats body = summary (Generation.data body)
      /\ heap s !! fresh (dom (heap s)) = None
      /\ heap s' !! fresh (dom (heap s)) = Some (Generation.data body)
      /\ (forall (a : loc) (l : list R),
            heap s !! a = Some l -> heap s' !! a = Some l)
  | None =>
      default 1000 count > 0 /\ name ∈ samplers
      /\ exists (d : Descriptor.t) (p : gmap string R),
           parameters = Some p
           /\ d ∈ availableDistributions /\ Descriptor.name d = name
           /\ validateParameters d p = true
  end
  /\ (forall (p : gmap string R) (a b c : R),
        name = "uniform" -> parameters = Some p -> count = Some c ->
        p !! "a" = Some a -> p !! "b" = Some b -> b > a -> c > 0 ->
        (Z.to_nat (Zceil c) <= length (tape s))%nat ->
        exists (body : Generation.t) (s' : state),
          post_generate name parameters count s = Some (Json body, s')
          /\ Generation.data body
             = (fun u => a + u * (b - a))
                 <$> take (Z.to_nat (Zceil c)) (tape s)).
Proof.
  split.
  - destruct (post_generate name parameters count s) as [[answer s']|]
      eqn:Hrun.
    + apply post_generate_classified in Hrun. destruct answer; exact Hrun.
    + apply post_generate_stuck in Hrun. exact Hrun.
  - intros p a b c -> -> -> Ha Hb Hab Hc Htape.
    destruct (post_generate_uniform p a b c s Ha Hb Hab Hc Htape)
      as [s' Hrun].
    eexists _, s'. split; [exact Hrun | reflexivity].
Qed.

(** *** The confidence intervals of the two components *)

Section ConfidenceIntervalProperties.

Variable getZCriticalValue : R -> R.
Variable calculateTwoSampleConfidenceInterval :
  list R -> list R -> R -> Method -> ConfidenceIntervalType ->
  outcome Interval.t.


(** X28.  On paired samples with known variances the two components report
    the same mean difference and the same critical value, whatever the
    variances they are given.  The margin of error of each is the critical
    value times its standard error, [sqrt v / sqrt n] in [PairedMeanCI] and
    [sqrt ((var1 + var2) / n)] in the two-sample component, and a finite
    bound is the mean difference less or plus this margin.  For a one-sided
    type the infinite bound of [PairedMeanCI] is on the side where the
    two-sample component has its finite one. *)
Theorem components_compared (before after : list R)
    (confidence v var1 var2 : R) (intervalType : ConfidenceIntervalType) :
  before <> [] -> length before = length after ->
  v > 0 -> var1 > 0 -> var2 > 0 ->
  exists (p : PairedMeanCI.result) (q : TwoSampleCI.result),
    handleCalculate getZCriticalValue calculateTwoSampleConfidenceInterval
      before after confidence intervalType true (Some v) = Success p
    /\ calculate getZCriticalValue calculateTwoSampleConfidenceInterval
         before after confidence Paired intervalType true (Some var1)
         (Some var2) = Success q
    /\ Interval.meanDiff (PairedMeanCI.interval p)
       = Interval.meanDiff (TwoSampleCI.interval q)
    /\ Interval.criticalValue (PairedMeanCI.interval p)
       = Interval.criticalValue (TwoSampleCI.interval q)
    /\ Interval.marginOfError (PairedMeanCI.interval p)
       = Interval.criticalValue (PairedMeanCI.interval p)
         * (sqrt v / sqrt (INR (length before)))
    /\ Interval.marginOfError (TwoSampleCI.interval q)
       = Interval.criticalValue (TwoSampleCI.interval q)
         * sqrt ((var1 + var2) / INR (length before))
    /\ let below (i : Interval.t) :=
         Finite (Interval.meanDiff i - Interval.marginOfError i) in
       let above (i : Interval.t) :=
         Finite (Interval.meanDiff i + Interval.marginOfError i) in
       let i := PairedMeanCI.interval p in
       let j := TwoSampleCI.interval q in
       match intervalType with
       | TwoSided =>
           Interval.lower i = below i /\ Interval.upper i = above i
           /\ Interval.lower j = below j /\ Interval.upper j = above j
       | OneSidedLower =>
           Interval.lower i = NegInfinity /\ Interval.upper i = above i
           /\ Interval.lower j = below j /\ Interval.upper j = Infinity
       | OneSidedUpper =>
           Interval.lower i = below i /\ Interval.upper i = Infinity
           /\ Interval.lower j = NegInfinity /\ Interval.upper j = above j
       end.
Proof.
  intros Hne Hlen Hv Hvar1 Hvar2.
  assert (Hn : length (pairwise_differences before after) = length before)
    by (unfold pairwise_differences; apply length_imap).
  eexists _, _.
  split; [now apply handleCalculate_known|].
  split; [now apply calculate_known_paired|].
  cbn [PairedMeanCI.interval TwoSampleCI.interval Interval.meanDiff
         Interval.criticalValue Interval.marginOfError Interval.lower
         Interval.upper].
  rewrite Hn. destruct intervalType; repeat split.
Qed.

Lemma length_zero (l : list R) : length l = 0%nat <-> l = [].
Proof. destruct l; [tauto | split; discriminate]. Qed.

(** X29.  With a known variance neither component consults
    [calculateTwoSampleConfidenceInterval], and each succeeds exactly on the
    inputs its checks let through: two samples that are not empty, of the
    same size when they are paired, and variances that are present and
    positive. *)
Theorem known_variance_validation :
  (forall (other : list R -> list R -> R -> Method -> ConfidenceIntervalType
                    -> outcome Interval.t)
      (before after : list R) (confidence : R)
      (intervalType : ConfidenceIntervalType) (variance : option R),
      handleCalculate getZCriticalValue calculateTwoSampleConfidenceInterval
        before after confidence intervalType true variance
      = handleCalculate getZCriticalValue other
          before after confidence intervalType true variance)
  /\ (forall (other : list R -> list R -> R -> Method
                      -> ConfidenceIntervalType -> outcome Interval.t)
        (dataset1 dataset2 : list R) (confidenceLevel : R) (method : Method)
        (intervalType : ConfidenceIntervalType) (var1 var2 : option R),
        calculate getZCriticalValue calculateTwoSampleConfidenceInterval
          dataset1 dataset2 confidenceLevel method intervalType true var1 var2
        = calculate getZCriticalValue other
            dataset1 dataset2 confidenceLevel method intervalType true var1
            var2)
  /\ (forall (before after : list R) (confidence : R)
        (intervalType : ConfidenceIntervalType) (variance : option R),
        (exists r : PairedMeanCI.result,
            handleCalculate getZCriticalValue
              calculateTwoSampleConfidenceInterval
              before after confidence intervalType true variance = Success r)
        <-> before <> [] /\ after <> [] /\ length before = length after
            /\ exists v : R, variance = Some v /\ v > 0)
  /\ (forall (dataset1 dataset2 : list R) (confidenceLevel : R)
        (method : Method) (intervalType : ConfidenceIntervalType)
        (var1 var2 : option R),
        (exists r : TwoSampleCI.result,
            calculate getZCriticalValue calculateTwoSampleConfidenceInterval
              dataset1 dataset2 confidenceLevel method intervalType true
              var1 var2 = Success r)
        <-> dataset1 <> [] /\ dataset2 <> []
            /\ (method = Paired -> length dataset1 = length dataset2)
            /\ exists v1 v2 : R,
                 var1 = Some v1 /\ var2 = Some v2 /\ v1 > 0 /\ v2 > 0).
Proof.
  split; [reflexivity|]. split; [reflexivity|]. split.
  - intros before after confidence intervalType variance. split.
    + intros [r Hrun]. unfold handleCalculate in Hrun.
      rewrite <- !length_zero.
      destruct (decide (length before = 0%nat \/ length after = 0%nat));
        [discriminate|].
      destruct (decide (length before <> length after)); [discriminate|].
      destruct variance as [v|]; [|discriminate].
      destruct (decide (v <= 0)); [discriminate|].
      split; [tauto|]. split; [tauto|]. split; [lia|].
      exists v. split; [reflexivity | lra].
    + intros (Hne & _ & Hlen & v & -> & Hv). eexists.
      now apply handleCalculate_known.
  - intros dataset1 dataset2 confidenceLevel method intervalType var1 var2.
    split.
    + intros [r Hrun]. unfold calculate in Hrun.
      rewrite <- !length_zero.
      destruct (decide (length dataset1 = 0%nat \/ length dataset2 = 0%nat));
        [discriminate|].
      destruct (decide (method = Paired
                        /\ length dataset1 <> length dataset2));
        [discriminate|].
      destruct var1 as [v1|]; [|discriminate].
      destruct (decide (v1 <= 0)); [discriminate|].
      destruct var2 as [v2|]; [|discriminate].
      destruct (decide (v2 <= 0)); [discriminate|].
      split; [tauto|]. split; [tauto|]. split.
      * intros Hm. destruct (decide (length dataset1 = length dataset2));
          tauto.
      * exists v1, v2. repeat split; lra.
    + intros (Hne1 & Hne2 & Hlen & v1 & v2 & -> & -> & Hv1 & Hv2).
      destruct (decide (method = Paired)) as [->|Hm]; eexists.
      * now apply calculate_known_paired; auto.
      * now apply calculate_known_independent.
Qed.

End ConfidenceIntervalProperties.


Lemma components_compared_witness :
  exists (p : PairedMeanCI.result) (q : TwoSampleCI.result),
    handleCalculate (fun c => c) (fun _ _ _ _ _ => Failure "unused")
      [10; 12; 14] [8; 11; 12] 0.95 OneSidedLower true (Some 2)
    = Success p
    /\ calculate (fun c => c) (fun _ _ _ _ _ => Failure "unused")
         [10; 12; 14] [8; 11; 12] 0.95 Paired OneSidedLower true (Some 1)
         (Some 1) = Success q
    /\ Interval.lower (PairedMeanCI.interval p) = NegInfinity
    /\ Interval.upper (TwoSampleCI.interval q) = Infinity.
Proof.
  destruct (components_compared (fun c => c)
              (fun _ _ _ _ _ => Failure "unused")
              [10; 12; 14] [8; 11; 12] 0.95 2 1 1 OneSidedLower)
    as (p & q & Hp & Hq & _ & _ & _ & _ & Hlower & _ & _ & Hupper);
    [discriminate | reflexivity | lra | lra | lra |].
  now exists p, q.
Defined.

Lemma known_variance_validation_witness :
  ~ (exists r : PairedMeanCI.result,
        handleCalculate (fun c => c) (fun _ _ _ _ _ => Failure "unused")
          [1; 2] [3; 4] 0.95 TwoSided true (Some (-1)) = Success r).
Proof.
  destruct (known_variance_validation (fun c => c)
              (fun _ _ _ _ _ => Failure "unused")) as (_ & _ & H & _).
  rewrite H. intros (_ & _ & _ & v & [= <-] & Hv). lra.
Defined.
